(** * Chess: a shallow embedding of the game core of [src/index.tsx]

    The development follows the source function by function:
    [isWhite]/[isBlack], [getValidMoves] (with its local closures [addMove]
    and [addSlide]), [makeMove], [evaluateBoard], [getAllMoves], [minimax]
    and the body of the timer callback of [aiMove].

    Modelling conventions.
    - A JavaScript exception ([TypeError] on a property access of
      [undefined]) is the [TypeError] outcome of the [result] monad.
    - Coordinates and loop counters are integer-valued JavaScript numbers:
      they are [Z].
    - Scores are JavaScript numbers.  The piece values are integers and
      the only other constants are [3.5] and [5]; every value the
      evaluation computes is an integer or a half-integer far below [2^53],
      so the floating point operations of the source are exact.  Scores
      are modelled as canonical rationals [Qc], extended with the two
      infinities.
    - [makeMove] is given twice: on board values, which is what the search
      uses, and on a store of array objects, where the input board can be
      observed after the call; the two are proved to agree.
    - The array [moves] that [getValidMoves] fills with [push] is threaded
      through the closures as explicit state. *)

From Stdlib Require Import ZArith QArith Qcanon List Bool String Ascii Lia Lqa
  OrdersTac DecimalString.
From Stdlib Require Qabs Qcabs.
From stdpp Require Import base list.

Local Open Scope Z_scope.

(** ** Exceptions *)

Inductive result (A : Type) : Type :=
| Ok (a : A)
| TypeError.
Arguments Ok {A} a.
Arguments TypeError {A}.

Definition bind {A B} (m : result A) (k : A -> result B) : result B :=
  match m with
  | Ok a => k a
  | TypeError => TypeError
  end.

Notation "'let*' x ':=' e 'in' k" := (bind e (fun x => k))
  (at level 10, x name, e at level 100, k at level 200).
Notation "'let*' ' p ':=' e 'in' k" := (bind e (fun x => match x with p => k end))
  (at level 10, p pattern, e at level 100, k at level 200).

(** [arr.forEach(f)], and a [for] loop over the values [arr], where the body
    [f] updates state of type [S] and may throw. *)
Fixpoint forEach {A S} (arr : list A) (f : A -> S -> result S) (s : S) : result S :=
  match arr with
  | [] => Ok s
  | a :: rest => let* s' := f a s in forEach rest f s'
  end.

(** The values [lo, lo+1, ...] taken by a counting [for] loop. *)
Definition range (lo : Z) (n : nat) : list Z :=
  map (fun k => lo + Z.of_nat k) (seq 0 n).

(** ** Pieces

    [type PieceType = 'K' | 'Q' | 'R' | 'B' | 'N' | 'P' | 'k' | ... | null].
    The constructor [wK] is the string ['K'], [bk] is ['k'], and so on:
    upper case is the first mover (white), lower case the second (black). *)

Inductive Piece : Set :=
| wK | wQ | wR | wB | wN | wP
| bk | bq | br | bb | bn | bp.

#[global] Instance Piece_eq_dec : EqDecision Piece.
Proof. solve_decision. Defined.

Definition toUpperCase (p : Piece) : Piece :=
  match p with
  | wK | bk => wK | wQ | bq => wQ | wR | br => wR
  | wB | bb => wB | wN | bn => wN | wP | bp => wP
  end.

Definition toLowerCase (p : Piece) : Piece :=
  match p with
  | wK | bk => bk | wQ | bq => bq | wR | br => br
  | wB | bb => bb | wN | bn => bn | wP | bp => bp
  end.

(** What a read of a square can produce at run time: a piece, [null], or
    [undefined] (a read outside an array). *)
Inductive JsVal : Set :=
| Undefined
| Null
| Pc (p : Piece).

#[global] Instance JsVal_eq_dec : EqDecision JsVal.
Proof. solve_decision. Defined.

(** [v === null] *)
Definition isNull (v : JsVal) : bool :=
  match v with Null => true | _ => false end.

(** Truthiness: a piece is a non-empty string. *)
Definition truthy (v : JsVal) : bool :=
  match v with Pc _ => true | _ => false end.

(** [piece !== null && piece === piece.toUpperCase()]; on [undefined] the
    method call throws. *)
Definition isWhite (piece : JsVal) : result bool :=
  match piece with
  | Null => Ok false
  | Pc p => Ok (bool_decide (p = toUpperCase p))
  | Undefined => TypeError
  end.

Definition isBlack (piece : JsVal) : result bool :=
  match piece with
  | Null => Ok false
  | Pc p => Ok (bool_decide (p = toLowerCase p))
  | Undefined => TypeError
  end.

(** ** Rows and boards

    A row is a JavaScript array.  Besides its elements it can carry
    properties whose key is not an array index (a write [row[-1] = v]
    creates one); a write past the end extends the array with holes, which
    read as [undefined]. *)

Module Row.

Record t : Set := mk { elems : list JsVal; props : list (Z * JsVal) }.

Definition isIndex (i : Z) : bool := (0 <=? i) && (i <? 2 ^ 32 - 1).

Fixpoint assoc (k : Z) (l : list (Z * JsVal)) : JsVal :=
  match l with
  | [] => Undefined
  | (k', v) :: rest => if k =? k' then v else assoc k rest
  end.

(** [row[i]] *)
Definition get (row : t) (i : Z) : JsVal :=
  if isIndex i then default Undefined (elems row !! Z.to_nat i)
  else assoc i (props row).

(** [row[i] = v] *)
Definition set (row : t) (i : Z) (v : JsVal) : t :=
  if isIndex i then
    let n := Z.to_nat i in
    if (n <? length (elems row))%nat
    then mk (<[n := v]> (elems row)) (props row)
    else mk (elems row ++ replicate (n - length (elems row)) Undefined ++ [v])
            (props row)
  else mk (elems row) ((i, v) :: props row).

(** [[...row]]: the elements only. *)
Definition spread (row : t) : t := mk (elems row) [].

(** An array literal. *)
Definition lit (l : list JsVal) : t := mk l [].

End Row.

(** [type Board = PieceType[][]] *)
Abbreviation Board := (list Row.t).

(** [board[r]], [None] for [undefined]. *)
Definition getRow (board : Board) (r : Z) : option Row.t :=
  if 0 <=? r then board !! Z.to_nat r else None.

(** [board[r][c]] *)
Definition getCell (board : Board) (r c : Z) : result JsVal :=
  match getRow board r with
  | Some row => Ok (Row.get row c)
  | None => TypeError
  end.

(** [board[r]?.[c]] *)
Definition getCellOpt (board : Board) (r c : Z) : JsVal :=
  match getRow board r with
  | Some row => Row.get row c
  | None => Undefined
  end.

Definition initialBoard : Board :=
  [ Row.lit [Pc br; Pc bn; Pc bb; Pc bq; Pc bk; Pc bb; Pc bn; Pc br];
    Row.lit [Pc bp; Pc bp; Pc bp; Pc bp; Pc bp; Pc bp; Pc bp; Pc bp];
    Row.lit [Null; Null; Null; Null; Null; Null; Null; Null];
    Row.lit [Null; Null; Null; Null; Null; Null; Null; Null];
    Row.lit [Null; Null; Null; Null; Null; Null; Null; Null];
    Row.lit [Null; Null; Null; Null; Null; Null; Null; Null];
    Row.lit [Pc wP; Pc wP; Pc wP; Pc wP; Pc wP; Pc wP; Pc wP; Pc wP];
    Row.lit [Pc wR; Pc wN; Pc wB; Pc wQ; Pc wK; Pc wB; Pc wN; Pc wR] ].

(** ** Move generation: [getValidMoves] *)

Definition Square : Set := (Z * Z)%type.

Section GetValidMoves.

Variable board : Board.
Variables row col : Z.
Variable isWhitePiece : bool.

(** The closure [addMove]; the boolean is its return value. *)
Definition addMove (r c : Z) (moves : list Square) : result (list Square * bool) :=
  if (r <? 0) || (r >? 7) || (c <? 0) || (c >? 7) then Ok (moves, false)
  else
    let* target := getCell board r c in
    if isNull target then Ok (moves ++ [(r, c)], true)
    else
      let* w := isWhite target in
      if negb (eqb isWhitePiece w) then Ok (moves ++ [(r, c)], false)
      else Ok (moves, false).

(** The body of the loop of [addSlide], for the remaining values of [i]. *)
Fixpoint addSlideLoop (dr dc : Z) (idx : list Z) (moves : list Square)
  : result (list Square) :=
  match idx with
  | [] => Ok moves
  | i :: rest =>
      let* '(moves, ok) := addMove (row + dr * i) (col + dc * i) moves in
      if negb ok then Ok moves
      else if truthy (getCellOpt board (row + dr * i) (col + dc * i)) then Ok moves
      else addSlideLoop dr dc rest moves
  end.

(** [for (let i = 1; i < 8; i++)] *)
Definition addSlide (d : Z * Z) (moves : list Square) : result (list Square) :=
  addSlideLoop (fst d) (snd d) (range 1 7) moves.

(** [addMove(row + dr, col + dc)] with the return value dropped. *)
Definition addStep (d : Z * Z) (moves : list Square) : result (list Square) :=
  let* '(moves, _) := addMove (row + fst d) (col + snd d) moves in Ok moves.

(** The callback of the capture loop of the pawn. *)
Definition pawnCapture (dir : Z) (dc : Z) (moves : list Square)
  : result (list Square) :=
  let target := getCellOpt board (row + dir) (col + dc) in
  if truthy target then
    let* w := isWhite target in
    if negb (eqb isWhitePiece w) then Ok (moves ++ [(row + dir, col + dc)])
    else Ok moves
  else Ok moves.

Definition pawnMoves (moves : list Square) : result (list Square) :=
  let dir := if isWhitePiece then -1 else 1 in
  let startRow := if isWhitePiece then 6 else 1 in
  let moves :=
    if isNull (getCellOpt board (row + dir) col) then
      let moves := moves ++ [(row + dir, col)] in
      if (row =? startRow) && isNull (getCellOpt board (row + 2 * dir) col)
      then moves ++ [(row + 2 * dir, col)]
      else moves
    else moves in
  forEach [-1; 1] (pawnCapture dir) moves.

End GetValidMoves.

Definition knightOffsets : list (Z * Z) :=
  [(-2,-1); (-2,1); (-1,-2); (-1,2); (1,-2); (1,2); (2,-1); (2,1)].
Definition bishopDirs : list (Z * Z) := [(-1,-1); (-1,1); (1,-1); (1,1)].
Definition rookDirs : list (Z * Z) := [(-1,0); (1,0); (0,-1); (0,1)].
Definition queenDirs : list (Z * Z) :=
  [(-1,-1); (-1,1); (1,-1); (1,1); (-1,0); (1,0); (0,-1); (0,1)].
Definition kingOffsets : list (Z * Z) :=
  [(-1,-1); (-1,0); (-1,1); (0,-1); (0,1); (1,-1); (1,0); (1,1)].

Definition getValidMoves (board : Board) (row col : Z) : result (list Square) :=
  let* piece := getCell board row col in
  match piece with
  | Undefined | Null => Ok []
  | Pc p =>
      let moves : list Square := [] in
      let* isWhitePiece := isWhite piece in
      let pieceType := toLowerCase p in
      match pieceType with
      | bp => pawnMoves board row col isWhitePiece moves
      | bn => forEach knightOffsets (addStep board row col isWhitePiece) moves
      | bb => forEach bishopDirs (addSlide board row col isWhitePiece) moves
      | br => forEach rookDirs (addSlide board row col isWhitePiece) moves
      | bq => forEach queenDirs (addSlide board row col isWhitePiece) moves
      | bk => forEach kingOffsets (addStep board row col isWhitePiece) moves
      | _ => Ok moves
      end
  end.

(** ** Move application: [makeMove] *)

(** [board[r][c] = v] on a board whose rows are not shared. *)
Definition setCell (board : Board) (r c : Z) (v : JsVal) : result Board :=
  match getRow board r with
  | Some row => Ok (<[Z.to_nat r := Row.set row c v]> board)
  | None => TypeError
  end.

(** [piece?.toLowerCase() === 'p'] *)
Definition isPawn (piece : JsVal) : bool :=
  match piece with
  | Pc p => bool_decide (toLowerCase p = bp)
  | _ => false
  end.

Definition makeMove (board : Board) (from to : Square) : result Board :=
  let newBoard := map Row.spread board in
  let* piece := getCell newBoard from.1 from.2 in
  let* newBoard := setCell newBoard to.1 to.2 piece in
  let* newBoard := setCell newBoard from.1 from.2 Null in
  if isPawn piece && ((to.1 =? 0) || (to.1 =? 7)) then
    let* w := isWhite piece in
    setCell newBoard to.1 to.2 (if w then Pc wQ else Pc bq)
  else Ok newBoard.

(** *** [makeMove] on a store of array objects

    The definition above reads [makeMove] on board values.  To speak about
    the caller's board after the call, the same code is given here on a
    store: the outer array and every row are objects, a board is a
    reference, and the assignments of [makeMove] update the store in
    place. *)

Module Store.

Abbreviation ref := nat.

Record Heap : Set := mkHeap {
  rowObjs : list Row.t;          (** the row arrays *)
  boardObjs : list (list ref)    (** the outer arrays: references to rows *)
}.

(** A reference that denotes no object cannot arise in JavaScript; the
    model faults on it. *)
Definition deref {A} (o : option A) : result A :=
  match o with Some a => Ok a | None => TypeError end.

(** [[...row]] allocates a new array. *)
Definition allocRow (h : Heap) (row : Row.t) : ref * Heap :=
  (length (rowObjs h), mkHeap (rowObjs h ++ [row]) (boardObjs h)).

Definition allocBoard (h : Heap) (rows : list ref) : ref * Heap :=
  (length (boardObjs h), mkHeap (rowObjs h) (boardObjs h ++ [rows])).

(** [rows.map(row => [...row])], left to right. *)
Fixpoint copyRows (rows : list ref) (h : Heap) : result (list ref * Heap) :=
  match rows with
  | [] => Ok ([], h)
  | l :: rest =>
      let* row := deref (rowObjs h !! l) in
      let '(l', h) := allocRow h (Row.spread row) in
      let* '(ls, h) := copyRows rest h in
      Ok (l' :: ls, h)
  end.

(** [board[r]] for a board reference: a row reference or [undefined]. *)
Definition rowRef (h : Heap) (b : ref) (r : Z) : result (option ref) :=
  let* rows := deref (boardObjs h !! b) in
  Ok (if 0 <=? r then rows !! Z.to_nat r else None).

(** [board[r][c]] *)
Definition readCell (h : Heap) (b : ref) (r c : Z) : result JsVal :=
  let* l := rowRef h b r in
  match l with
  | Some l => let* row := deref (rowObjs h !! l) in Ok (Row.get row c)
  | None => TypeError
  end.

(** [board[r][c] = v] *)
Definition writeCell (h : Heap) (b : ref) (r c : Z) (v : JsVal) : result Heap :=
  let* l := rowRef h b r in
  match l with
  | Some l =>
      let* row := deref (rowObjs h !! l) in
      Ok (mkHeap (<[l := Row.set row c v]> (rowObjs h)) (boardObjs h))
  | None => TypeError
  end.

Definition makeMove (board : ref) (from to : Square) (h : Heap)
  : result (ref * Heap) :=
  let* rows := deref (boardObjs h !! board) in
  let* '(rows', h) := copyRows rows h in
  let '(newBoard, h) := allocBoard h rows' in
  let* piece := readCell h newBoard from.1 from.2 in
  let* h := writeCell h newBoard to.1 to.2 piece in
  let* h := writeCell h newBoard from.1 from.2 Null in
  if isPawn piece && ((to.1 =? 0) || (to.1 =? 7)) then
    let* w := isWhite piece in
    let* h := writeCell h newBoard to.1 to.2 (if w then Pc wQ else Pc bq) in
    Ok (newBoard, h)
  else Ok (newBoard, h).

(** The board value a reference denotes. *)
Definition readBoard (h : Heap) (b : ref) : option Board :=
  rows ← boardObjs h !! b; mapM (fun l => rowObjs h !! l) rows.

End Store.

(** ** Scores *)

Inductive Num : Set :=
| NegInf
| Fin (q : Qc)
| PosInf.

Module Num.

(** [a <= b] *)
Definition leb (a b : Num) : bool :=
  match a, b with
  | NegInf, _ => true
  | _, PosInf => true
  | Fin x, Fin y => Qle_bool x y
  | _, _ => false
  end.

(** [a < b] *)
Definition ltb (a b : Num) : bool := negb (leb b a).

(** [Math.max(a, b)] *)
Definition max (a b : Num) : Num := if leb a b then b else a.

(** [Math.min(a, b)] *)
Definition min (a b : Num) : Num := if leb a b then a else b.

(** The tests as propositions. *)
Definition le (a b : Num) : Prop := leb a b = true.
Definition lt (a b : Num) : Prop := leb b a = false.

End Num.

(** ** Static evaluation: [evaluateBoard] *)

Definition PIECE_VALUES (p : Piece) : Qc :=
  Q2Qc (inject_Z
    match p with
    | bp => 100 | bn => 320 | bb => 330 | br => 500 | bq => 900 | bk => 20000
    | wP => -100 | wN => -320 | wB => -330 | wR => -500 | wQ => -900 | wK => -20000
    end).

(** [v || 0] *)
Definition orZero (v : Qc) : Qc := if Qc_eq_dec v 0%Qc then 0%Qc else v.

Definition num (z : Z) : Qc := Q2Qc (inject_Z z).

Definition Math_abs (x : Qc) : Qc := if Qle_bool 0 x then x else (- x)%Qc.

(** [(3.5 - Math.abs(3.5 - c)) * 5 + (3.5 - Math.abs(3.5 - r)) * 5] *)
Definition centerBonus (r c : Z) : Qc :=
  ((Q2Qc 3.5%Q - Math_abs (Q2Qc 3.5%Q - num c)) * num 5
   + (Q2Qc 3.5%Q - Math_abs (Q2Qc 3.5%Q - num r)) * num 5)%Qc.

(** The body of the two loops of [evaluateBoard]. *)
Definition evaluateSquare (board : Board) (r c : Z) (score : Qc) : result Qc :=
  let* piece := getCell board r c in
  match piece with
  | Pc p =>
      let score := (score + orZero (PIECE_VALUES p))%Qc in
      let* black := isBlack piece in
      Ok (score + (if black then centerBonus r c else - centerBonus r c))%Qc
  | _ => Ok score
  end.

(** [for (let r = 0; r < 8; r++) for (let c = 0; c < 8; c++)] *)
Definition evaluateBoard (board : Board) : result Qc :=
  forEach (range 0 8) (fun r => forEach (range 0 8) (evaluateSquare board r)) 0%Qc.

(** ** Enumerating the moves of a side: [getAllMoves] *)

Definition Move : Set := (Z * Z * Z * Z)%type.

(** The body of the two loops of [getAllMoves]. *)
Definition movesOfSquare (board : Board) (forBlack : bool) (r c : Z)
  (moves : list Move) : result (list Move) :=
  let* piece := getCell board r c in
  let* mine :=
    if truthy piece then (if forBlack then isBlack piece else isWhite piece)
    else Ok false in
  if mine then
    let* pieceMoves := getValidMoves board r c in
    Ok (moves ++ map (fun t : Square => (r, c, t.1, t.2)) pieceMoves)
  else Ok moves.

(** [for (let r = 0; r < 8; r++) for (let c = 0; c < 8; c++)] *)
Definition getAllMoves (board : Board) (forBlack : bool) : result (list Move) :=
  forEach (range 0 8)
    (fun r => forEach (range 0 8) (movesOfSquare board forBlack r)) [].

(** ** Search: [minimax]

    The recursion ends at [depth === 0] and every call passes [depth - 1];
    [aiMove] starts it at [2].  [depth] is a natural number. *)

Section MinimaxLoops.

(** The recursive call, [minimax] at [depth - 1]. *)
Variable search : Board -> Num -> Num -> bool -> result Num.
Variable board : Board.

Fixpoint maxLoop (moves : list Move) (maxEval alpha beta : Num) : result Num :=
  match moves with
  | [] => Ok maxEval
  | (fr, fc, tr, tc) :: rest =>
      let* newBoard := makeMove board (fr, fc) (tr, tc) in
      let* evalScore := search newBoard alpha beta false in
      let maxEval := Num.max maxEval evalScore in
      let alpha := Num.max alpha evalScore in
      if Num.leb beta alpha then Ok maxEval
      else maxLoop rest maxEval alpha beta
  end.

Fixpoint minLoop (moves : list Move) (minEval alpha beta : Num) : result Num :=
  match moves with
  | [] => Ok minEval
  | (fr, fc, tr, tc) :: rest =>
      let* newBoard := makeMove board (fr, fc) (tr, tc) in
      let* evalScore := search newBoard alpha beta true in
      let minEval := Num.min minEval evalScore in
      let beta := Num.min beta evalScore in
      if Num.leb beta alpha then Ok minEval
      else minLoop rest minEval alpha beta
  end.

End MinimaxLoops.

Fixpoint minimax (depth : nat) (board : Board) (alpha beta : Num)
  (maximizing : bool) : result Num :=
  match depth with
  | O => let* score := evaluateBoard board in Ok (Fin score)
  | S depth' =>
      let* moves := getAllMoves board maximizing in
      match moves with
      | [] => Ok (if maximizing then NegInf else PosInf)
      | _ =>
          if maximizing
          then maxLoop (minimax depth') board moves NegInf alpha beta
          else minLoop (minimax depth') board moves PosInf alpha beta
      end
  end.

(** *** Minimax without the window

    The same enumeration and the same folds, with [alpha], [beta] and the
    two [break]s removed. *)

Section PlainLoops.

Variable search : Board -> bool -> result Num.
Variable board : Board.

Fixpoint plainMaxLoop (moves : list Move) (maxEval : Num) : result Num :=
  match moves with
  | [] => Ok maxEval
  | (fr, fc, tr, tc) :: rest =>
      let* newBoard := makeMove board (fr, fc) (tr, tc) in
      let* evalScore := search newBoard false in
      plainMaxLoop rest (Num.max maxEval evalScore)
  end.

Fixpoint plainMinLoop (moves : list Move) (minEval : Num) : result Num :=
  match moves with
  | [] => Ok minEval
  | (fr, fc, tr, tc) :: rest =>
      let* newBoard := makeMove board (fr, fc) (tr, tc) in
      let* evalScore := search newBoard true in
      plainMinLoop rest (Num.min minEval evalScore)
  end.

End PlainLoops.

Fixpoint plainMinimax (depth : nat) (board : Board) (maximizing : bool)
  : result Num :=
  match depth with
  | O => let* score := evaluateBoard board in Ok (Fin score)
  | S depth' =>
      let* moves := getAllMoves board maximizing in
      match moves with
      | [] => Ok (if maximizing then NegInf else PosInf)
      | _ =>
          if maximizing
          then plainMaxLoop (plainMinimax depth') board moves NegInf
          else plainMinLoop (plainMinimax depth') board moves PosInf
      end
  end.

(** ** The automated side: the timer callback of [aiMove]

    The callback ends either with [setGameOver('Checkmate! You win!')] and
    no move, or with [setBoard(newBoard)] for the chosen [bestMove],
    followed by [setGameOver('Checkmate! AI wins!')] when white is left
    without a move.  The history line is presentation: the two reads
    [currentBoard[fr][fc]] and [currentBoard[tr][tc]] it starts with are
    kept, its formatting is left out. *)

Inductive AiOutcome : Set :=
| GameOver (message : string)
| Played (bestMove : Move) (newBoard : Board) (gameOver : option string).

(** The selection loop, from [bestMove] and [bestScore] so far. *)
Fixpoint bestLoop (currentBoard : Board) (moves : list Move)
  (bestMove : Move) (bestScore : Num) : result (Move * Num) :=
  match moves with
  | [] => Ok (bestMove, bestScore)
  | (fr, fc, tr, tc) :: rest =>
      let* newBoard := makeMove currentBoard (fr, fc) (tr, tc) in
      let* score := minimax 2 newBoard NegInf PosInf false in
      if Num.ltb bestScore score
      then bestLoop currentBoard rest (fr, fc, tr, tc) score
      else bestLoop currentBoard rest bestMove bestScore
  end.

Definition aiMove (currentBoard : Board) : result AiOutcome :=
  let* moves := getAllMoves currentBoard true in
  match moves with
  | [] => Ok (GameOver "Checkmate! You win!")
  | first :: _ =>
      let* '(bestMove, _) := bestLoop currentBoard moves first NegInf in
      let '(fr, fc, tr, tc) := bestMove in
      let* _ := getCell currentBoard fr fc in
      let* _ := getCell currentBoard tr tc in
      let* newBoard := makeMove currentBoard (fr, fc) (tr, tc) in
      let* whiteMoves := getAllMoves newBoard false in
      Ok (Played bestMove newBoard
            (match whiteMoves with
             | [] => Some "Checkmate! AI wins!"%string
             | _ => None
             end))
  end.

(** ** Well-formed boards and squares *)

Definition inRange (r c : Z) : Prop := (0 <= r <= 7) /\ (0 <= c <= 7).

Definition inRangeb (r c : Z) : bool :=
  (0 <=? r) && (r <=? 7) && (0 <=? c) && (c <=? 7).

(** A row of eight squares, each a piece or [null]. *)
Definition wfRow (row : Row.t) : bool :=
  (length (Row.elems row) =? 8)%nat
  && forallb (fun v => negb (bool_decide (v = Undefined))) (Row.elems row)
  && bool_decide (Row.props row = []).

(** An 8x8 board. *)
Definition wf8b (board : Board) : bool :=
  (length board =? 8)%nat && forallb wfRow board.

Definition wf8 (board : Board) : Prop := wf8b board = true.

(** The side of a piece: [true] for white. *)
Definition white (p : Piece) : bool := bool_decide (p = toUpperCase p).

(** A square a piece of side [w] may land on: on the board, and empty or
    held by the other side. *)
Definition legalDest (board : Board) (w : bool) (r c : Z) : Prop :=
  getCellOpt board r c = Null
  \/ exists t, getCellOpt board r c = Pc t /\ white t <> w.

(** ** The squares each closure of [getValidMoves] pushes *)

Section Pushed.

Variable board : Board.
Variables row col : Z.
Variable w : bool.

(** The squares [addMove(r, c)] pushes. *)
Definition dest (r c : Z) : list Square :=
  match getCellOpt board r c with
  | Null => [(r, c)]
  | Pc t => if negb (eqb w (white t)) then [(r, c)] else []
  | Undefined => []
  end.

(** The squares [addSlide(dr, dc)] pushes for the values [idx] of [i]. *)
Fixpoint ray (dr dc : Z) (idx : list Z) : list Square :=
  match idx with
  | [] => []
  | i :: rest =>
      match getCellOpt board (row + dr * i) (col + dc * i) with
      | Null => (row + dr * i, col + dc * i) :: ray dr dc rest
      | Pc t =>
          if negb (eqb w (white t)) then [(row + dr * i, col + dc * i)] else []
      | Undefined => []
      end
  end.

Definition pawnDir : Z := if w then -1 else 1.
Definition pawnStart : Z := if w then 6 else 1.

Definition pawnForward : list Square :=
  if isNull (getCellOpt board (row + pawnDir) col) then
    (row + pawnDir, col)
    :: (if (row =? pawnStart) && isNull (getCellOpt board (row + 2 * pawnDir) col)
        then [(row + 2 * pawnDir, col)] else [])
  else [].

Definition pawnTakes (dc : Z) : list Square :=
  match getCellOpt board (row + pawnDir) (col + dc) with
  | Pc t => if negb (eqb w (white t)) then [(row + pawnDir, col + dc)] else []
  | _ => []
  end.

(** What [getValidMoves] returns for a piece [p] of side [w]. *)
Definition generated (p : Piece) : list Square :=
  match toLowerCase p with
  | bp => pawnForward ++ pawnTakes (-1) ++ pawnTakes 1
  | bn => concat (map (fun d => dest (row + d.1) (col + d.2)) knightOffsets)
  | bb => concat (map (fun d => ray d.1 d.2 (range 1 7)) bishopDirs)
  | br => concat (map (fun d => ray d.1 d.2 (range 1 7)) rookDirs)
  | bq => concat (map (fun d => ray d.1 d.2 (range 1 7)) queenDirs)
  | bk => concat (map (fun d => dest (row + d.1) (col + d.2)) kingOffsets)
  | _ => []
  end.

End Pushed.

(** The directions the [switch] of [getValidMoves] slides a piece along. *)
Definition slideDirs (p : Piece) : list (Z * Z) :=
  match toLowerCase p with
  | bb => bishopDirs
  | br => rookDirs
  | bq => queenDirs
  | _ => []
  end.

(** ** Two positions used as examples *)

(** A white pawn one step from promotion, a white rook facing a black pawn
    along its rank, and the two kings. *)
Definition sparseBoard : Board :=
  [ Row.lit [Null; Null; Null; Null; Pc bk; Null; Null; Null];
    Row.lit [Pc wP; Null; Null; Null; Null; Null; Null; Null];
    Row.lit [Null; Null; Null; Null; Null; Null; Null; Null];
    Row.lit [Null; Null; Null; Null; Null; Null; Null; Null];
    Row.lit [Pc wR; Null; Null; Pc bp; Null; Null; Null; Null];
    Row.lit [Null; Null; Null; Null; Null; Null; Null; Null];
    Row.lit [Null; Null; Null; Null; Null; Null; Null; Null];
    Row.lit [Null; Null; Null; Null; Pc wK; Null; Null; Null] ].

(** The six moves of black on [sparseBoard], in the order of [getAllMoves]:
    five of the king, then the step of the pawn. *)
Definition sparseBlackMoves : list Move :=
  [(0, 4, 0, 3); (0, 4, 0, 5); (0, 4, 1, 3); (0, 4, 1, 4); (0, 4, 1, 5);
   (4, 3, 5, 3)].

(** ** What [makeMove] leaves on the destination square *)

(** The queen a pawn of the side of [piece] promotes to. *)
Definition queenOf (piece : JsVal) : JsVal :=
  match piece with
  | Pc p => if white p then Pc wQ else Pc bq
  | _ => piece
  end.

(** The condition of the promotion branch. *)
Definition promotes (piece : JsVal) (to : Square) : bool :=
  isPawn piece && ((to.1 =? 0) || (to.1 =? 7)).

(** The moved piece, or the queen it is promoted to. *)
Definition landed (piece : JsVal) (to : Square) : JsVal :=
  if promotes piece to then queenOf piece else piece.

Definition onSquare (sq : Square) (r c : Z) : bool :=
  (sq.1 =? r) && (sq.2 =? c).

(** ** Stores after a call of [makeMove] *)

(** [h] is [h0] with one more board, whose rows are the new row objects
    [newBoard]; every object of [h0] is still there, unchanged. *)
Definition extendsWith (h0 h : Store.Heap) (newBoard : Board) : Prop :=
  Store.rowObjs h = Store.rowObjs h0 ++ newBoard
  /\ Store.boardObjs h
     = Store.boardObjs h0
       ++ [seq (length (Store.rowObjs h0)) (length newBoard)].

(** The store after [useState<Board>(initialBoard)]: the eight rows of the
    starting position and, at reference [0], the board made of them. *)
Definition initialStore : Store.Heap :=
  Store.mkHeap initialBoard [seq 0 8].

(** ** The score, as the specification words it *)

Inductive Kind : Set := Pawn | Knight | Bishop | Rook | Queen | King.

Definition kindOf (p : Piece) : Kind :=
  match p with
  | wP | bp => Pawn | wN | bn => Knight | wB | bb => Bishop
  | wR | br => Rook | wQ | bq => Queen | wK | bk => King
  end.

Definition materialValue (k : Kind) : Qc :=
  num match k with
      | Pawn => 100 | Knight => 320 | Bishop => 330
      | Rook => 500 | Queen => 900 | King => 20000
      end.

(** Positive for the second mover (black), negative for the first (white). *)
Definition signed (p : Piece) (x : Qc) : Qc := if white p then (- x)%Qc else x.

Definition sumQc (l : list Qc) : Qc := fold_right Qcplus 0%Qc l.

(** The 64 squares, row by row. *)
Definition squares : list Square :=
  flat_map (fun r => map (fun c => (r, c)) (range 0 8)) (range 0 8).

(** The occupied squares with the piece on each. *)
Definition occupied (board : Board) : list (Square * Piece) :=
  flat_map (fun sq : Square =>
              match getCellOpt board sq.1 sq.2 with
              | Pc p => [(sq, p)]
              | _ => []
              end) squares.

(** The centre bonus of a square, as the specification writes it:
    [(3.5 - |3.5 - col|) * 5 + (3.5 - |3.5 - row|) * 5], with the absolute
    value of the rationals. *)
Definition specCenterBonus (row col : Z) : Qc :=
  ((Q2Qc 3.5 - Qcabs.Qcabs (Q2Qc 3.5 - Q2Qc (inject_Z col))) * Q2Qc 5
   + (Q2Qc 3.5 - Qcabs.Qcabs (Q2Qc 3.5 - Q2Qc (inject_Z row))) * Q2Qc 5)%Qc.

Definition specScore (board : Board) : Qc :=
  (sumQc (map (fun o : Square * Piece => signed o.2 (materialValue (kindOf o.2)))
              (occupied board))
   + sumQc (map (fun o : Square * Piece => signed o.2 (specCenterBonus o.1.1 o.1.2))
                (occupied board)))%Qc.

(** ** Vocabulary for the search *)

(** A move between two squares of the board. *)
Definition legalMove (m : Move) : Prop :=
  let '(fr, fc, tr, tc) := m in inRange fr fc /\ inRange tr tc.

(** What a search with window [(alpha, beta)] that returned [r] tells about
    the value [v] of the position: [r] bounds [v] from above when it fails
    low, from below when it fails high, and is [v] inside the window. *)
Definition window (alpha beta r v : Num) : Prop :=
  (Num.leb r alpha = true -> Num.leb v r = true)
  /\ (Num.leb beta r = true -> Num.leb r v = true)
  /\ (Num.ltb alpha r = true -> Num.ltb r beta = true -> v = r).

(** The moves [getAllMoves] collects from one square: those of the piece on
    it, in the order [getValidMoves] generates them, when the piece belongs
    to the side asked for. *)
Definition movesFromSquare (board : Board) (forBlack : bool) (r c : Z) : list Move :=
  match getCellOpt board r c with
  | Pc p =>
      if (if forBlack then negb (white p) else white p)
      then map (fun t : Square => (r, c, t.1, t.2)) (generated board r c (white p) p)
      else []
  | _ => []
  end.

(** Row by row, and column by column inside a row. *)
Definition scanOrder (board : Board) (forBlack : bool) : list Move :=
  flat_map (fun r => flat_map (movesFromSquare board forBlack r) (range 0 8))
           (range 0 8).

(** The score the selection loop of [aiMove] gives a move: apply it, then
    search two plies with the full window, white to move. *)
Definition scoreOf (board : Board) (m : Move) : result Num :=
  let '(fr, fc, tr, tc) := m in
  let* newBoard := makeMove board (fr, fc) (tr, tc) in
  minimax 2 newBoard NegInf PosInf false.

(** A position in which black has no piece left. *)
Definition whiteOnlyBoard : Board :=
  [ Row.lit [Null; Null; Null; Null; Null; Null; Null; Null];
    Row.lit [Null; Null; Null; Null; Null; Null; Null; Null];
    Row.lit [Null; Null; Null; Null; Null; Null; Null; Null];
    Row.lit [Null; Null; Null; Null; Null; Null; Null; Null];
    Row.lit [Null; Null; Null; Null; Null; Null; Null; Null];
    Row.lit [Null; Null; Null; Null; Null; Null; Null; Null];
    Row.lit [Null; Null; Null; Null; Null; Null; Null; Null];
    Row.lit [Null; Null; Null; Null; Pc wK; Null; Null; Null] ].

(** A position in which black has exactly one move: its only piece is a
    pawn off its starting row with nothing to capture. *)
Definition oneMoveBoard : Board :=
  [ Row.lit [Null; Null; Null; Null; Null; Null; Null; Null];
    Row.lit [Null; Null; Null; Null; Null; Null; Null; Null];
    Row.lit [Null; Null; Null; Pc bp; Null; Null; Null; Null];
    Row.lit [Null; Null; Null; Null; Null; Null; Null; Null];
    Row.lit [Null; Null; Null; Null; Null; Null; Null; Null];
    Row.lit [Null; Null; Null; Null; Null; Null; Null; Null];
    Row.lit [Null; Null; Null; Null; Null; Null; Null; Null];
    Row.lit [Null; Null; Null; Null; Pc wK; Null; Null; Null] ].

(** ** The effect of [makeMove] on the store, as C5 states it *)

(** The call on the reference [board], which denotes [B] in [h], returns a
    new board that agrees with [B] away from [from] and [to], has [from]
    empty and the moved or promoted piece on [to], and leaves [board] and
    every other object of [h] as it was. *)
Definition moveEffect (h : Store.Heap) (board : nat) (B : Board)
  (from to : Square) : Prop :=
  exists piece newBoard h' NB,
    getCell B from.1 from.2 = Ok piece
    /\ Store.makeMove board from to h = Ok (newBoard, h')
    /\ Store.readBoard h' newBoard = Some NB
    /\ makeMove B from to = Ok NB
    /\ (forall r c, (r, c) <> from -> (r, c) <> to ->
          getCell NB r c = getCell B r c)
    /\ getCell NB from.1 from.2 = Ok Null
    /\ getCell NB to.1 to.2 = Ok (landed piece to)
    /\ Store.readBoard h' board = Some B
    /\ (forall l row, Store.rowObjs h !! l = Some row ->
          Store.rowObjs h' !! l = Some row)
    /\ (forall l rows, Store.boardObjs h !! l = Some rows ->
          Store.boardObjs h' !! l = Some rows).

(** The same for any two squares, each clause with the moves it holds for.
    The assignments run in the order [to], [from], promotion: [from] is
    empty afterwards unless it is also [to] and the piece is promoted there,
    and [to] holds the moved or promoted piece unless it is also [from] and
    the assignment to [from] was the last one to reach it. *)
Definition moveOutcome (h : Store.Heap) (board : nat) (B : Board)
  (from to : Square) : Prop :=
  exists piece newBoard h' NB,
    getCell B from.1 from.2 = Ok piece
    /\ Store.makeMove board from to h = Ok (newBoard, h')
    /\ Store.readBoard h' newBoard = Some NB
    /\ makeMove B from to = Ok NB
    /\ (forall r c, (r, c) <> from -> (r, c) <> to ->
          getCell NB r c = getCell B r c)
    /\ (from <> to \/ promotes piece to = false ->
        getCell NB from.1 from.2 = Ok Null)
    /\ (from <> to \/ promotes piece to = true \/ piece = Null ->
        getCell NB to.1 to.2 = Ok (landed piece to))
    /\ Store.readBoard h' board = Some B
    /\ (forall l row, Store.rowObjs h !! l = Some row ->
          Store.rowObjs h' !! l = Some row)
    /\ (forall l rows, Store.boardObjs h !! l = Some rows ->
          Store.boardObjs h' !! l = Some rows).

(** ** Vocabulary for the move generator *)

(** The offsets the [switch] of [getValidMoves] steps a knight or a king by. *)
Definition stepOffsets (p : Piece) : list (Z * Z) :=
  match toLowerCase p with
  | bn => knightOffsets
  | bk => kingOffsets
  | _ => []
  end.

(** A square of the board that holds no piece of side [w]. *)
Definition freeFor (board : Board) (w : bool) (r c : Z) : Prop :=
  inRange r c /\ forall t, getCellOpt board r c = Pc t -> white t <> w.

(** ** Vocabulary for the evaluation *)

(** What the square [(r, c)] adds to the score: the value of the piece on it
    and its centre bonus, both positive for black and negative for white. *)
Definition squareScore (board : Board) (r c : Z) : Qc :=
  match getCellOpt board r c with
  | Pc p => (signed p (materialValue (kindOf p)) + signed p (centerBonus r c))%Qc
  | _ => 0%Qc
  end.

(** The position after the double step of the white e-pawn. *)
Definition afterE4 : Board :=
  [ Row.lit [Pc br; Pc bn; Pc bb; Pc bq; Pc bk; Pc bb; Pc bn; Pc br];
    Row.lit [Pc bp; Pc bp; Pc bp; Pc bp; Pc bp; Pc bp; Pc bp; Pc bp];
    Row.lit [Null; Null; Null; Null; Null; Null; Null; Null];
    Row.lit [Null; Null; Null; Null; Null; Null; Null; Null];
    Row.lit [Null; Null; Null; Null; Pc wP; Null; Null; Null];
    Row.lit [Null; Null; Null; Null; Null; Null; Null; Null];
    Row.lit [Pc wP; Pc wP; Pc wP; Pc wP; Null; Pc wP; Pc wP; Pc wP];
    Row.lit [Pc wR; Pc wN; Pc wB; Pc wQ; Pc wK; Pc wB; Pc wN; Pc wR] ].

(** [sparseBoard] after the white rook has taken the black pawn. *)
Definition afterRxd4 : Board :=
  [ Row.lit [Null; Null; Null; Null; Pc bk; Null; Null; Null];
    Row.lit [Pc wP; Null; Null; Null; Null; Null; Null; Null];
    Row.lit [Null; Null; Null; Null; Null; Null; Null; Null];
    Row.lit [Null; Null; Null; Null; Null; Null; Null; Null];
    Row.lit [Null; Null; Null; Pc wR; Null; Null; Null; Null];
    Row.lit [Null; Null; Null; Null; Null; Null; Null; Null];
    Row.lit [Null; Null; Null; Null; Null; Null; Null; Null];
    Row.lit [Null; Null; Null; Null; Pc wK; Null; Null; Null] ].

(** ** The colour of a square: [isLight] in the rendering of the board *)

(** [(r + c) % 2 === 0]; [%] is the remainder of the truncated division. *)
Definition isLight (r c : Z) : bool := Z.rem (r + c) 2 =? 0.

(** ** The history line of a move

    A JavaScript string is the list of its UTF-16 code units. *)

Abbreviation JsString := (list Z).

(** The text of a string literal of ASCII characters. *)
Definition text (s : string) : JsString :=
  map (fun a => Z.of_nat (nat_of_ascii a)) (list_ascii_of_string s).

(** [PIECE_SYMBOLS]: the white figures are U+2654 to U+2659, the black ones
    U+265A to U+265F. *)
Definition PIECE_SYMBOLS (p : Piece) : JsString :=
  [ match p with
    | wK => 0x2654 | wQ => 0x2655 | wR => 0x2656
    | wB => 0x2657 | wN => 0x2658 | wP => 0x2659
    | bk => 0x265A | bq => 0x265B | br => 0x265C
    | bb => 0x265D | bn => 0x265E | bp => 0x265F
    end ].

(** [${PIECE_SYMBOLS[piece!]}]: for [null] and [undefined] the table has no
    entry, and the template prints [undefined]. *)
Definition symbolText (piece : JsVal) : JsString :=
  match piece with
  | Pc p => PIECE_SYMBOLS p
  | _ => text "undefined"
  end.

(** [String.fromCharCode(n)]: the code unit [n] modulo [2^16]. *)
Definition fromCharCode (n : Z) : JsString := [n mod 65536].

(** [${n}] for an integer [n]: its decimal digits, with a minus sign when it
    is negative (the exponent form JavaScript switches to from [1e21] on is
    outside the integers this development computes with). *)
Definition numberText (n : Z) : JsString :=
  text (NilZero.string_of_int (Z.to_int n)).

(** The template of [handleSquareClick] and of [aiMove]: figure, square of
    departure, arrow, square of arrival and, on a capture, [ x] and the
    figure taken. *)
Definition notation (piece : JsVal) (from to : Square) (captured : JsVal)
  : JsString :=
  symbolText piece
  ++ fromCharCode (97 + from.2) ++ numberText (8 - from.1)
  ++ [0x2192]
  ++ fromCharCode (97 + to.2) ++ numberText (8 - to.1)
  ++ (if truthy captured then text " x" ++ symbolText captured else []).

(** ** The component: its state, its handlers and its timers

    The state is that of the seven [useState] hooks.  A handler reads the
    state of the render it was created in and calls setters; the state
    after the handler is the state before it with the values set.  A handler
    that throws keeps what it had set before the exception.  [setTimeout]
    adds a timer; which pending timer fires next is left open. *)

Module UI.

(** ['white' | 'black'] *)
Inductive Turn : Set := WhiteTurn | BlackTurn.

Record State : Set := mkState {
  board : Board;
  selected : option Square;
  turn : Turn;
  validMoves : list Square;
  gameOver : option string;
  thinking : bool;
  moveHistory : list JsString
}.

Definition setBoard (v : Board) (st : State) : State :=
  mkState v (selected st) (turn st) (validMoves st) (gameOver st)
          (thinking st) (moveHistory st).
Definition setSelected (v : option Square) (st : State) : State :=
  mkState (board st) v (turn st) (validMoves st) (gameOver st)
          (thinking st) (moveHistory st).
Definition setTurn (v : Turn) (st : State) : State :=
  mkState (board st) (selected st) v (validMoves st) (gameOver st)
          (thinking st) (moveHistory st).
Definition setValidMoves (v : list Square) (st : State) : State :=
  mkState (board st) (selected st) (turn st) v (gameOver st)
          (thinking st) (moveHistory st).
Definition setGameOver (v : option string) (st : State) : State :=
  mkState (board st) (selected st) (turn st) (validMoves st) v
          (thinking st) (moveHistory st).
Definition setThinking (v : bool) (st : State) : State :=
  mkState (board st) (selected st) (turn st) (validMoves st) (gameOver st)
          v (moveHistory st).
(** [setMoveHistory(prev => ...)] *)
Definition setMoveHistory (f : list JsString -> list JsString) (st : State) : State :=
  mkState (board st) (selected st) (turn st) (validMoves st) (gameOver st)
          (thinking st) (f (moveHistory st)).

(** The state of the first render. *)
Definition initialState : State :=
  mkState initialBoard None WhiteTurn [] None false [].

(** How a handler ends: normally, perhaps after [setTimeout(() =>
    aiMove(newBoard), 100)], or by an exception. *)
Inductive Handled : Set :=
| Done (st : State) (timer : option Board)
| Threw (st : State).

(** The truth value of [gameOver]: a non-empty string. *)
Definition truthyString (s : option string) : bool :=
  match s with
  | Some s => negb (String.eqb s "")
  | None => false
  end.

(** [piece && isWhite(piece)] *)
Definition whitePiece (piece : JsVal) : bool :=
  match piece with
  | Pc p => white p
  | _ => false
  end.

(** [setSelected([row, col]); setValidMoves(getValidMoves(board, row, col))] *)
Definition select (st : State) (row col : Z) : Handled :=
  let st' := setSelected (Some (row, col)) st in
  match getValidMoves (board st) row col with
  | Ok moves => Done (setValidMoves moves st') None
  | TypeError => Threw st'
  end.

Definition handleSquareClick (st : State) (row col : Z) : Handled :=
  if truthyString (gameOver st) || thinking st
     || negb match turn st with WhiteTurn => true | BlackTurn => false end
  then Done st None
  else
    match getCell (board st) row col with
    | TypeError => Threw st
    | Ok piece =>
        match selected st with
        | Some sel =>
            let isValidMove :=
              existsb (fun m : Square => (m.1 =? row) && (m.2 =? col))
                      (validMoves st) in
            if isValidMove then
              match
                (let* fromPiece := getCell (board st) sel.1 sel.2 in
                 let* toPiece := getCell (board st) row col in
                 let line := notation fromPiece sel (row, col) toPiece in
                 let* newBoard := makeMove (board st) sel (row, col) in
                 Ok (line, newBoard))
              with
              | TypeError => Threw st
              | Ok (line, newBoard) =>
                  Done (setTurn BlackTurn
                          (setValidMoves []
                             (setSelected None
                                (setMoveHistory (fun prev => prev ++ [line])
                                   (setBoard newBoard st)))))
                       (Some newBoard)
              end
            else if whitePiece piece then select st row col
            else Done (setValidMoves [] (setSelected None st)) None
        | None =>
            if whitePiece piece then select st row col else Done st None
        end
    end.

Definition resetGame (st : State) : State :=
  setMoveHistory (fun _ => [])
    (setGameOver None
       (setTurn WhiteTurn
          (setValidMoves []
             (setSelected None
                (setBoard initialBoard st))))).

(** The callback [aiMove] passes to [setTimeout], with its setters. *)
Definition aiMoveCallback (st : State) (currentBoard : Board) : Handled :=
  match getAllMoves currentBoard true with
  | TypeError => Threw st
  | Ok [] =>
      Done (setThinking false (setGameOver (Some "Checkmate! You win!"%string) st))
           None
  | Ok ((first :: _) as moves) =>
      match
        (let* '(bestMove, _) := bestLoop currentBoard moves first NegInf in
         let '(fr, fc, tr, tc) := bestMove in
         let* piece := getCell currentBoard fr fc in
         let* captured := getCell currentBoard tr tc in
         let line := notation piece (fr, fc) (tr, tc) captured in
         let* newBoard := makeMove currentBoard (fr, fc) (tr, tc) in
         Ok (line, newBoard))
      with
      | TypeError => Threw st
      | Ok (line, newBoard) =>
          let st' :=
            setThinking false
              (setTurn WhiteTurn
                 (setMoveHistory (fun prev => prev ++ [line])
                    (setBoard newBoard st))) in
          match getAllMoves newBoard false with
          | TypeError => Threw st'
          | Ok [] => Done (setGameOver (Some "Checkmate! AI wins!"%string) st') None
          | Ok _ => Done st' None
          end
      end
  end.

(** A pending timer: the call [aiMove(newBoard)] that [handleSquareClick]
    schedules, or the callback that [aiMove] schedules. *)
Inductive Timer : Set :=
| CallAiMove (newBoard : Board)
| AiCallback (currentBoard : Board).

Definition timerBoard (t : Timer) : Board :=
  match t with CallAiMove b => b | AiCallback b => b end.

Record Machine : Set := mkMachine { state : State; timers : list Timer }.

Definition initialMachine : Machine := mkMachine initialState [].

(** What can happen next: a click on a square, a click on "New Game", or
    the [k]-th pending timer firing. *)
Inductive Event : Set :=
| Click (row col : Z)
| NewGame
| Fire (k : nat).

(** One event; the boolean tells whether the handler threw.  [aiMove]
    itself is [setThinking(true)] and a [setTimeout]. *)
Definition step (m : Machine) (e : Event) : Machine * bool :=
  match e with
  | Click row col =>
      match handleSquareClick (state m) row col with
      | Done st None => (mkMachine st (timers m), false)
      | Done st (Some newBoard) =>
          (mkMachine st (timers m ++ [CallAiMove newBoard]), false)
      | Threw st => (mkMachine st (timers m), true)
      end
  | NewGame => (mkMachine (resetGame (state m)) (timers m), false)
  | Fire k =>
      match timers m !! k with
      | None => (m, false)
      | Some (CallAiMove b) =>
          (mkMachine (setThinking true (state m))
                     (delete k (timers m) ++ [AiCallback b]), false)
      | Some (AiCallback b) =>
          match aiMoveCallback (state m) b with
          | Done st _ => (mkMachine st (delete k (timers m)), false)
          | Threw st => (mkMachine st (delete k (timers m)), true)
          end
      end
  end.

(** A run of events; the boolean tells whether some handler threw. *)
Fixpoint run (m : Machine) (events : list Event) : Machine * bool :=
  match events with
  | [] => (m, false)
  | e :: rest =>
      let '(m', threw) := step m e in
      let '(m'', threw') := run m' rest in
      (m'', threw || threw')
  end.

End UI.

(** ** Vocabulary for the component *)

(** A click on one of the 64 squares the board renders. *)
Definition onBoard (e : UI.Event) : Prop :=
  match e with
  | UI.Click row col => inRange row col
  | _ => True
  end.

(** The board is 8x8 and the selection and the highlighted squares lie on
    it. *)
Definition safeState (st : UI.State) : Prop :=
  wf8 (UI.board st)
  /\ Forall (fun sq : Square => inRange sq.1 sq.2) (UI.validMoves st)
  /\ (forall sq, UI.selected st = Some sq -> inRange sq.1 sq.2).

(** ... and every pending timer carries an 8x8 board. *)
Definition safeMachine (m : UI.Machine) : Prop :=
  safeState (UI.state m)
  /\ Forall (fun t => wf8 (UI.timerBoard t)) (UI.timers m).

(** ** Vocabulary for a game *)

(** Whether a piece belongs to the side. *)
Definition ownPiece (side : UI.Turn) (p : Piece) : bool :=
  match side with
  | UI.WhiteTurn => white p
  | UI.BlackTurn => negb (white p)
  end.

Definition opponent (side : UI.Turn) : UI.Turn :=
  match side with
  | UI.WhiteTurn => UI.BlackTurn
  | UI.BlackTurn => UI.WhiteTurn
  end.

(** [position side n board]: [board] arises from the initial position by
    [n] moves, White and Black in turn, each taking a piece of the side to
    move to a square that [getValidMoves] returns for it; [side] is to move
    next. *)
Inductive position : UI.Turn -> nat -> Board -> Prop :=
| position_start : position UI.WhiteTurn 0 initialBoard
| position_move side n board from to p moves newBoard :
    position side n board ->
    getCell board from.1 from.2 = Ok (Pc p) ->
    ownPiece side p = true ->
    getValidMoves board from.1 from.2 = Ok moves ->
    In to moves ->
    makeMove board from to = Ok newBoard ->
    position (opponent side) (S n) newBoard.

(** The player clicks on the board, and leaves "New Game" alone while a
    reply of the AI is pending. *)
Fixpoint patient (m : UI.Machine) (events : list UI.Event) : Prop :=
  match events with
  | [] => True
  | e :: rest =>
      onBoard e
      /\ (e = UI.NewGame -> UI.timers m = [])
      /\ patient (UI.step m e).1 rest
  end.

(** The display agrees with a game: the board is a position of the side
    whose turn is shown, after as many moves as the history has lines; a
    selected square holds a white piece and the highlighted squares are its
    moves; at most one reply is pending, for the board on display, and then
    it is Black's turn and nothing is selected. *)
Definition coherent (m : UI.Machine) : Prop :=
  let st := UI.state m in
  position (UI.turn st) (length (UI.moveHistory st)) (UI.board st)
  /\ (forall sq, UI.selected st = Some sq ->
        exists p, getCell (UI.board st) sq.1 sq.2 = Ok (Pc p)
                  /\ white p = true
                  /\ getValidMoves (UI.board st) sq.1 sq.2
                     = Ok (UI.validMoves st))
  /\ (UI.timers m = []
      \/ exists t, UI.timers m = [t]
                   /\ UI.timerBoard t = UI.board st
                   /\ UI.turn st = UI.BlackTurn
                   /\ UI.selected st = None).

(** * Properties *)

(** ** Well-formed boards and squares *)

Example pawn_e2 : getValidMoves initialBoard 6 4 = Ok [(5, 4); (4, 4)].
Proof. reflexivity. Qed.


Lemma inRangeb_spec r c : inRangeb r c = true <-> inRange r c.
Proof. unfold inRangeb, inRange. rewrite !andb_true_iff, !Z.leb_le. tauto. Qed.

Lemma inRangeb_false r c : inRangeb r c = false <-> ~ inRange r c.
Proof. rewrite <- inRangeb_spec. destruct (inRangeb r c); intuition congruence. Qed.

Lemma isWhite_Pc p : isWhite (Pc p) = Ok (white p).
Proof. reflexivity. Qed.

Lemma isBlack_Pc p : isBlack (Pc p) = Ok (negb (white p)).
Proof. by destruct p. Qed.

Lemma getCell_Opt board r c v :
  getCell board r c = Ok v -> getCellOpt board r c = v.
Proof.
  unfold getCell, getCellOpt. destruct (getRow board r); congruence.
Qed.

Lemma wfRow_get row c :
  wfRow row = true ->
  if inRangeb 0 c then Row.get row c <> Undefined else Row.get row c = Undefined.
Proof.
  unfold wfRow. rewrite !andb_true_iff, Nat.eqb_eq, forallb_forall, bool_decide_eq_true.
  intros [[Hlen Hall] Hprops]. unfold Row.get, Row.isIndex.
  destruct (inRangeb 0 c) eqn:Hc.
  - apply inRangeb_spec in Hc as [_ Hc].
    replace ((0 <=? c) && (c <? 2 ^ 32 - 1)) with true
      by (symmetry; apply andb_true_iff; split; [apply Z.leb_le|apply Z.ltb_lt]; lia).
    destruct (Row.elems row !! Z.to_nat c) as [v|] eqn:Hv.
    + simpl. apply list_elem_of_lookup_2, list_elem_of_In, Hall in Hv.
      apply negb_true_iff, bool_decide_eq_false in Hv. exact Hv.
    + apply lookup_ge_None in Hv. lia.
  - apply inRangeb_false in Hc. rewrite Hprops.
    destruct ((0 <=? c) && (c <? 2 ^ 32 - 1)) eqn:Hi; [|reflexivity].
    apply andb_true_iff in Hi as [Hi _]. apply Z.leb_le in Hi.
    rewrite (proj2 (lookup_ge_None _ _)); [reflexivity|].
    unfold inRange in Hc. lia.
Qed.

Lemma wf8_getRow board r :
  wf8 board ->
  if inRangeb r 0 then exists row, getRow board r = Some row /\ wfRow row = true
  else getRow board r = None.
Proof.
  unfold wf8, wf8b. rewrite andb_true_iff, Nat.eqb_eq, forallb_forall.
  intros [Hlen Hall]. unfold getRow.
  destruct (inRangeb r 0) eqn:Hr.
  - apply inRangeb_spec in Hr as [Hr _].
    replace (0 <=? r) with true by (symmetry; apply Z.leb_le; lia).
    destruct (board !! Z.to_nat r) as [row|] eqn:Hrow.
    + exists row. split; [reflexivity|].
      apply Hall, list_elem_of_In. eapply list_elem_of_lookup_2, Hrow.
    + apply lookup_ge_None in Hrow. lia.
  - apply inRangeb_false in Hr. destruct (0 <=? r) eqn:H0; [|reflexivity].
    apply Z.leb_le in H0. apply lookup_ge_None. unfold inRange in Hr. lia.
Qed.

(** On an 8x8 board a read inside the board yields a piece or [null]. *)
Lemma wf8_inside board r c :
  wf8 board -> inRange r c ->
  exists v, getCell board r c = Ok v /\ getCellOpt board r c = v /\ v <> Undefined.
Proof.
  intros Hwf [Hr Hc]. pose proof (wf8_getRow board r Hwf) as H.
  rewrite (proj2 (inRangeb_spec r 0)) in H by (unfold inRange; lia).
  destruct H as (row & Hrow & Hwr). pose proof (wfRow_get row c Hwr) as Hg.
  rewrite (proj2 (inRangeb_spec 0 c)) in Hg by (unfold inRange; lia).
  exists (Row.get row c). unfold getCell, getCellOpt. rewrite Hrow. auto.
Qed.

(** ... and a guarded read outside the board yields [undefined]. *)
Lemma wf8_outside board r c :
  wf8 board -> ~ inRange r c -> getCellOpt board r c = Undefined.
Proof.
  intros Hwf Hout. pose proof (wf8_getRow board r Hwf) as H.
  unfold getCellOpt. destruct (inRangeb r 0) eqn:Hr.
  - destruct H as (row & -> & Hwr). pose proof (wfRow_get row c Hwr) as Hg.
    destruct (inRangeb 0 c) eqn:Hc; [|exact Hg].
    apply inRangeb_spec in Hr, Hc. unfold inRange in *. lia.
  - by rewrite H.
Qed.

Lemma wf8_defined board r c :
  wf8 board -> getCellOpt board r c <> Undefined -> inRange r c.
Proof.
  intros Hwf Hd. destruct (inRangeb r c) eqn:H; [by apply inRangeb_spec|].
  apply inRangeb_false in H. by rewrite wf8_outside in Hd.
Qed.

(** ** What the closures of [getValidMoves] append *)


Lemma forEach_app {A S} (l1 l2 : list A) (f : A -> S -> result S) s :
  forEach (l1 ++ l2) f s = (let* s' := forEach l1 f s in forEach l2 f s').
Proof.
  revert s. induction l1 as [|a l1 IH]; intros s; simpl; [reflexivity|].
  destruct (f a s); simpl; auto.
Qed.

Lemma range_S lo n : range lo (S n) = lo :: range (lo + 1) n.
Proof.
  unfold range. simpl. f_equal; [lia|].
  rewrite <- seq_shift, map_map. apply map_ext. intros; lia.
Qed.

Lemma in_range i lo n : In i (range lo n) <-> lo <= i < lo + Z.of_nat n.
Proof.
  unfold range. rewrite in_map_iff. split.
  - intros (k & <- & Hk). apply in_seq in Hk. lia.
  - intros H. exists (Z.to_nat (i - lo)). split; [lia|]. apply in_seq. lia.
Qed.

Section Closures.

Variable board : Board.
Hypothesis Hwf : wf8 board.
Variables row col : Z.
Variable w : bool.


Lemma in_dest sq r c : In sq (dest board w r c) <-> sq = (r, c) /\ legalDest board w r c.
Proof.
  unfold dest, legalDest. destruct (getCellOpt board r c) as [| |t]; simpl.
  - split; [tauto|]. intros [_ [H|(t & H & _)]]; discriminate.
  - split; [intros [<-|[]]; auto|]. intros [-> _]; auto.
  - destruct (eqb w (white t)) eqn:E; simpl.
    + apply eqb_prop in E. split; [tauto|].
      intros [_ [H|(t' & H & Hne)]]; [discriminate|].
      injection H as <-. congruence.
    + apply eqb_false_iff in E. split.
      * intros [<-|[]]. split; [reflexivity|]. right. exists t. split; congruence.
      * intros [-> _]; auto.
Qed.

Lemma addMove_wf8 r c moves :
  addMove board w r c moves
  = Ok (moves ++ dest board w r c, isNull (getCellOpt board r c)).
Proof.
  unfold addMove, dest. destruct (inRangeb r c) eqn:Hin.
  - apply inRangeb_spec in Hin.
    destruct (wf8_inside board r c Hwf Hin) as (v & Hv & Hv' & Hd).
    destruct Hin as [Hr Hc].
    replace ((r <? 0) || (r >? 7) || (c <? 0) || (c >? 7)) with false
      by (symmetry; rewrite !orb_false_iff, !Z.ltb_ge, !Z.gtb_ltb, !Z.ltb_ge; lia).
    rewrite Hv, Hv'. simpl. destruct v as [| |t]; simpl; [done| |].
    + reflexivity.
    + fold (white t). destruct (negb (eqb w (white t))); [reflexivity|].
      by rewrite app_nil_r.
  - apply inRangeb_false in Hin. rewrite (wf8_outside board r c Hwf Hin).
    replace ((r <? 0) || (r >? 7) || (c <? 0) || (c >? 7)) with true.
    + by rewrite app_nil_r.
    + symmetry. rewrite !orb_true_iff, !Z.gtb_ltb, !Z.ltb_lt.
      unfold inRange in Hin. lia.
Qed.

Lemma addStep_wf8 d moves :
  addStep board row col w d moves = Ok (moves ++ dest board w (row + d.1) (col + d.2)).
Proof. unfold addStep. by rewrite addMove_wf8. Qed.


Lemma addSlideLoop_wf8 dr dc idx moves :
  addSlideLoop board row col w dr dc idx moves
  = Ok (moves ++ ray board row col w dr dc idx).
Proof.
  revert moves. induction idx as [|i rest IH]; intros moves; simpl.
  - by rewrite app_nil_r.
  - rewrite addMove_wf8. unfold dest. simpl.
    destruct (getCellOpt board (row + dr * i) (col + dc * i)) as [| |t]; simpl.
    + by rewrite app_nil_r.
    + rewrite IH, <- app_assoc. reflexivity.
    + reflexivity.
Qed.

(** Along one direction: a square is pushed exactly when every square
    before it is empty and it is a legal destination. *)
Lemma in_ray sq dr dc lo n :
  In sq (ray board row col w dr dc (range lo n)) <->
  exists i, lo <= i < lo + Z.of_nat n
    /\ sq = (row + dr * i, col + dc * i)
    /\ (forall j, lo <= j < i ->
          getCellOpt board (row + dr * j) (col + dc * j) = Null)
    /\ legalDest board w (row + dr * i) (col + dc * i).
Proof.
  revert lo. induction n as [|n IH]; intros lo.
  - simpl. split; [tauto|]. intros (i & ? & _). lia.
  - rewrite range_S. simpl.
    pose proof (in_dest sq (row + dr * lo) (col + dc * lo)) as Hd.
    unfold dest in Hd. split.
    + intros Hin.
      assert (In sq (dest board w (row + dr * lo) (col + dc * lo)) \/
              getCellOpt board (row + dr * lo) (col + dc * lo) = Null
              /\ In sq (ray board row col w dr dc (range (lo + 1) n))) as [H|[H0 H]].
      { unfold dest.
        destruct (getCellOpt board (row + dr * lo) (col + dc * lo)); simpl in *;
          tauto. }
      * apply in_dest in H as [-> Hl]. exists lo. repeat split; [lia..| |exact Hl].
        intros j Hj; lia.
      * apply IH in H as (i & Hi & -> & Hbefore & Hl).
        exists i. repeat split; [lia..| |exact Hl].
        intros j Hj. destruct (Z.eq_dec j lo) as [->|]; [exact H0|].
        apply Hbefore. lia.
    + intros (i & Hi & -> & Hbefore & Hl).
      destruct (Z.eq_dec i lo) as [->|Hne].
      * assert (In (row + dr * lo, col + dc * lo)
                  (dest board w (row + dr * lo) (col + dc * lo))) as H
          by (apply in_dest; auto).
        unfold dest in H.
        destruct (getCellOpt board (row + dr * lo) (col + dc * lo)); simpl in *;
          tauto.
      * rewrite (Hbefore lo) by lia. right. apply IH.
        exists i. repeat split; [lia..| |exact Hl].
        intros j Hj. apply Hbefore. lia.
Qed.

Lemma addSlide_wf8 d moves :
  addSlide board row col w d moves
  = Ok (moves ++ ray board row col w d.1 d.2 (range 1 7)).
Proof. apply addSlideLoop_wf8. Qed.

Lemma forEach_pushes {A} (f : A -> list Square -> result (list Square))
  (g : A -> list Square) (l : list A) moves :
  (forall a moves, f a moves = Ok (moves ++ g a)) ->
  forEach l f moves = Ok (moves ++ concat (map g l)).
Proof.
  intros Hf. revert moves. induction l as [|a l IH]; intros moves; simpl.
  - by rewrite app_nil_r.
  - rewrite Hf. simpl. rewrite IH, <- app_assoc. reflexivity.
Qed.

End Closures.

(** ** The list [getValidMoves] returns, kind by kind *)

Section Generated.

Variable board : Board.
Variables row col : Z.
Variable w : bool.

Lemma pawnCapture_pushes dc moves :
  pawnCapture board row col w (pawnDir w) dc moves
  = Ok (moves ++ pawnTakes board row col w dc).
Proof.
  unfold pawnCapture, pawnTakes.
  destruct (getCellOpt board (row + pawnDir w) (col + dc)) as [| |t]; simpl;
    rewrite ?app_nil_r; try reflexivity.
  fold (white t). destruct (negb (eqb w (white t))); by rewrite ?app_nil_r.
Qed.

Lemma pawnMoves_pushes moves :
  pawnMoves board row col w moves
  = Ok (moves ++ pawnForward board row col w
          ++ pawnTakes board row col w (-1) ++ pawnTakes board row col w 1).
Proof.
  unfold pawnMoves. fold (pawnDir w). fold (pawnStart w). simpl.
  rewrite !pawnCapture_pushes. simpl. rewrite pawnCapture_pushes. f_equal.
  unfold pawnForward.
  destruct (isNull (getCellOpt board (row + pawnDir w) col)).
  - destruct ((row =? pawnStart w)
              && isNull (getCellOpt board (row + 2 * pawnDir w) col));
      by rewrite <- !app_assoc.
  - by rewrite <- !app_assoc.
Qed.

Lemma in_pawnTakes sq dc :
  In sq (pawnTakes board row col w dc) <->
  sq = (row + pawnDir w, col + dc)
  /\ exists t, getCellOpt board (row + pawnDir w) (col + dc) = Pc t /\ white t <> w.
Proof.
  unfold pawnTakes.
  destruct (getCellOpt board (row + pawnDir w) (col + dc)) as [| |t]; simpl.
  - split; [tauto|]. intros [_ (t & H & _)]. discriminate.
  - split; [tauto|]. intros [_ (t & H & _)]. discriminate.
  - destruct (eqb w (white t)) eqn:E; simpl.
    + apply eqb_prop in E. split; [tauto|].
      intros [_ (t' & H & Hne)]. injection H as <-. congruence.
    + apply eqb_false_iff in E. split.
      * intros [<-|[]]. split; [reflexivity|]. exists t. split; congruence.
      * intros [-> _]. auto.
Qed.

Lemma in_pawnForward sq :
  In sq (pawnForward board row col w) <->
  (sq = (row + pawnDir w, col) /\ getCellOpt board (row + pawnDir w) col = Null)
  \/ (sq = (row + 2 * pawnDir w, col) /\ row = pawnStart w
      /\ getCellOpt board (row + pawnDir w) col = Null
      /\ getCellOpt board (row + 2 * pawnDir w) col = Null).
Proof.
  assert (Hn : forall v, isNull v = true <-> v = Null)
    by (intros []; simpl; split; congruence).
  unfold pawnForward.
  destruct (isNull (getCellOpt board (row + pawnDir w) col)) eqn:E1.
  - apply Hn in E1.
    destruct ((row =? pawnStart w)
              && isNull (getCellOpt board (row + 2 * pawnDir w) col)) eqn:E2.
    + apply andb_true_iff in E2 as [E2 E3]. apply Z.eqb_eq in E2.
      apply Hn in E3. simpl. intuition.
    + simpl. split; [intuition|]. intros [[-> _]|(-> & E2' & _ & E3)]; [auto|].
      apply Z.eqb_eq in E2'. apply Hn in E3. rewrite E2', E3 in E2. discriminate.
  - simpl. split; [tauto|].
    assert (getCellOpt board (row + pawnDir w) col <> Null)
      by (intros H; apply Hn in H; congruence).
    tauto.
Qed.


End Generated.

Lemma getValidMoves_wf8 board row col p :
  wf8 board ->
  getCell board row col = Ok (Pc p) ->
  getValidMoves board row col = Ok (generated board row col (white p) p).
Proof.
  intros Hwf Hp. unfold getValidMoves, generated. rewrite Hp.
  cbn [bind isWhite]. fold (white p).
  destruct (toLowerCase p) eqn:Hk; try (destruct p; discriminate).
  - apply (forEach_pushes _ _ kingOffsets []). intros. by apply addStep_wf8.
  - apply (forEach_pushes _ _ queenDirs []). intros. by apply addSlide_wf8.
  - apply (forEach_pushes _ _ rookDirs []). intros. by apply addSlide_wf8.
  - apply (forEach_pushes _ _ bishopDirs []). intros. by apply addSlide_wf8.
  - apply (forEach_pushes _ _ knightOffsets []). intros. by apply addStep_wf8.
  - apply (pawnMoves_pushes board row col (white p) []).
Qed.

Lemma in_concat_map {A B} (g : A -> list B) (l : list A) (b : B) :
  In b (concat (map g l)) <-> exists a, In a l /\ In b (g a).
Proof.
  rewrite in_concat. split.
  - intros (x & Hx & Hb). apply in_map_iff in Hx as (a & <- & Ha). eauto.
  - intros (a & Ha & Hb). exists (g a). split; [apply in_map, Ha|exact Hb].
Qed.

(** Every generated square is a legal destination for the moving side. *)
Lemma generated_legal board row col w p sq :
  wf8 board -> In sq (generated board row col w p) ->
  legalDest board w sq.1 sq.2.
Proof.
  intros Hwf. unfold generated.
  assert (Hstep : forall l,
    In sq (concat (map (fun d => dest board w (row + d.1) (col + d.2)) l)) ->
    legalDest board w sq.1 sq.2).
  { intros l H. apply in_concat_map in H as (d & _ & H).
    apply in_dest in H as [-> H]. exact H. }
  assert (Hslide : forall l,
    In sq (concat (map (fun d => ray board row col w d.1 d.2 (range 1 7)) l)) ->
    legalDest board w sq.1 sq.2).
  { intros l H. apply in_concat_map in H as (d & _ & H).
    apply in_ray in H as (i & _ & -> & _ & H). exact H. }
  destruct (toLowerCase p); try (intros []); eauto.
  rewrite !in_app_iff, in_pawnForward, !in_pawnTakes.
  intros [[[-> H]|(-> & _ & _ & H)]|[(-> & t & H & Ht)|(-> & t & H & Ht)]];
    simpl; unfold legalDest; eauto.
Qed.

(** ** Destinations are on the board and never friendly *)

Lemma legalDest_inRange board w r c :
  wf8 board -> legalDest board w r c -> inRange r c.
Proof.
  intros Hwf Hl. apply (wf8_defined board r c Hwf).
  destruct Hl as [H|(t & H & _)]; rewrite H; discriminate.
Qed.

(** C1: on an 8x8 board and for a square inside it, [getValidMoves]
    returns normally, and every destination it returns lies inside the board
    and does not hold a piece of the side of the piece that moves. *)
Theorem getValidMoves_on_board_not_friendly board row col :
  wf8 board -> inRange row col ->
  exists moves,
    getValidMoves board row col = Ok moves
    /\ forall r c, In (r, c) moves ->
         inRange r c
         /\ forall p t,
              getCell board row col = Ok (Pc p) ->
              getCell board r c = Ok (Pc t) ->
              white t <> white p.
Proof.
  intros Hwf Hin.
  destruct (wf8_inside board row col Hwf Hin) as (v & Hv & _ & Hd).
  destruct v as [| |p]; [done| |].
  - exists []. split; [unfold getValidMoves; by rewrite Hv|]. intros r c [].
  - exists (generated board row col (white p) p).
    split; [by apply getValidMoves_wf8|].
    intros r c Hrc. apply generated_legal in Hrc; [|exact Hwf]. simpl in Hrc.
    split; [eapply legalDest_inRange; eauto|].
    intros p' t Hp' Ht. rewrite Hv in Hp'. injection Hp' as <-.
    apply getCell_Opt in Ht.
    destruct Hrc as [H|(t' & H & Hne)]; rewrite H in Ht; [discriminate|].
    injection Ht as <-. exact Hne.
Qed.

Lemma getValidMoves_on_board_not_friendly_witness :
  exists moves,
    getValidMoves initialBoard 7 1 = Ok moves
    /\ forall r c, In (r, c) moves ->
         inRange r c
         /\ forall p t,
              getCell initialBoard 7 1 = Ok (Pc p) ->
              getCell initialBoard r c = Ok (Pc t) ->
              white t <> white p.
Proof.
  apply (getValidMoves_on_board_not_friendly initialBoard 7 1);
    [reflexivity | unfold inRange; lia].
Defined.

(** ** Sliding pieces *)

Lemma slideDirs_queen p d : In d (slideDirs p) -> In d queenDirs.
Proof.
  unfold slideDirs, bishopDirs, rookDirs, queenDirs.
  destruct (toLowerCase p); simpl; tauto.
Qed.

Lemma generated_slide board row col w p d :
  In d (slideDirs p) ->
  generated board row col w p
  = concat (map (fun d => ray board row col w d.1 d.2 (range 1 7)) (slideDirs p)).
Proof.
  unfold slideDirs, generated. destruct (toLowerCase p); simpl; tauto.
Qed.

(** Two rays from one square share no square. *)
Lemma rays_disjoint d d' i j :
  In d queenDirs -> In d' queenDirs -> 1 <= i -> 1 <= j ->
  d.1 * i = d'.1 * j -> d.2 * i = d'.2 * j -> d = d' /\ i = j.
Proof.
  unfold queenDirs. simpl. intros Hd Hd' Hi Hj.
  repeat (destruct Hd as [<-|Hd]; [|]); try contradiction;
    repeat (destruct Hd' as [<-|Hd']; [|]); try contradiction;
    simpl; intros H1 H2; (split; [try reflexivity; exfalso|]); lia.
Qed.

(** A ray leaves an 8x8 board within seven steps. *)
Lemma ray_length d row col i :
  In d queenDirs -> inRange row col -> 1 <= i ->
  inRange (row + d.1 * i) (col + d.2 * i) -> i <= 7.
Proof.
  unfold queenDirs, inRange. simpl. intros Hd.
  repeat (destruct Hd as [<-|Hd]; [simpl; lia|]). contradiction.
Qed.

(** C2: for a bishop, a rook or a queen and one of its directions, let the
    first occupied square of that direction be [i0] steps away.  No square
    further along the direction is returned, and the occupied square itself
    is returned exactly when its piece belongs to the other side. *)
Theorem slide_stops_at_first_piece board row col p dr dc i0 t :
  wf8 board ->
  getCell board row col = Ok (Pc p) ->
  In (dr, dc) (slideDirs p) ->
  1 <= i0 ->
  (forall j, 1 <= j < i0 ->
     getCellOpt board (row + dr * j) (col + dc * j) = Null) ->
  getCellOpt board (row + dr * i0) (col + dc * i0) = Pc t ->
  exists moves,
    getValidMoves board row col = Ok moves
    /\ (forall i, i0 < i -> ~ In (row + dr * i, col + dc * i) moves)
    /\ (In (row + dr * i0, col + dc * i0) moves <-> white t <> white p).
Proof.
  intros Hwf Hp Hd Hi0 Hbefore Hocc.
  exists (generated board row col (white p) p).
  split; [by apply getValidMoves_wf8|].
  rewrite (generated_slide _ _ _ _ _ _ Hd).
  assert (Hin : inRange row col).
  { apply (wf8_defined board row col Hwf). apply getCell_Opt in Hp.
    rewrite Hp. discriminate. }
  assert (Hkey : forall i, 1 <= i ->
    In (row + dr * i, col + dc * i)
       (concat (map (fun d => ray board row col (white p) d.1 d.2 (range 1 7))
                    (slideDirs p))) ->
    (forall j, 1 <= j < i ->
       getCellOpt board (row + dr * j) (col + dc * j) = Null)
    /\ legalDest board (white p) (row + dr * i) (col + dc * i)).
  { intros i Hi H. apply in_concat_map in H as (d' & Hd' & H).
    apply in_ray in H as (j & Hj & Heq & Hb & Hl).
    injection Heq as H1 H2.
    destruct (rays_disjoint (dr, dc) d' i j) as [<- <-];
      [by eapply slideDirs_queen|by eapply slideDirs_queen|lia|lia
      |simpl; lia|simpl; lia|].
    simpl in *. split; [intros k Hk; apply Hb; lia|exact Hl]. }
  split.
  - intros i Hi H. apply Hkey in H as [Hb _]; [|lia].
    rewrite (Hb i0) in Hocc by lia. discriminate.
  - split.
    + intros H. apply Hkey in H as [_ [H|(t' & H & Hne)]]; [| |lia].
      * rewrite H in Hocc. discriminate.
      * rewrite H in Hocc. by injection Hocc as <-.
    + intros Hne. apply in_concat_map. exists (dr, dc). split; [exact Hd|].
      apply in_ray. exists i0. simpl. repeat split; try lia.
      * assert (i0 <= 7); [|lia].
        apply (ray_length (dr, dc) row col i0);
          [by eapply slideDirs_queen|exact Hin|lia|].
        apply (wf8_defined board _ _ Hwf). simpl. rewrite Hocc. discriminate.
      * exact Hbefore.
      * right. eauto.
Qed.

Lemma slide_stops_at_first_piece_witness :
  exists moves,
    getValidMoves sparseBoard 4 0 = Ok moves
    /\ (forall i, 3 < i -> ~ In (4 + 0 * i, 0 + 1 * i) moves)
    /\ (In (4 + 0 * 3, 0 + 1 * 3) moves <-> white bp <> white wR).
Proof.
  apply (slide_stops_at_first_piece sparseBoard 4 0 wR 0 1 3 bp).
  - reflexivity.
  - reflexivity.
  - simpl. tauto.
  - lia.
  - intros j Hj. assert (j = 1 \/ j = 2) as [-> | ->] by lia; reflexivity.
  - reflexivity.
Defined.

(** ** Pawns *)

(** C3: for a pawn, [getValidMoves] returns exactly the square one step
    ahead when it is on the board and empty (it reads [null]), the square two
    steps ahead when the pawn stands on its starting row and both squares
    ahead are empty, and each of the two squares diagonally ahead that holds
    a piece of the other side; in particular a diagonal square that is empty
    or friendly is not returned. *)
Theorem pawn_moves_exact board row col p :
  getCell board row col = Ok (Pc p) ->
  toLowerCase p = bp ->
  let dir := pawnDir (white p) in
  let startRow := pawnStart (white p) in
  exists moves,
    getValidMoves board row col = Ok moves
    /\ (forall sq, In sq moves <->
          (sq = (row + dir, col)
           /\ getCellOpt board (row + dir) col = Null)
          \/ (sq = (row + 2 * dir, col)
              /\ row = startRow
              /\ getCellOpt board (row + dir) col = Null
              /\ getCellOpt board (row + 2 * dir) col = Null)
          \/ (exists dc, (dc = -1 \/ dc = 1)
              /\ sq = (row + dir, col + dc)
              /\ exists t, getCellOpt board (row + dir) (col + dc) = Pc t
                           /\ white t <> white p))
    /\ (forall dc, dc = -1 \/ dc = 1 ->
          In (row + dir, col + dc) moves ->
          exists t, getCellOpt board (row + dir) (col + dc) = Pc t
                    /\ white t <> white p).
Proof.
  intros Hp Hk dir startRow.
  exists (pawnForward board row col (white p)
          ++ pawnTakes board row col (white p) (-1)
          ++ pawnTakes board row col (white p) 1).
  assert (Hchar : forall sq,
    In sq (pawnForward board row col (white p)
           ++ pawnTakes board row col (white p) (-1)
           ++ pawnTakes board row col (white p) 1) <->
    (sq = (row + dir, col) /\ getCellOpt board (row + dir) col = Null)
    \/ (sq = (row + 2 * dir, col) /\ row = startRow
        /\ getCellOpt board (row + dir) col = Null
        /\ getCellOpt board (row + 2 * dir) col = Null)
    \/ (exists dc, (dc = -1 \/ dc = 1)
        /\ sq = (row + dir, col + dc)
        /\ exists t, getCellOpt board (row + dir) (col + dc) = Pc t
                     /\ white t <> white p)).
  { intros sq. rewrite !in_app_iff, in_pawnForward, !in_pawnTakes.
    fold dir startRow. split.
    - intros [[H|H]|[[-> H]|[-> H]]]; [tauto|tauto| |].
      + right; right. exists (-1). auto.
      + right; right. exists 1. auto.
    - intros [H|[H|(dc & [->| ->] & -> & H)]]; [tauto|tauto| |].
      + right; left. auto.
      + right; right. auto. }
  split; [|split; [exact Hchar|]].
  - unfold getValidMoves. rewrite Hp. cbn [bind isWhite]. rewrite Hk.
    fold (white p). apply (pawnMoves_pushes board row col (white p) []).
  - intros dc Hdc H. apply Hchar in H as [[H _]|[[H _]|(dc' & _ & H & Ht)]].
    + injection H as H. lia.
    + injection H as _ H. lia.
    + injection H as H. assert (dc' = dc) as -> by lia. exact Ht.
Qed.

Lemma pawn_moves_exact_witness :
  exists moves,
    getValidMoves initialBoard 6 4 = Ok moves
    /\ (forall sq, In sq moves <->
          (sq = (6 + -1, 4)
           /\ getCellOpt initialBoard (6 + -1) 4 = Null)
          \/ (sq = (6 + 2 * -1, 4)
              /\ 6 = 6
              /\ getCellOpt initialBoard (6 + -1) 4 = Null
              /\ getCellOpt initialBoard (6 + 2 * -1) 4 = Null)
          \/ (exists dc, (dc = -1 \/ dc = 1)
              /\ sq = (6 + -1, 4 + dc)
              /\ exists t, getCellOpt initialBoard (6 + -1) (4 + dc) = Pc t
                           /\ white t <> white wP))
    /\ (forall dc, dc = -1 \/ dc = 1 ->
          In (6 + -1, 4 + dc) moves ->
          exists t, getCellOpt initialBoard (6 + -1) (4 + dc) = Pc t
                    /\ white t <> white wP).
Proof.
  apply (pawn_moves_exact initialBoard 6 4 wP); reflexivity.
Defined.

(** ** Reading after writing *)

Lemma Row_get_set row c v c' :
  Row.get (Row.set row c v) c' = if c =? c' then v else Row.get row c'.
Proof.
  unfold Row.get, Row.set.
  destruct (Row.isIndex c) eqn:Hc, (Row.isIndex c') eqn:Hc';
    unfold Row.isIndex in Hc, Hc';
    rewrite ?andb_true_iff, ?andb_false_iff, ?Z.leb_le, ?Z.ltb_lt,
            ?Z.leb_gt, ?Z.ltb_ge in Hc, Hc'.
  - destruct (Z.to_nat c <? length (Row.elems row))%nat eqn:Hlen; simpl.
    + apply Nat.ltb_lt in Hlen. destruct (Z.eqb_spec c c') as [<-|Hne].
      * by rewrite list_lookup_insert_eq.
      * rewrite list_lookup_insert_ne by lia. reflexivity.
    + apply Nat.ltb_ge in Hlen.
      destruct (Nat.lt_ge_cases (Z.to_nat c') (length (Row.elems row))) as [Hlt|Hge].
      * rewrite lookup_app_l by exact Hlt.
        destruct (Z.eqb_spec c c') as [<-|Hne]; [lia|reflexivity].
      * rewrite lookup_app_r by exact Hge.
        rewrite (proj2 (lookup_ge_None (Row.elems row) _)) by exact Hge.
        destruct (Z.eqb_spec c c') as [<-|Hne].
        -- rewrite lookup_app_r by (rewrite length_replicate; lia).
           rewrite length_replicate, Nat.sub_diag. reflexivity.
        -- destruct (Nat.lt_ge_cases (Z.to_nat c' - length (Row.elems row))
                       (Z.to_nat c - length (Row.elems row))) as [Hlt|Hge'].
           ++ rewrite lookup_app_l by (by rewrite length_replicate).
              by rewrite lookup_replicate_2.
           ++ rewrite lookup_app_r by (by rewrite length_replicate).
              rewrite length_replicate.
              rewrite (proj2 (lookup_ge_None _ _)); [reflexivity|simpl; lia].
  - destruct (Z.to_nat c <? length (Row.elems row))%nat; simpl;
      destruct (Z.eqb_spec c c') as [<-|Hne]; try reflexivity; lia.
  - simpl. destruct (Z.eqb_spec c c') as [<-|Hne]; [lia|reflexivity].
  - simpl. rewrite (Z.eqb_sym c' c). reflexivity.
Qed.

Lemma getRow_Some board r row :
  getRow board r = Some row -> 0 <= r /\ board !! Z.to_nat r = Some row.
Proof.
  unfold getRow. destruct (Z.leb_spec 0 r); [auto|discriminate].
Qed.

Lemma getRow_insert board r row row' r' :
  getRow board r = Some row ->
  getRow (<[Z.to_nat r := row']> board) r'
  = if r =? r' then Some row' else getRow board r'.
Proof.
  intros Hrow. apply getRow_Some in Hrow as [Hr Hrow]. unfold getRow.
  destruct (Z.eqb_spec r r') as [<-|Hne].
  - replace (0 <=? r) with true by (symmetry; by apply Z.leb_le).
    apply list_lookup_insert_eq. by eapply lookup_lt_Some.
  - destruct (Z.leb_spec 0 r'); [|reflexivity].
    rewrite list_lookup_insert_ne by lia. reflexivity.
Qed.

(** A write changes the square written and no other. *)
Lemma getCell_setCell board r c v board' r' c' :
  setCell board r c v = Ok board' ->
  getCell board' r' c'
  = if (r =? r') && (c =? c') then Ok v else getCell board r' c'.
Proof.
  unfold setCell. destruct (getRow board r) as [row|] eqn:Hrow; [|discriminate].
  intros [= <-]. unfold getCell. rewrite (getRow_insert _ _ _ _ _ Hrow).
  destruct (Z.eqb_spec r r') as [<-|Hne]; simpl; [|reflexivity].
  rewrite Hrow, Row_get_set. by destruct (c =? c').
Qed.

Lemma spread_wfRow row : wfRow row = true -> Row.spread row = row.
Proof.
  unfold wfRow. rewrite !andb_true_iff, bool_decide_eq_true.
  intros [_ Hp]. destruct row as [e p]. simpl in *. by subst.
Qed.

Lemma spread_wf8 board : wf8 board -> map Row.spread board = board.
Proof.
  unfold wf8, wf8b. rewrite andb_true_iff, forallb_forall. intros [_ Hall].
  rewrite <- (map_id board) at 2. apply map_ext_in.
  intros row Hrow. by apply spread_wfRow, Hall.
Qed.

Lemma set_wfRow row c v :
  wfRow row = true -> inRange 0 c -> v <> Undefined ->
  wfRow (Row.set row c v) = true.
Proof.
  unfold wfRow. rewrite !andb_true_iff, !Nat.eqb_eq, !forallb_forall.
  intros [[Hlen Hall] Hp] [_ Hc] Hv. unfold Row.set, Row.isIndex.
  replace ((0 <=? c) && (c <? 2 ^ 32 - 1)) with true
    by (symmetry; apply andb_true_iff; split; [apply Z.leb_le|apply Z.ltb_lt]; lia).
  replace (Z.to_nat c <? length (Row.elems row))%nat with true
    by (symmetry; apply Nat.ltb_lt; lia).
  simpl. repeat split; [by rewrite length_insert| |exact Hp].
  intros x Hx. apply list_elem_of_In, list_elem_of_lookup in Hx as [i Hi].
  destruct (decide (Z.to_nat c = i)) as [<-|Hne].
  - rewrite list_lookup_insert_eq in Hi by lia. injection Hi as <-.
    by apply negb_true_iff, bool_decide_eq_false.
  - rewrite list_lookup_insert_ne in Hi by exact Hne.
    apply Hall, list_elem_of_In. eapply list_elem_of_lookup_2, Hi.
Qed.

Lemma setCell_wf8 board r c v :
  wf8 board -> inRange r c -> v <> Undefined ->
  exists board', setCell board r c v = Ok board' /\ wf8 board'.
Proof.
  intros Hwf [Hr Hc] Hv. pose proof (wf8_getRow board r Hwf) as H.
  rewrite (proj2 (inRangeb_spec r 0)) in H by (unfold inRange; lia).
  destruct H as (row & Hrow & Hwr). unfold setCell. rewrite Hrow.
  eexists. split; [reflexivity|].
  unfold wf8, wf8b in *. rewrite andb_true_iff, Nat.eqb_eq, forallb_forall in *.
  destruct Hwf as [Hlen Hall]. split; [by rewrite length_insert|].
  intros x Hx. apply list_elem_of_In, list_elem_of_lookup in Hx as [i Hi].
  destruct (decide (Z.to_nat r = i)) as [<-|Hne].
  - rewrite list_lookup_insert_eq in Hi by lia. injection Hi as <-.
    apply set_wfRow; [exact Hwr|unfold inRange; lia|exact Hv].
  - rewrite list_lookup_insert_ne in Hi by exact Hne.
    apply Hall, list_elem_of_In. eapply list_elem_of_lookup_2, Hi.
Qed.

(** ** [makeMove] on an 8x8 board *)

Lemma onSquare_spec sq r c : onSquare sq r c = true <-> sq = (r, c).
Proof.
  unfold onSquare. destruct sq as [a b]. simpl.
  rewrite andb_true_iff, !Z.eqb_eq. split; [intros [-> ->]|intros [= -> ->]]; auto.
Qed.

Lemma queenOf_defined piece : piece <> Undefined -> queenOf piece <> Undefined.
Proof. destruct piece as [| |p]; simpl; auto. by destruct (white p). Qed.

(** For squares inside the board [makeMove] returns an 8x8 board, and its
    squares are those of the three assignments, in order. *)
Lemma makeMove_wf8 board from to :
  wf8 board -> inRange from.1 from.2 -> inRange to.1 to.2 ->
  exists piece newBoard,
    getCell board from.1 from.2 = Ok piece
    /\ piece <> Undefined
    /\ makeMove board from to = Ok newBoard
    /\ wf8 newBoard
    /\ forall r c,
         getCell newBoard r c
         = if promotes piece to && onSquare to r c then Ok (queenOf piece)
           else if onSquare from r c then Ok Null
           else if onSquare to r c then Ok piece
           else getCell board r c.
Proof.
  intros Hwf Hfrom Hto.
  destruct (wf8_inside board _ _ Hwf Hfrom) as (piece & Hpiece & _ & Hd).
  destruct (setCell_wf8 board to.1 to.2 piece Hwf Hto Hd) as (b1 & Hb1 & Hwf1).
  destruct (setCell_wf8 b1 from.1 from.2 Null Hwf1 Hfrom) as (b2 & Hb2 & Hwf2);
    [discriminate|].
  destruct (setCell_wf8 b2 to.1 to.2 (queenOf piece) Hwf2 Hto) as (b3 & Hb3 & Hwf3);
    [by apply queenOf_defined|].
  exists piece. unfold makeMove. rewrite (spread_wf8 board Hwf), Hpiece.
  cbn [bind]. rewrite Hb1. cbn [bind]. rewrite Hb2. cbn [bind].
  fold (promotes piece to). destruct (promotes piece to) eqn:Hpr.
  - assert (exists p, piece = Pc p) as [p ->].
    { unfold promotes in Hpr. apply andb_true_iff in Hpr as [Hpr _].
      destruct piece; try discriminate. eauto. }
    exists b3. repeat split; [exact Hd| |exact Hwf3|].
    + cbn [isWhite bind]. fold (white p). simpl in Hb3.
      by destruct (white p).
    + intros r c. rewrite (getCell_setCell _ _ _ _ _ r c Hb3).
      rewrite (getCell_setCell _ _ _ _ _ r c Hb2).
      rewrite (getCell_setCell _ _ _ _ _ r c Hb1).
      unfold onSquare. simpl.
      destruct ((to.1 =? r) && (to.2 =? c)), ((from.1 =? r) && (from.2 =? c));
        reflexivity.
  - exists b2. repeat split; [exact Hd|exact Hwf2|].
    intros r c. rewrite (getCell_setCell _ _ _ _ _ r c Hb2).
    rewrite (getCell_setCell _ _ _ _ _ r c Hb1). reflexivity.
Qed.

(** C4: a pawn that [makeMove] puts on its far row (row 0 for a white
    pawn, row 7 for a black pawn) is replaced there by a queen of its side. *)
Theorem makeMove_promotes_pawn board from to p :
  wf8 board ->
  getCell board from.1 from.2 = Ok (Pc p) ->
  toLowerCase p = bp ->
  0 <= to.2 <= 7 ->
  to.1 = (if white p then 0 else 7) ->
  exists newBoard,
    makeMove board from to = Ok newBoard
    /\ getCell newBoard to.1 to.2 = Ok (Pc (if white p then wQ else bq)).
Proof.
  intros Hwf Hp Hk Hc Hrow.
  assert (Hfrom : inRange from.1 from.2).
  { apply (wf8_defined board _ _ Hwf). apply getCell_Opt in Hp.
    rewrite Hp. discriminate. }
  assert (Hto : inRange to.1 to.2)
    by (unfold inRange; destruct (white p); lia).
  destruct (makeMove_wf8 board from to Hwf Hfrom Hto)
    as (piece & nb & Hpiece & _ & Hmv & _ & Hcells).
  rewrite Hp in Hpiece. injection Hpiece as <-.
  exists nb. split; [exact Hmv|]. rewrite Hcells.
  assert (promotes (Pc p) to = true) as ->.
  { unfold promotes. simpl. rewrite Hk, Hrow.
    rewrite bool_decide_eq_true_2 by reflexivity. by destruct (white p). }
  rewrite (proj2 (onSquare_spec to to.1 to.2)) by (by destruct to).
  simpl. by destruct (white p).
Qed.

Lemma makeMove_promotes_pawn_witness :
  exists newBoard,
    makeMove sparseBoard (1, 0) (0, 0) = Ok newBoard
    /\ getCell newBoard 0 0 = Ok (Pc wQ).
Proof.
  apply (makeMove_promotes_pawn sparseBoard (1, 0) (0, 0) wP);
    [reflexivity | reflexivity | reflexivity | simpl; lia | reflexivity].
Defined.

(** ** [makeMove] on the store *)

Lemma copyRows_spec refs h rows :
  mapM (fun l => Store.rowObjs h !! l) refs = Some rows ->
  Store.copyRows refs h
  = Ok (seq (length (Store.rowObjs h)) (length refs),
        Store.mkHeap (Store.rowObjs h ++ map Row.spread rows) (Store.boardObjs h)).
Proof.
  intros H. apply mapM_Some_1 in H. revert h rows H.
  induction refs as [|l refs IH]; intros h rows H.
  - inversion H; subst. simpl. rewrite app_nil_r. by destruct h.
  - inversion H as [|? row ? rest Hl Hrest]; subst. simpl.
    rewrite Hl. simpl.
    rewrite (IH (Store.mkHeap (Store.rowObjs h ++ [Row.spread row])
                              (Store.boardObjs h)) rest).
    + simpl. rewrite length_app, <- app_assoc. simpl.
      by rewrite Nat.add_1_r.
    + simpl. eapply Forall2_impl; [exact Hrest|].
      intros x y Hx. by apply lookup_app_l_Some.
Qed.

Section Extended.

Variables h0 h : Store.Heap.
Variable newBoard : Board.
Hypothesis Hext : extendsWith h0 h newBoard.

Let nb : nat := length (Store.boardObjs h0).

Lemma rowRef_ext r :
  Store.rowRef h nb r
  = Ok (if 0 <=? r
        then (seq (length (Store.rowObjs h0)) (length newBoard)) !! Z.to_nat r
        else None).
Proof.
  destruct Hext as [_ Hb]. unfold Store.rowRef, nb. rewrite Hb.
  rewrite lookup_app_r by lia. by rewrite Nat.sub_diag.
Qed.

Lemma readCell_ext r c : Store.readCell h nb r c = getCell newBoard r c.
Proof.
  unfold Store.readCell, getCell, getRow. rewrite rowRef_ext. simpl.
  destruct Hext as [Hr _].
  destruct (0 <=? r); [|reflexivity].
  destruct (newBoard !! Z.to_nat r) as [row|] eqn:Hrow.
  - rewrite lookup_seq_lt by (by eapply lookup_lt_Some).
    rewrite Hr, lookup_app_r by lia.
    replace (length (Store.rowObjs h0) + Z.to_nat r - length (Store.rowObjs h0))%nat
      with (Z.to_nat r) by lia.
    by rewrite Hrow.
  - by rewrite lookup_seq_ge by (by apply lookup_ge_None).
Qed.

Lemma writeCell_ext r c v :
  match setCell newBoard r c v with
  | Ok newBoard' =>
      exists h', Store.writeCell h nb r c v = Ok h'
                 /\ extendsWith h0 h' newBoard'
  | TypeError => Store.writeCell h nb r c v = TypeError
  end.
Proof.
  unfold Store.writeCell, setCell, getRow. rewrite rowRef_ext. simpl.
  destruct Hext as [Hr Hb].
  destruct (0 <=? r); [|reflexivity].
  destruct (newBoard !! Z.to_nat r) as [row|] eqn:Hrow.
  - rewrite lookup_seq_lt by (by eapply lookup_lt_Some).
    rewrite Hr, lookup_app_r by lia.
    replace (length (Store.rowObjs h0) + Z.to_nat r - length (Store.rowObjs h0))%nat
      with (Z.to_nat r) by lia.
    rewrite Hrow. simpl. eexists. split; [reflexivity|].
    split; simpl.
    + apply insert_app_r.
    + by rewrite length_insert.
  - by rewrite lookup_seq_ge by (by apply lookup_ge_None).
Qed.

Lemma readBoard_ext : Store.readBoard h nb = Some newBoard.
Proof.
  destruct Hext as [Hr Hb]. unfold Store.readBoard, nb. rewrite Hb.
  rewrite lookup_app_r by lia. rewrite Nat.sub_diag. simpl.
  apply mapM_Some_2, Forall2_same_length_lookup_2; [by rewrite length_seq|].
  intros i l row Hl Hrow. apply lookup_seq in Hl as [-> Hi].
  rewrite Hr, lookup_app_r by lia.
  replace (length (Store.rowObjs h0) + i - length (Store.rowObjs h0))%nat
    with i by lia.
  exact Hrow.
Qed.

(** The objects of the store before the call are untouched. *)
Lemma rowObjs_ext l row :
  Store.rowObjs h0 !! l = Some row -> Store.rowObjs h !! l = Some row.
Proof. destruct Hext as [-> _]. apply lookup_app_l_Some. Qed.

Lemma boardObjs_ext l rows :
  Store.boardObjs h0 !! l = Some rows -> Store.boardObjs h !! l = Some rows.
Proof. destruct Hext as [_ ->]. apply lookup_app_l_Some. Qed.

Lemma readBoard_old b board :
  Store.readBoard h0 b = Some board -> Store.readBoard h b = Some board.
Proof.
  unfold Store.readBoard.
  destruct (Store.boardObjs h0 !! b) as [rows|] eqn:Hrows; [|discriminate].
  rewrite (boardObjs_ext _ _ Hrows). simpl. intros H.
  apply mapM_Some_2. apply mapM_Some_1 in H.
  eapply Forall2_impl; [exact H|]. intros l row. apply rowObjs_ext.
Qed.

End Extended.

(** The two readings of [makeMove] agree: on a store where [board] denotes
    [B], the call returns a new reference denoting [makeMove B from to], or
    throws when that throws. *)
Lemma store_makeMove_refines h board B from to :
  Store.readBoard h board = Some B ->
  match makeMove B from to with
  | Ok newBoard =>
      exists h', Store.makeMove board from to h
                 = Ok (length (Store.boardObjs h), h')
                 /\ extendsWith h h' newBoard
  | TypeError => Store.makeMove board from to h = TypeError
  end.
Proof.
  unfold Store.readBoard.
  destruct (Store.boardObjs h !! board) as [refs|] eqn:Hrefs; [|discriminate].
  simpl. intros HB. unfold Store.makeMove, makeMove. rewrite Hrefs.
  cbn [bind Store.deref].
  rewrite (copyRows_spec refs h B HB).
  cbn [bind Store.allocBoard Store.rowObjs Store.boardObjs].
  set (h2 := Store.mkHeap _ _).
  assert (Hlen : length refs = length B)
    by (apply mapM_Some_1 in HB; by eapply Forall2_length).
  assert (H2 : extendsWith h h2 (map Row.spread B)).
  { split; simpl; [reflexivity|]. by rewrite length_map, Hlen. }
  rewrite (readCell_ext h h2 _ H2).
  destruct (getCell (map Row.spread B) from.1 from.2) as [piece|]; [|reflexivity].
  cbn [bind].
  pose proof (writeCell_ext h h2 _ H2 to.1 to.2 piece) as W1.
  destruct (setCell (map Row.spread B) to.1 to.2 piece) as [b1|];
    [|by rewrite W1].
  destruct W1 as (h3 & -> & H3). cbn [bind].
  pose proof (writeCell_ext h h3 _ H3 from.1 from.2 Null) as W2.
  destruct (setCell b1 from.1 from.2 Null) as [b2|]; [|by rewrite W2].
  destruct W2 as (h4 & -> & H4). cbn [bind].
  destruct (isPawn piece && ((to.1 =? 0) || (to.1 =? 7))); [|eauto].
  destruct (isWhite piece) as [w|]; [|reflexivity]. cbn [bind].
  pose proof (writeCell_ext h h4 _ H4 to.1 to.2 (if w then Pc wQ else Pc bq)) as W3.
  destruct (setCell b2 to.1 to.2 (if w then Pc wQ else Pc bq)) as [b3|];
    [|by rewrite W3].
  destruct W3 as (h5 & -> & H5). cbn [bind]. eauto.
Qed.

(** ** The frame of [makeMove] *)

(** C5, as stated, fails when [from] and [to] are the same occupied square:
    the second assignment clears what the first one wrote, so [to] does not
    receive the moved piece.  Here the white pawn of the e-file is "moved"
    onto its own square. *)
Lemma makeMove_same_square_counterexample :
  Store.readBoard initialStore 0%nat = Some initialBoard
  /\ wf8 initialBoard
  /\ inRange 6 4
  /\ (exists h',
        Store.makeMove 0%nat (6, 4) (6, 4) initialStore = Ok (1%nat, h')
        /\ Store.readCell initialStore 0%nat 6 4 = Ok (Pc wP)
        /\ Store.readCell h' 1%nat 6 4 = Ok Null)
  /\ ~ moveEffect initialStore 0%nat initialBoard (6, 4) (6, 4).
Proof.
  split; [reflexivity|]. split; [reflexivity|].
  split; [unfold inRange; lia|]. split; [eexists; repeat split|].
  intros (piece & nb & h' & NB & Hp & _ & _ & _ & _ & Hfrom & Hto & _).
  vm_compute in Hp. injection Hp as <-. simpl in Hfrom, Hto.
  rewrite Hfrom in Hto. discriminate.
Qed.

(** C5 (amended): for any two squares inside an 8x8 board, [makeMove]
    returns a new board that agrees with the input board on every square
    other than [from] and [to]; the input board, and every other object of
    the store, is as it was before the call.  [from] is empty afterwards,
    except when [from = to] holds a pawn on row 0 or 7; [to] holds the moved
    or promoted piece, except when [from = to] holds a piece that is not
    such a pawn. *)
Theorem makeMove_frame h board B from to :
  Store.readBoard h board = Some B ->
  wf8 B ->
  inRange from.1 from.2 ->
  inRange to.1 to.2 ->
  moveOutcome h board B from to.
Proof.
  intros HB Hwf Hfrom Hto.
  destruct (makeMove_wf8 B from to Hwf Hfrom Hto)
    as (piece & NB & Hpiece & _ & Hmv & _ & Hcells).
  pose proof (store_makeMove_refines h board B from to HB) as Href.
  rewrite Hmv in Href. destruct Href as (h' & Hst & Hext).
  exists piece, (length (Store.boardObjs h)), h', NB.
  assert (Hother : forall (sq : Square) r c,
            sq <> (r, c) -> onSquare sq r c = false).
  { intros sq r c Hne. apply not_true_iff_false. by rewrite onSquare_spec. }
  assert (Hff : onSquare from from.1 from.2 = true)
    by (apply onSquare_spec; by destruct from).
  assert (Htt : onSquare to to.1 to.2 = true)
    by (apply onSquare_spec; by destruct to).
  split; [exact Hpiece|]. split; [exact Hst|].
  split; [by eapply readBoard_ext|]. split; [exact Hmv|].
  split; [|split; [|split; [|split; [|split]]]].
  - intros r c Hnf Hnt. rewrite Hcells.
    rewrite (Hother from r c), (Hother to r c) by congruence.
    by rewrite andb_false_r.
  - rewrite Hcells, Hff. intros [Hne| ->]; [|reflexivity].
    rewrite (Hother to from.1 from.2), andb_false_r; [reflexivity|].
    destruct from; simpl; congruence.
  - rewrite Hcells, Htt, andb_true_r. unfold landed.
    intros [Hne|[-> | ->]]; [|reflexivity|].
    2:{ assert (promotes Null to = false) as -> by reflexivity.
        by destruct (onSquare from to.1 to.2). }
    rewrite (Hother from to.1 to.2) by (destruct to; simpl; congruence).
    by destruct (promotes piece to).
  - by eapply readBoard_old.
  - intros l row. by eapply rowObjs_ext.
  - intros l rows. by eapply boardObjs_ext.
Qed.

Lemma makeMove_frame_witness :
  moveOutcome initialStore 0%nat initialBoard (6, 4) (4, 4)
  /\ moveOutcome initialStore 0%nat initialBoard (6, 4) (6, 4).
Proof.
  split.
  - apply (makeMove_frame initialStore 0%nat initialBoard (6, 4) (4, 4)).
    + reflexivity.
    + reflexivity.
    + simpl. unfold inRange. lia.
    + simpl. unfold inRange. lia.
  - apply (makeMove_frame initialStore 0%nat initialBoard (6, 4) (6, 4)).
    + reflexivity.
    + reflexivity.
    + simpl. unfold inRange. lia.
    + simpl. unfold inRange. lia.
Defined.

(** ** Squares outside the board *)

(** C9, as stated, fails for a row outside the board: [board[row]] is
    [undefined] and reading [[col]] from it throws. *)
Lemma getValidMoves_row_outside_counterexample :
  wf8 initialBoard
  /\ ~ inRange 8 0
  /\ getValidMoves initialBoard 8 0 = TypeError
  /\ ~ (forall board row col,
          wf8 board -> ~ inRange row col -> getValidMoves board row col = Ok []).
Proof.
  assert (Hout : ~ inRange 8 0) by (unfold inRange; lia).
  split; [reflexivity|]. split; [exact Hout|]. split; [reflexivity|].
  intros H. specialize (H initialBoard 8 0 eq_refl Hout). discriminate.
Qed.

(** C9 (amended): on an 8x8 board, for a row inside the board and a column
    outside it, [getValidMoves] returns the empty list and does not throw. *)
Theorem getValidMoves_column_outside board row col :
  wf8 board ->
  0 <= row <= 7 ->
  ~ (0 <= col <= 7) ->
  getValidMoves board row col = Ok [].
Proof.
  intros Hwf Hrow Hcol. pose proof (wf8_getRow board row Hwf) as H.
  rewrite (proj2 (inRangeb_spec row 0)) in H by (unfold inRange; lia).
  destruct H as (r & Hr & Hwr). pose proof (wfRow_get r col Hwr) as Hg.
  rewrite (proj2 (inRangeb_false 0 col)) in Hg by (unfold inRange; lia).
  unfold getValidMoves, getCell. rewrite Hr, Hg. reflexivity.
Qed.

Lemma getValidMoves_column_outside_witness :
  getValidMoves initialBoard 0 8 = Ok [].
Proof.
  apply (getValidMoves_column_outside initialBoard 0 8); [reflexivity|lia|lia].
Defined.

(** ** The score *)

Lemma sumQc_app l1 l2 : sumQc (l1 ++ l2) = (sumQc l1 + sumQc l2)%Qc.
Proof.
  induction l1 as [|x l1 IH]; simpl; [ring|]. rewrite IH. ring.
Qed.

Lemma sumQc_flat_map {A B} (f : B -> Qc) (g : A -> list B) (l : list A) :
  sumQc (map f (flat_map g l)) = sumQc (map (fun a => sumQc (map f (g a))) l).
Proof.
  induction l as [|a l IH]; simpl; [reflexivity|].
  by rewrite map_app, sumQc_app, IH.
Qed.

Lemma sumQc_plus {A} (f g : A -> Qc) (l : list A) :
  (sumQc (map f l) + sumQc (map g l))%Qc = sumQc (map (fun a => (f a + g a)%Qc) l).
Proof.
  induction l as [|a l IH]; simpl; [ring|]. rewrite <- IH. ring.
Qed.

Lemma sumQc_ext {A} (f g : A -> Qc) (l : list A) :
  (forall a, In a l -> f a = g a) -> sumQc (map f l) = sumQc (map g l).
Proof. intros H. f_equal. by apply map_ext_in. Qed.

(** A loop that adds [g a] to the running score for each [a]. *)
Lemma forEach_sum {A} (f : A -> Qc -> result Qc) (g : A -> Qc) (l : list A) s :
  (forall a s, In a l -> f a s = Ok (s + g a)%Qc) ->
  forEach l f s = Ok (s + sumQc (map g l))%Qc.
Proof.
  revert s. induction l as [|a l IH]; intros s Hf; simpl.
  - f_equal. ring.
  - rewrite Hf by (by left). simpl. rewrite IH by (intros; apply Hf; by right).
    f_equal. ring.
Qed.

(** What one occupied square adds to the score in [evaluateBoard]. *)
Lemma material_signed p :
  orZero (PIECE_VALUES p) = signed p (materialValue (kindOf p)).
Proof. destruct p; apply Qc_is_canon; reflexivity. Qed.

Lemma evaluateSquare_wf8 board r c score :
  wf8 board -> inRange r c ->
  evaluateSquare board r c score
  = Ok (score
        + sumQc (map (fun o : Square * Piece =>
                        (signed o.2 (materialValue (kindOf o.2))
                         + signed o.2 (centerBonus o.1.1 o.1.2))%Qc)
                     match getCellOpt board r c with
                     | Pc p => [((r, c), p)]
                     | _ => []
                     end))%Qc.
Proof.
  intros Hwf Hin. destruct (wf8_inside board r c Hwf Hin) as (v & Hv & Hv' & Hd).
  unfold evaluateSquare. rewrite Hv, Hv'. cbn [bind].
  destruct v as [| |p]; [done|simpl; f_equal; ring|].
  rewrite isBlack_Pc. cbn [bind]. f_equal. simpl.
  rewrite material_signed. unfold signed. destruct (white p); simpl; ring.
Qed.

(** [Math.abs] is the absolute value. *)
Lemma Math_abs_Qcabs x : Math_abs x = Qcabs.Qcabs x.
Proof.
  apply Qc_is_canon. unfold Math_abs, Qcabs.Qcabs. cbn [this].
  destruct (Qle_bool 0 x) eqn:E.
  - apply Qle_bool_iff in E. by rewrite Qabs.Qabs_pos.
  - assert (H : (x <= 0)%Q).
    { destruct (Qlt_le_dec 0 x) as [H|H]; [|exact H].
      apply Qlt_le_weak, Qle_bool_iff in H. congruence. }
    rewrite Qabs.Qabs_neg by exact H. cbn [Qcopp Q2Qc this].
    by rewrite Qred_correct.
Qed.

(** The bonus the code adds is the bonus of the specification. *)
Lemma centerBonus_spec r c : centerBonus r c = specCenterBonus r c.
Proof. unfold centerBonus, specCenterBonus. by rewrite !Math_abs_Qcabs. Qed.

Lemma specScore_code board :
  specScore board
  = (sumQc (map (fun o : Square * Piece =>
                   signed o.2 (materialValue (kindOf o.2))) (occupied board))
     + sumQc (map (fun o : Square * Piece =>
                     signed o.2 (centerBonus o.1.1 o.1.2)) (occupied board)))%Qc.
Proof.
  unfold specScore. f_equal. apply sumQc_ext. intros o _.
  by rewrite centerBonus_spec.
Qed.

Lemma evaluateBoard_wf8 board :
  wf8 board -> evaluateBoard board = Ok (specScore board).
Proof.
  intros Hwf. unfold evaluateBoard. rewrite specScore_code.
  rewrite (forEach_sum _
    (fun r => sumQc (map (fun c =>
       sumQc (map (fun o : Square * Piece =>
                     (signed o.2 (materialValue (kindOf o.2))
                      + signed o.2 (centerBonus o.1.1 o.1.2))%Qc)
                  match getCellOpt board r c with
                  | Pc p => [((r, c), p)]
                  | _ => []
                  end)) (range 0 8)))).
  - f_equal. unfold occupied, squares.
    rewrite sumQc_plus, Qcplus_0_l.
    rewrite sumQc_flat_map, sumQc_flat_map.
    apply sumQc_ext. intros r _. by rewrite map_map.
  - intros r s Hr. apply forEach_sum. intros c s' Hc.
    apply in_range in Hr, Hc. apply evaluateSquare_wf8; [exact Hwf|].
    unfold inRange. lia.
Qed.

(** C6: on an 8x8 board [evaluateBoard] returns the material of the
    occupied squares (pawn 100, knight 320, bishop 330, rook 500, queen 900,
    king 20000), counted positively for black and negatively for white, plus
    for each occupied square the centre bonus
    [(3.5 - |3.5 - col|) * 5 + (3.5 - |3.5 - row|) * 5] with the same sign. *)
Theorem evaluateBoard_is_material_plus_center board :
  wf8 board -> evaluateBoard board = Ok (specScore board).
Proof. exact (evaluateBoard_wf8 board). Qed.

Lemma evaluateBoard_is_material_plus_center_witness :
  evaluateBoard sparseBoard = Ok (specScore sparseBoard)
  /\ specScore sparseBoard = Q2Qc (-490)
  /\ specCenterBonus 4 3 = Q2Qc 30
  /\ specCenterBonus 0 4 = Q2Qc 15.
Proof.
  split; [apply (evaluateBoard_is_material_plus_center sparseBoard); reflexivity|].
  repeat split; apply Qc_is_canon; vm_compute; reflexivity.
Defined.

(** ** The order on scores *)

Module NumOrder.

Definition t : Set := Num.
Definition eq : t -> t -> Prop := @Logic.eq Num.
Definition le : t -> t -> Prop := Num.le.
Definition lt : t -> t -> Prop := Num.lt.

Lemma leb_Fin x y : Num.leb (Fin x) (Fin y) = true <-> (x <= y)%Qc.
Proof. simpl. apply Qle_bool_iff. Qed.

Lemma leb_Fin_false x y : Num.leb (Fin x) (Fin y) = false <-> (y < x)%Qc.
Proof.
  rewrite <- not_true_iff_false, leb_Fin. split.
  - apply Qcnot_le_lt.
  - apply Qclt_not_le.
Qed.

#[global] Instance eq_equiv : Equivalence eq.
Proof. unfold eq. typeclasses eauto. Qed.

#[global] Instance lt_strorder : StrictOrder lt.
Proof.
  split.
  - intros [| x |]; unfold complement, lt, Num.lt; try discriminate.
    rewrite leb_Fin_false. intros H. by apply Qclt_not_eq in H.
  - intros [| x |] [| y |] [| z |]; unfold lt, Num.lt;
      try discriminate; try reflexivity.
    rewrite !leb_Fin_false. intros Hxy Hyz. eapply Qclt_trans; eauto.
Qed.

#[global] Instance lt_compat : Proper (eq ==> eq ==> iff) lt.
Proof. unfold eq. intros a b -> c d ->. reflexivity. Qed.

Lemma le_lteq x y : le x y <-> lt x y \/ eq x y.
Proof.
  unfold le, lt, eq, Num.le, Num.lt. destruct x as [| x |], y as [| y |]; simpl;
    try (split; [auto; fail|intros [H|H]; congruence]);
    try (split; [discriminate|intros [H|H]; congruence]).
  fold (Num.leb (Fin x) (Fin y)). fold (Num.leb (Fin y) (Fin x)).
  rewrite leb_Fin, leb_Fin_false. split.
  - intros H. apply Qcle_lt_or_eq in H as [H| ->]; auto.
  - intros [H|[= ->]]; [by apply Qclt_le_weak|apply Qcle_refl].
Qed.

Lemma lt_total x y : lt x y \/ eq x y \/ lt y x.
Proof.
  unfold lt, eq, Num.lt. destruct x as [| x |], y as [| y |]; simpl; auto.
  fold (Num.leb (Fin x) (Fin y)). fold (Num.leb (Fin y) (Fin x)).
  rewrite !leb_Fin_false.
  destruct (Qc_dec x y) as [[H|H]|H]; auto. right; left. by f_equal.
Qed.

End NumOrder.

Module NumTac := OrdersTac.MakeOrderTac NumOrder NumOrder.

(** Turn the tests of the source into order facts. *)
Ltac num_facts :=
  repeat match goal with
  | H : Num.leb ?a ?b = true |- _ => change (Num.le a b) in H
  | H : Num.leb ?a ?b = false |- _ => change (Num.lt b a) in H
  | H : Num.ltb ?a ?b = true |- _ =>
      apply negb_true_iff in H; change (Num.lt a b) in H
  | H : Num.ltb ?a ?b = false |- _ =>
      apply negb_false_iff in H; change (Num.le b a) in H
  | |- Num.leb ?a ?b = true => change (Num.le a b)
  | |- Num.leb ?a ?b = false => change (Num.lt b a)
  end.

Ltac num_order := num_facts; NumTac.order.

Lemma NegInf_least a : Num.leb NegInf a = true.
Proof. reflexivity. Qed.

Lemma PosInf_greatest a : Num.leb a PosInf = true.
Proof. by destruct a. Qed.

Lemma max_cases a b :
  (Num.leb a b = true /\ Num.max a b = b)
  \/ (Num.leb a b = false /\ Num.max a b = a).
Proof. unfold Num.max. destruct (Num.leb a b); auto. Qed.

Lemma min_cases a b :
  (Num.leb a b = true /\ Num.min a b = a)
  \/ (Num.leb a b = false /\ Num.min a b = b).
Proof. unfold Num.min. destruct (Num.leb a b); auto. Qed.

(** ** [getAllMoves] on an 8x8 board *)

Lemma forEach_appends {A B} (P : B -> Prop)
  (f : A -> list B -> result (list B)) (l : list A) (s : list B) :
  (forall a s, In a l -> exists new, f a s = Ok (s ++ new) /\ Forall P new) ->
  exists new, forEach l f s = Ok (s ++ new) /\ Forall P new.
Proof.
  revert s. induction l as [|a l IH]; intros s Hf; simpl.
  - exists []. by rewrite app_nil_r.
  - destruct (Hf a s) as (new1 & -> & H1); [by left|]. simpl.
    destruct (IH (s ++ new1)) as (new2 & -> & H2);
      [intros; apply Hf; by right|].
    exists (new1 ++ new2). rewrite app_assoc. split; [reflexivity|].
    by apply Forall_app.
Qed.

Lemma generated_inRange board row col w p sq :
  wf8 board -> In sq (generated board row col w p) -> inRange sq.1 sq.2.
Proof.
  intros Hwf H. eapply legalDest_inRange; [exact Hwf|].
  eapply generated_legal; eauto.
Qed.

Lemma movesOfSquare_wf8 board forBlack r c moves :
  wf8 board -> inRange r c ->
  exists new, movesOfSquare board forBlack r c moves = Ok (moves ++ new)
              /\ Forall legalMove new.
Proof.
  intros Hwf Hin. destruct (wf8_inside board r c Hwf Hin) as (v & Hv & _ & Hd).
  unfold movesOfSquare. rewrite Hv. cbn [bind].
  destruct v as [| |p]; [done| |].
  - exists []. by rewrite app_nil_r.
  - cbn [truthy]. rewrite isBlack_Pc, isWhite_Pc.
    destruct (if forBlack then Ok (negb (white p)) else Ok (white p))
      as [mine|] eqn:Hmine; [|by destruct forBlack].
    cbn [bind]. destruct mine.
    + rewrite (getValidMoves_wf8 board r c p Hwf Hv). cbn [bind].
      eexists. split; [reflexivity|].
      apply Forall_forall. intros m Hm. apply list_elem_of_In in Hm.
      apply in_map_iff in Hm as (sq & <- & Hsq).
      split; [exact Hin|]. by eapply generated_inRange.
    + exists []. by rewrite app_nil_r.
Qed.

Lemma getAllMoves_wf8 board forBlack :
  wf8 board ->
  exists moves, getAllMoves board forBlack = Ok moves /\ Forall legalMove moves.
Proof.
  intros Hwf. unfold getAllMoves.
  destruct (forEach_appends legalMove
    (fun r => forEach (range 0 8) (movesOfSquare board forBlack r))
    (range 0 8) []) as (new & Hnew & Hall).
  - intros r s Hr. apply forEach_appends. intros c s' Hc.
    apply in_range in Hr, Hc. apply movesOfSquare_wf8; [exact Hwf|].
    unfold inRange. lia.
  - exists new. by rewrite Hnew.
Qed.

(** ** Alpha-beta against plain minimax *)

Lemma max_assoc a b c : Num.max (Num.max a b) c = Num.max a (Num.max b c).
Proof.
  unfold Num.max.
  destruct (Num.leb a b) eqn:Hab, (Num.leb b c) eqn:Hbc; rewrite ?Hab, ?Hbc;
    try reflexivity;
    destruct (Num.leb a c) eqn:Hac; try reflexivity; num_order.
Qed.

Lemma min_assoc a b c : Num.min (Num.min a b) c = Num.min a (Num.min b c).
Proof.
  unfold Num.min.
  destruct (Num.leb a b) eqn:Hab, (Num.leb b c) eqn:Hbc; rewrite ?Hab, ?Hbc;
    try reflexivity;
    destruct (Num.leb a c) eqn:Hac; try reflexivity; num_order.
Qed.

Lemma window_exact r alpha beta : window alpha beta r r.
Proof. unfold window. repeat split; intros; num_order. Qed.

Section AlphaBeta.

Variable search : Board -> Num -> Num -> bool -> result Num.
Variable plain : Board -> bool -> result Num.
Variable board : Board.
Hypothesis Hwf : wf8 board.
Hypothesis Hsearch : forall newBoard alpha beta maximizing,
  wf8 newBoard -> Num.ltb alpha beta = true ->
  exists r v, search newBoard alpha beta maximizing = Ok r
              /\ plain newBoard maximizing = Ok v
              /\ window alpha beta r v.

Lemma child_wf8 fr fc tr tc :
  legalMove (fr, fc, tr, tc) ->
  exists newBoard, makeMove board (fr, fc) (tr, tc) = Ok newBoard /\ wf8 newBoard.
Proof.
  intros [Hf Ht].
  destruct (makeMove_wf8 board (fr, fc) (tr, tc) Hwf Hf Ht)
    as (? & nb & _ & _ & Hmv & Hnb & _). eauto.
Qed.

Lemma plain_total newBoard maximizing :
  wf8 newBoard -> exists v, plain newBoard maximizing = Ok v.
Proof.
  intros Hnb.
  destruct (Hsearch newBoard NegInf PosInf maximizing Hnb eq_refl)
    as (_ & v & _ & Hv & _). eauto.
Qed.

Lemma plainMaxLoop_grows moves V :
  Forall legalMove moves ->
  exists Vf, plainMaxLoop plain board moves V = Ok Vf /\ Num.leb V Vf = true.
Proof.
  intros Hall. revert V. induction Hall as [|[[[fr fc] tr] tc] moves Hm _ IH];
    intros V; simpl.
  - exists V. split; [reflexivity|num_order].
  - destruct (child_wf8 _ _ _ _ Hm) as (nb & -> & Hnb). cbn [bind].
    destruct (plain_total nb false Hnb) as (v & ->). cbn [bind].
    destruct (IH (Num.max V v)) as (Vf & -> & Hle). exists Vf.
    split; [reflexivity|]. destruct (max_cases V v) as [[? E]|[? E]];
      rewrite E in Hle; num_order.
Qed.

Lemma plainMinLoop_shrinks moves V :
  Forall legalMove moves ->
  exists Vf, plainMinLoop plain board moves V = Ok Vf /\ Num.leb Vf V = true.
Proof.
  intros Hall. revert V. induction Hall as [|[[[fr fc] tr] tc] moves Hm _ IH];
    intros V; simpl.
  - exists V. split; [reflexivity|num_order].
  - destruct (child_wf8 _ _ _ _ Hm) as (nb & -> & Hnb). cbn [bind].
    destruct (plain_total nb true Hnb) as (v & ->). cbn [bind].
    destruct (IH (Num.min V v)) as (Vf & -> & Hle). exists Vf.
    split; [reflexivity|]. destruct (min_cases V v) as [[? E]|[? E]];
      rewrite E in Hle; num_order.
Qed.

(** The loop of a maximizing node.  [M] is [maxEval] so far and [V] the
    plain maximum over the same moves; the running [alpha] is the maximum
    of the [alpha] of the call and [M]. *)
Lemma maxLoop_window moves :
  Forall legalMove moves ->
  forall M V alpha beta,
    Num.ltb alpha beta = true ->
    Num.ltb M beta = true ->
    Num.leb V M = true ->
    (Num.ltb alpha M = true -> V = M) ->
    exists R Vf,
      maxLoop search board moves M (Num.max alpha M) beta = Ok R
      /\ plainMaxLoop plain board moves V = Ok Vf
      /\ window alpha beta R Vf.
Proof.
  intros Hall. induction Hall as [|[[[fr fc] tr] tc] moves Hm Hall IH];
    intros M V alpha beta Hab HM HVM HV.
  - exists M, V. simpl. repeat split; try reflexivity; intros.
    + exact HVM.
    + num_order.
    + by apply HV.
  - cbn [maxLoop plainMaxLoop].
    destruct (child_wf8 _ _ _ _ Hm) as (nb & -> & Hnb). cbn [bind].
    destruct (Hsearch nb (Num.max alpha M) beta false Hnb) as (r & v & -> & -> & Hw).
    { destruct (max_cases alpha M) as [[? ->]|[? ->]]; assumption. }
    cbn [bind]. destruct Hw as (Hlow & Hhigh & Hin).
    destruct (Num.leb beta (Num.max (Num.max alpha M) r)) eqn:Hbreak.
    + (* break *)
      assert (Hr : Num.leb beta r = true).
      { destruct (max_cases (Num.max alpha M) r) as [[? E]|[? E]];
          rewrite E in Hbreak; [exact Hbreak|].
        destruct (max_cases alpha M) as [[? E']|[? E']];
          rewrite E' in *; num_order. }
      specialize (Hhigh Hr).
      destruct (plainMaxLoop_grows moves (Num.max V v) Hall) as (Vf & -> & HVf).
      exists (Num.max M r), Vf. split; [reflexivity|]. split; [reflexivity|].
      assert (Num.max M r = r) as ->
        by (destruct (max_cases M r) as [[? ->]|[? ->]]; num_order).
      assert (Num.leb r Vf = true)
        by (destruct (max_cases V v) as [[? E]|[? E]];
            rewrite E in HVf; num_order).
      repeat split; intros; num_order.
    + (* next move *)
      assert (Hr : Num.ltb r beta = true).
      { apply negb_true_iff.
        destruct (max_cases (Num.max alpha M) r) as [[? E]|[? E]];
          rewrite E in Hbreak; [exact Hbreak|num_order]. }
      assert (Hvr : Num.leb v r = true).
      { destruct (Num.leb r (Num.max alpha M)) eqn:E; [by apply Hlow|].
        rewrite Hin; [num_order| |exact Hr]. by apply negb_true_iff. }
      rewrite max_assoc.
      apply (IH (Num.max M r) (Num.max V v) alpha beta Hab).
      * destruct (max_cases M r) as [[? ->]|[? ->]]; assumption.
      * destruct (max_cases M r) as [[? ->]|[? ->]],
                 (max_cases V v) as [[? ->]|[? ->]]; num_order.
      * intros Ha. destruct (Num.leb r M) eqn:HrM.
        -- assert (Num.max M r = M) as E
             by (destruct (max_cases M r) as [[? ->]|[? ->]]; num_order).
           rewrite E in *. specialize (HV Ha). subst V.
           destruct (max_cases M v) as [[? ->]|[? ->]]; num_order.
        -- assert (Num.max M r = r) as E
             by (destruct (max_cases M r) as [[? ->]|[? ->]]; num_order).
           rewrite E in *. assert (v = r) as ->.
           { apply Hin; [|exact Hr]. apply negb_true_iff.
             destruct (max_cases alpha M) as [[? ->]|[? ->]]; num_order. }
           destruct (max_cases V r) as [[? ->]|[? ->]]; num_order.
Qed.

(** The loop of a minimizing node, symmetrically. *)
Lemma minLoop_window moves :
  Forall legalMove moves ->
  forall M V alpha beta,
    Num.ltb alpha beta = true ->
    Num.ltb alpha M = true ->
    Num.leb M V = true ->
    (Num.ltb M beta = true -> V = M) ->
    exists R Vf,
      minLoop search board moves M alpha (Num.min beta M) = Ok R
      /\ plainMinLoop plain board moves V = Ok Vf
      /\ window alpha beta R Vf.
Proof.
  intros Hall. induction Hall as [|[[[fr fc] tr] tc] moves Hm Hall IH];
    intros M V alpha beta Hab HM HVM HV.
  - exists M, V. simpl. repeat split; try reflexivity; intros.
    + num_order.
    + exact HVM.
    + by apply HV.
  - cbn [minLoop plainMinLoop].
    destruct (child_wf8 _ _ _ _ Hm) as (nb & -> & Hnb). cbn [bind].
    destruct (Hsearch nb alpha (Num.min beta M) true Hnb) as (r & v & -> & -> & Hw).
    { destruct (min_cases beta M) as [[? ->]|[? ->]]; assumption. }
    cbn [bind]. destruct Hw as (Hlow & Hhigh & Hin).
    destruct (Num.leb (Num.min (Num.min beta M) r) alpha) eqn:Hbreak.
    + (* break *)
      assert (Hr : Num.leb r alpha = true).
      { destruct (min_cases (Num.min beta M) r) as [[? E]|[? E]];
          rewrite E in Hbreak; [|exact Hbreak].
        destruct (min_cases beta M) as [[? E']|[? E']];
          rewrite E' in *; num_order. }
      specialize (Hlow Hr).
      destruct (plainMinLoop_shrinks moves (Num.min V v) Hall) as (Vf & -> & HVf).
      exists (Num.min M r), Vf. split; [reflexivity|]. split; [reflexivity|].
      assert (Num.min M r = r) as ->
        by (destruct (min_cases M r) as [[? ->]|[? ->]]; num_order).
      assert (Num.leb Vf r = true)
        by (destruct (min_cases V v) as [[? E]|[? E]];
            rewrite E in HVf; num_order).
      repeat split; intros; num_order.
    + (* next move *)
      assert (Hr : Num.ltb alpha r = true).
      { apply negb_true_iff.
        destruct (min_cases (Num.min beta M) r) as [[? E]|[? E]];
          rewrite E in Hbreak; [num_order|exact Hbreak]. }
      assert (Hvr : Num.leb r v = true).
      { destruct (Num.leb (Num.min beta M) r) eqn:E; [by apply Hhigh|].
        rewrite Hin; [num_order|exact Hr|]. by apply negb_true_iff. }
      rewrite min_assoc.
      apply (IH (Num.min M r) (Num.min V v) alpha beta Hab).
      * destruct (min_cases M r) as [[? ->]|[? ->]]; assumption.
      * destruct (min_cases M r) as [[? ->]|[? ->]],
                 (min_cases V v) as [[? ->]|[? ->]]; num_order.
      * intros Hb. destruct (Num.leb M r) eqn:HMr.
        -- assert (Num.min M r = M) as E
             by (destruct (min_cases M r) as [[? ->]|[? ->]]; num_order).
           rewrite E in *. specialize (HV Hb). subst V.
           destruct (min_cases M v) as [[? ->]|[? ->]]; num_order.
        -- assert (Num.min M r = r) as E
             by (destruct (min_cases M r) as [[? ->]|[? ->]]; num_order).
           rewrite E in *. assert (v = r) as ->.
           { apply Hin; [exact Hr|]. apply negb_true_iff.
             destruct (min_cases beta M) as [[? ->]|[? ->]]; num_order. }
           destruct (min_cases V r) as [[? ->]|[? ->]]; num_order.
Qed.

End AlphaBeta.

Lemma max_NegInf_r a : Num.max a NegInf = a.
Proof. by destruct a. Qed.

Lemma min_PosInf_r a : Num.min a PosInf = a.
Proof. by destruct a. Qed.

(** The search returns on every 8x8 board, and what it returns relates to
    the plain minimax value as [window] says. *)
Lemma minimax_window depth :
  forall board alpha beta maximizing,
    wf8 board -> Num.ltb alpha beta = true ->
    exists r v,
      minimax depth board alpha beta maximizing = Ok r
      /\ plainMinimax depth board maximizing = Ok v
      /\ window alpha beta r v.
Proof.
  induction depth as [|depth IH]; intros board alpha beta maximizing Hwf Hab.
  - cbn [minimax plainMinimax]. rewrite (evaluateBoard_wf8 board Hwf).
    cbn [bind]. eexists _, _. split; [reflexivity|]. split; [reflexivity|].
    apply window_exact.
  - cbn [minimax plainMinimax].
    destruct (getAllMoves_wf8 board maximizing Hwf) as (moves & -> & Hall).
    cbn [bind]. destruct moves as [|m moves].
    + eexists _, _. split; [reflexivity|]. split; [reflexivity|].
      apply window_exact.
    + destruct maximizing.
      * pose proof (maxLoop_window (minimax depth) (plainMinimax depth) board
                      Hwf IH (m :: moves) Hall NegInf NegInf alpha beta Hab) as H.
        rewrite max_NegInf_r in H. apply H.
        -- apply negb_true_iff. pose proof (NegInf_least alpha). num_order.
        -- reflexivity.
        -- intros E. apply negb_true_iff in E. discriminate.
      * pose proof (minLoop_window (minimax depth) (plainMinimax depth) board
                      Hwf IH (m :: moves) Hall PosInf PosInf alpha beta Hab) as H.
        rewrite min_PosInf_r in H. apply H.
        -- apply negb_true_iff. pose proof (PosInf_greatest beta). num_order.
        -- reflexivity.
        -- intros E. apply negb_true_iff in E.
           rewrite PosInf_greatest in E. discriminate.
Qed.

(** C10: started with the full window, [minimax] returns, and it returns
    the value of the minimax without [alpha], [beta] and the two [break]s
    over the same moves. *)
Theorem alpha_beta_equals_plain_minimax depth board maximizing :
  wf8 board ->
  exists v,
    minimax depth board NegInf PosInf maximizing = Ok v
    /\ plainMinimax depth board maximizing = Ok v.
Proof.
  intros Hwf.
  destruct (minimax_window depth board NegInf PosInf maximizing Hwf eq_refl)
    as (r & v & Hr & Hv & Hlow & Hhigh & Hin).
  exists r. split; [exact Hr|]. rewrite Hv. f_equal.
  destruct r as [| q |].
  - specialize (Hlow eq_refl). pose proof (NegInf_least v). num_order.
  - by apply Hin.
  - specialize (Hhigh eq_refl). pose proof (PosInf_greatest v). num_order.
Qed.

Lemma alpha_beta_equals_plain_minimax_witness :
  exists v,
    minimax 2 sparseBoard NegInf PosInf true = Ok v
    /\ plainMinimax 2 sparseBoard true = Ok v.
Proof.
  apply (alpha_beta_equals_plain_minimax 2 sparseBoard true). reflexivity.
Defined.

(** ** No move left *)

(** C8: when the side to move has no move, the callback of [aiMove] ends
    the game in favour of the human player without playing, and [minimax] at
    any depth of at least one returns minus infinity for the maximizing side
    and plus infinity for the minimizing side. *)
Theorem no_moves_is_terminal board maximizing depth alpha beta :
  getAllMoves board maximizing = Ok [] ->
  (maximizing = true ->
     aiMove board = Ok (GameOver "Checkmate! You win!")
     /\ forall bestMove newBoard gameOver,
          aiMove board <> Ok (Played bestMove newBoard gameOver))
  /\ minimax (S depth) board alpha beta maximizing
     = Ok (if maximizing then NegInf else PosInf).
Proof.
  intros Hnone. split.
  - intros ->. unfold aiMove. rewrite Hnone. split; [reflexivity|].
    intros ? ? ?. discriminate.
  - cbn [minimax]. rewrite Hnone. reflexivity.
Qed.

Lemma no_moves_is_terminal_witness :
  (true = true ->
     aiMove whiteOnlyBoard = Ok (GameOver "Checkmate! You win!")
     /\ forall bestMove newBoard gameOver,
          aiMove whiteOnlyBoard <> Ok (Played bestMove newBoard gameOver))
  /\ minimax 1 whiteOnlyBoard NegInf PosInf true = Ok NegInf.
Proof.
  apply (no_moves_is_terminal whiteOnlyBoard true 0 NegInf PosInf).
  reflexivity.
Defined.

(** ** The order of [getAllMoves] *)

Lemma forEach_flat_map {A B} (f : A -> list B -> result (list B))
  (g : A -> list B) (l : list A) (s : list B) :
  (forall a s, In a l -> f a s = Ok (s ++ g a)) ->
  forEach l f s = Ok (s ++ flat_map g l).
Proof.
  revert s. induction l as [|a l IH]; intros s Hf; simpl.
  - by rewrite app_nil_r.
  - rewrite Hf by (by left). simpl.
    rewrite IH by (intros; apply Hf; by right). by rewrite app_assoc.
Qed.

Lemma movesOfSquare_scan board forBlack r c moves :
  wf8 board -> inRange r c ->
  movesOfSquare board forBlack r c moves
  = Ok (moves ++ movesFromSquare board forBlack r c).
Proof.
  intros Hwf Hin. destruct (wf8_inside board r c Hwf Hin) as (v & Hv & Hv' & Hd).
  unfold movesOfSquare, movesFromSquare. rewrite Hv, Hv'. cbn [bind].
  destruct v as [| |p]; [done|by rewrite app_nil_r|].
  cbn [truthy]. rewrite isBlack_Pc, isWhite_Pc.
  assert ((if forBlack then Ok (negb (white p)) else Ok (white p))
          = Ok (if forBlack then negb (white p) else white p)) as ->
    by (by destruct forBlack).
  cbn [bind]. destruct (if forBlack then negb (white p) else white p).
  - by rewrite (getValidMoves_wf8 board r c p Hwf Hv).
  - by rewrite app_nil_r.
Qed.

(** On an 8x8 board [getAllMoves] lists the moves square by square, rows
    first, and for each square in the order of [getValidMoves]. *)
Lemma getAllMoves_scan board forBlack :
  wf8 board -> getAllMoves board forBlack = Ok (scanOrder board forBlack).
Proof.
  intros Hwf. unfold getAllMoves, scanOrder.
  rewrite (forEach_flat_map _
    (fun r => flat_map (movesFromSquare board forBlack r) (range 0 8))).
  - reflexivity.
  - intros r s Hr. apply forEach_flat_map. intros c s' Hc.
    apply in_range in Hr, Hc. apply movesOfSquare_scan; [exact Hwf|].
    unfold inRange. lia.
Qed.

(** ** The choice of [aiMove] *)

Lemma scoreOf_total board m :
  wf8 board -> legalMove m -> exists s, scoreOf board m = Ok s.
Proof.
  intros Hwf Hm. destruct m as [[[fr fc] tr] tc]. unfold scoreOf.
  destruct (child_wf8 board Hwf _ _ _ _ Hm) as (nb & -> & Hnb). cbn [bind].
  destruct (minimax_window 2 nb NegInf PosInf false Hnb eq_refl)
    as (r & _ & Hr & _). eauto.
Qed.

Lemma scores_total board moves :
  wf8 board -> Forall legalMove moves ->
  exists scores, Forall2 (fun m s => scoreOf board m = Ok s) moves scores.
Proof.
  intros Hwf Hall. induction Hall as [|m moves Hm _ [scores IH]].
  - exists []. constructor.
  - destruct (scoreOf_total board m Hwf Hm) as [s Hs].
    exists (s :: scores). by constructor.
Qed.

(** The selection loop keeps the first move whose score is greater than
    every score before it and at least every score after it, or the move
    it started with when no score is greater than the starting score. *)
Lemma bestLoop_first_best board moves scores :
  Forall2 (fun m s => scoreOf board m = Ok s) moves scores ->
  forall bm bs, exists bm' bs',
    bestLoop board moves bm bs = Ok (bm', bs')
    /\ Num.leb bs bs' = true
    /\ (forall j s, scores !! j = Some s -> Num.leb s bs' = true)
    /\ ((bm' = bm /\ bs' = bs)
        \/ exists i, moves !! i = Some bm' /\ scores !! i = Some bs'
             /\ Num.ltb bs bs' = true
             /\ forall j s, (j < i)%nat -> scores !! j = Some s ->
                            Num.ltb s bs' = true).
Proof.
  intros Hall. induction Hall as [|m s moves scores Hm _ IH]; intros bm bs.
  - exists bm, bs. simpl. split; [reflexivity|]. split; [num_order|].
    split; [intros j s H; discriminate|by left].
  - destruct m as [[[fr fc] tr] tc]. cbn [bestLoop]. unfold scoreOf in Hm.
    destruct (makeMove board (fr, fc) (tr, tc)) as [nb|]; [|discriminate].
    cbn [bind] in *. rewrite Hm. cbn [bind].
    destruct (Num.ltb bs s) eqn:Hlt.
    + destruct (IH (fr, fc, tr, tc) s) as (bm' & bs' & -> & Hle & Hub & Hwhich).
      exists bm', bs'. split; [reflexivity|]. split; [num_order|]. split.
      * intros [|j] s' Hj; simpl in Hj; [injection Hj as <-; exact Hle|eauto].
      * right. destruct Hwhich as [[-> ->]|(i & Hi & Hsi & Hlt' & Hbefore)].
        -- exists 0%nat. repeat split; [exact Hlt|]. intros j s' Hj. lia.
        -- exists (S i). repeat split; [exact Hi|exact Hsi| |].
           ++ apply negb_true_iff. num_order.
           ++ intros [|j] s' Hj Hs'; simpl in Hs'.
              ** by injection Hs' as <-.
              ** apply (Hbefore j); [lia|exact Hs'].
    + destruct (IH bm bs) as (bm' & bs' & -> & Hle & Hub & Hwhich).
      exists bm', bs'. split; [reflexivity|]. split; [exact Hle|]. split.
      * intros [|j] s' Hj; simpl in Hj; [injection Hj as <-; num_order|eauto].
      * destruct Hwhich as [[-> ->]|(i & Hi & Hsi & Hlt' & Hbefore)]; [by left|].
        right. exists (S i). repeat split; [exact Hi|exact Hsi|exact Hlt'|].
        intros [|j] s' Hj Hs'; simpl in Hs'.
        -- injection Hs' as <-. apply negb_true_iff. num_order.
        -- apply (Hbefore j); [lia|exact Hs'].
Qed.

Lemma aiMove_first_best board moves :
  wf8 board ->
  getAllMoves board true = Ok moves ->
  moves <> [] ->
  exists scores best newBoard gameOver i s,
    moves = scanOrder board true
    /\ Forall2 (fun m sc => scoreOf board m = Ok sc) moves scores
    /\ aiMove board = Ok (Played best newBoard gameOver)
    /\ moves !! i = Some best
    /\ scores !! i = Some s
    /\ (forall j s', scores !! j = Some s' -> Num.leb s' s = true)
    /\ (forall j s', (j < i)%nat -> scores !! j = Some s' -> Num.ltb s' s = true)
    /\ makeMove board (best.1.1.1, best.1.1.2) (best.1.2, best.2) = Ok newBoard
    /\ (forall m, moves = [m] -> best = m).
Proof.
  intros Hwf Hmoves Hne.
  destruct (getAllMoves_wf8 board true Hwf) as (moves' & Hmoves' & Hall).
  rewrite Hmoves in Hmoves'. injection Hmoves' as <-.
  destruct (scores_total board moves Hwf Hall) as [scores Hscores].
  destruct moves as [|first rest]; [done|].
  destruct (bestLoop_first_best board _ _ Hscores first NegInf)
    as (best & bs & Hloop & _ & Hub & Hwhich).
  assert (Hidx : exists i, (first :: rest) !! i = Some best
                           /\ scores !! i = Some bs
                           /\ forall j s', (j < i)%nat -> scores !! j = Some s' ->
                                           Num.ltb s' bs = true).
  { destruct Hwhich as [[-> ->]|(i & Hi & Hsi & _ & Hbefore)]; [|eauto].
    exists 0%nat. inversion Hscores as [|? s0 ? scores' Hs0 Hrest]; subst.
    split; [reflexivity|]. split; [|intros; lia].
    simpl. f_equal. specialize (Hub 0%nat s0 eq_refl).
    pose proof (NegInf_least s0). num_order. }
  destruct Hidx as (i & Hi & Hsi & Hbefore).
  assert (Hbest : legalMove best).
  { eapply Forall_forall; [exact Hall|]. eapply list_elem_of_lookup_2, Hi. }
  destruct best as [[[fr fc] tr] tc].
  destruct (child_wf8 board Hwf _ _ _ _ Hbest) as (nb & Hnb & Hwfnb).
  destruct (getAllMoves_wf8 nb false Hwfnb) as (whiteMoves & Hwhite & _).
  destruct Hbest as [Hfrom Hto].
  destruct (wf8_inside board fr fc Hwf Hfrom) as (v1 & Hv1 & _).
  destruct (wf8_inside board tr tc Hwf Hto) as (v2 & Hv2 & _).
  exists scores, (fr, fc, tr, tc), nb,
    (match whiteMoves with [] => Some "Checkmate! AI wins!"%string | _ => None end),
    i, bs.
  split; [rewrite (getAllMoves_scan board true Hwf) in Hmoves; congruence|].
  split; [exact Hscores|]. split.
  { unfold aiMove. rewrite Hmoves. cbn [bind]. rewrite Hloop. cbn [bind].
    rewrite Hv1, Hv2. cbn [bind]. rewrite Hnb. cbn [bind]. rewrite Hwhite.
    reflexivity. }
  split; [exact Hi|]. split; [exact Hsi|]. split; [exact Hub|].
  split; [exact Hbefore|]. split; [exact Hnb|].
  intros m [= -> ->]. destruct i as [|i]; simpl in Hi; [congruence|discriminate].
Qed.

(** C7: when black has a move, the callback of [aiMove] scores every move
    of [getAllMoves] (row by row over the squares, each piece in the order of
    [getValidMoves]) by applying it and searching two plies with the full
    window and white to move, and plays the first move whose score no other
    score exceeds: every earlier move scores strictly less.  A single move is
    played whatever it scores. *)
Theorem aiMove_plays_first_best board moves :
  wf8 board ->
  getAllMoves board true = Ok moves ->
  moves <> [] ->
  exists scores best newBoard gameOver i s,
    moves = scanOrder board true
    /\ Forall2 (fun m sc => scoreOf board m = Ok sc) moves scores
    /\ aiMove board = Ok (Played best newBoard gameOver)
    /\ moves !! i = Some best
    /\ scores !! i = Some s
    /\ (forall j s', scores !! j = Some s' -> Num.leb s' s = true)
    /\ (forall j s', (j < i)%nat -> scores !! j = Some s' -> Num.ltb s' s = true)
    /\ makeMove board (best.1.1.1, best.1.1.2) (best.1.2, best.2) = Ok newBoard
    /\ (forall m, moves = [m] -> best = m).
Proof. exact (aiMove_first_best board moves). Qed.

Lemma aiMove_plays_first_best_witness :
  map (fun m => match scoreOf sparseBoard m with
                | Ok (Fin q) => Some (this q)
                | _ => None
                end) sparseBlackMoves
  = [Some (-1280 # 1)%Q; Some (-1280 # 1)%Q; Some (-1275 # 1)%Q;
     Some (-1275 # 1)%Q; Some (-1275 # 1)%Q; Some (-1285 # 1)%Q]
  /\ (exists newBoard,
        aiMove sparseBoard = Ok (Played (0, 4, 1, 3) newBoard None))
  /\ exists scores best newBoard gameOver i s,
       sparseBlackMoves = scanOrder sparseBoard true
       /\ Forall2 (fun m sc => scoreOf sparseBoard m = Ok sc)
                  sparseBlackMoves scores
       /\ aiMove sparseBoard = Ok (Played best newBoard gameOver)
       /\ sparseBlackMoves !! i = Some best
       /\ scores !! i = Some s
       /\ (forall j s', scores !! j = Some s' -> Num.leb s' s = true)
       /\ (forall j s', (j < i)%nat -> scores !! j = Some s' ->
                        Num.ltb s' s = true)
       /\ makeMove sparseBoard (best.1.1.1, best.1.1.2) (best.1.2, best.2)
          = Ok newBoard
       /\ (forall m, sparseBlackMoves = [m] -> best = m).
Proof.
  split; [vm_compute; reflexivity|]. split; [eexists; vm_compute; reflexivity|].
  apply (aiMove_plays_first_best sparseBoard sparseBlackMoves);
    [reflexivity | reflexivity | discriminate].
Defined.

(** ** Examples *)

Example knight_b1 : getValidMoves initialBoard 7 1 = Ok [(5, 0); (5, 2)].
Proof. reflexivity. Qed.

Example rook_a4 :
  getValidMoves sparseBoard 4 0
  = Ok [(3, 0); (2, 0); (5, 0); (6, 0); (7, 0); (4, 1); (4, 2); (4, 3)].
Proof. reflexivity. Qed.

Example black_opening_moves :
  getAllMoves initialBoard true
  = Ok [(0, 1, 2, 0); (0, 1, 2, 2); (0, 6, 2, 5); (0, 6, 2, 7);
        (1, 0, 2, 0); (1, 0, 3, 0); (1, 1, 2, 1); (1, 1, 3, 1);
        (1, 2, 2, 2); (1, 2, 3, 2); (1, 3, 2, 3); (1, 3, 3, 3);
        (1, 4, 2, 4); (1, 4, 3, 4); (1, 5, 2, 5); (1, 5, 3, 5);
        (1, 6, 2, 6); (1, 6, 3, 6); (1, 7, 2, 7); (1, 7, 3, 7)].
Proof. reflexivity. Qed.

Example initial_score : evaluateBoard initialBoard = Ok 0%Qc.
Proof.
  rewrite (evaluateBoard_wf8 initialBoard eq_refl). f_equal;
    apply Qc_is_canon; reflexivity.
Qed.

Example minimax_depth_0 board alpha beta maximizing :
  minimax 0 board alpha beta maximizing
  = (let* score := evaluateBoard board in Ok (Fin score)).
Proof. reflexivity. Qed.

(** After the double step of the white e-pawn the callback answers with the
    king's knight, a move [getValidMoves] generates for that knight. *)
Example reply_to_e4 :
  exists board newBoard,
    makeMove initialBoard (6, 4) (4, 4) = Ok board
    /\ aiMove board = Ok (Played (0, 6, 2, 5) newBoard None)
    /\ getValidMoves board 0 6 = Ok [(2, 5); (2, 7)].
Proof.
  eexists _, _. split; [reflexivity|]. split; [vm_compute; reflexivity|].
  reflexivity.
Qed.

(** * Further properties of the move generator *)

Lemma legalDest_freeFor board w r c :
  wf8 board -> (legalDest board w r c <-> freeFor board w r c).
Proof.
  intros Hwf. unfold freeFor. split.
  - intros Hl. split; [by eapply legalDest_inRange|].
    intros t Ht. destruct Hl as [H|(t' & H & Hne)]; rewrite H in Ht;
      [discriminate|]. by injection Ht as <-.
  - intros [Hin Hfree].
    destruct (wf8_inside board r c Hwf Hin) as (v & _ & Hv & Hd).
    unfold legalDest. rewrite Hv in *. destruct v as [| |t]; [done|by left|].
    right. exists t. split; [reflexivity|]. by apply Hfree.
Qed.

(** X1: a knight or a king may go to exactly those of its eight offset
    squares that lie on the board and hold no piece of its own side. *)
Theorem step_moves_exact board row col p :
  wf8 board ->
  getCell board row col = Ok (Pc p) ->
  stepOffsets p <> [] ->
  exists moves,
    getValidMoves board row col = Ok moves
    /\ forall sq, In sq moves <->
         exists d, In d (stepOffsets p)
                   /\ sq = (row + d.1, col + d.2)
                   /\ freeFor board (white p) sq.1 sq.2.
Proof.
  intros Hwf Hp Hk. exists (generated board row col (white p) p).
  split; [by apply getValidMoves_wf8|]. intros sq.
  assert (generated board row col (white p) p
          = concat (map (fun d => dest board (white p) (row + d.1) (col + d.2))
                        (stepOffsets p))) as ->.
  { unfold generated, stepOffsets in *. by destruct (toLowerCase p). }
  rewrite in_concat_map. split.
  - intros (d & Hd & Hsq). apply in_dest in Hsq as [-> Hl].
    exists d. split; [exact Hd|]. split; [reflexivity|].
    by apply legalDest_freeFor.
  - intros (d & Hd & -> & Hf). exists d. split; [exact Hd|].
    apply in_dest. split; [reflexivity|]. by apply legalDest_freeFor.
Qed.

Lemma step_moves_exact_witness :
  exists moves,
    getValidMoves initialBoard 7 1 = Ok moves
    /\ forall sq, In sq moves <->
         exists d, In d (stepOffsets wN)
                   /\ sq = (7 + d.1, 1 + d.2)
                   /\ freeFor initialBoard (white wN) sq.1 sq.2.
Proof.
  apply (step_moves_exact initialBoard 7 1 wN);
    [reflexivity | reflexivity | discriminate].
Defined.

(** X2: a bishop, a rook or a queen may go to exactly the squares that lie
    along one of its directions, behind nothing but empty squares, on the
    board and not held by a piece of its own side. *)
Theorem slide_moves_exact board row col p :
  wf8 board ->
  getCell board row col = Ok (Pc p) ->
  slideDirs p <> [] ->
  exists moves,
    getValidMoves board row col = Ok moves
    /\ forall sq, In sq moves <->
         exists d i, In d (slideDirs p)
                     /\ 1 <= i
                     /\ sq = (row + d.1 * i, col + d.2 * i)
                     /\ (forall j, 1 <= j < i ->
                           getCellOpt board (row + d.1 * j) (col + d.2 * j) = Null)
                     /\ freeFor board (white p) sq.1 sq.2.
Proof.
  intros Hwf Hp Hk. exists (generated board row col (white p) p).
  split; [by apply getValidMoves_wf8|]. intros sq.
  assert (Hin : inRange row col).
  { apply (wf8_defined board row col Hwf). apply getCell_Opt in Hp.
    rewrite Hp. discriminate. }
  assert (generated board row col (white p) p
          = concat (map (fun d => ray board row col (white p) d.1 d.2 (range 1 7))
                        (slideDirs p))) as ->.
  { unfold generated, slideDirs in *. by destruct (toLowerCase p). }
  rewrite in_concat_map. split.
  - intros (d & Hd & Hsq). apply in_ray in Hsq as (i & Hi & -> & Hb & Hl).
    exists d, i. split; [exact Hd|]. split; [lia|]. split; [reflexivity|].
    split; [exact Hb|]. by apply legalDest_freeFor.
  - intros (d & i & Hd & Hi & -> & Hb & Hf). exists d. split; [exact Hd|].
    apply in_ray. exists i. split; [|split; [reflexivity|split; [exact Hb|]]].
    + assert (i <= 7); [|simpl; lia].
      apply (ray_length d row col i); [by eapply slideDirs_queen|exact Hin|lia|].
      apply Hf.
    + by apply legalDest_freeFor.
Qed.

Lemma slide_moves_exact_witness :
  exists moves,
    getValidMoves sparseBoard 4 0 = Ok moves
    /\ forall sq, In sq moves <->
         exists d i, In d (slideDirs wR)
                     /\ 1 <= i
                     /\ sq = (4 + d.1 * i, 0 + d.2 * i)
                     /\ (forall j, 1 <= j < i ->
                           getCellOpt sparseBoard (4 + d.1 * j) (0 + d.2 * j) = Null)
                     /\ freeFor sparseBoard (white wR) sq.1 sq.2.
Proof.
  apply (slide_moves_exact sparseBoard 4 0 wR);
    [reflexivity | reflexivity | discriminate].
Defined.

(** ** No square twice, and never the square the piece stands on *)

Lemma NoDup_concat_map {A B} (g : A -> list B) (l : list A) :
  NoDup l ->
  (forall a, In a l -> NoDup (g a)) ->
  (forall a b x, In a l -> In b l -> In x (g a) -> In x (g b) -> a = b) ->
  NoDup (concat (map g l)).
Proof.
  intros Hl. induction Hl as [|a l Ha Hl IH]; intros Hg Hdisj; simpl.
  - constructor.
  - apply NoDup_app. split; [apply Hg; by left|]. split.
    + intros x Hx Hx'. apply list_elem_of_In in Hx, Hx'.
      apply in_concat_map in Hx' as (b & Hb & Hx').
      assert (a = b) as -> by (apply (Hdisj a b x); simpl; auto).
      by apply Ha, list_elem_of_In.
    + apply IH; [intros; apply Hg; by right|].
      intros b c x Hb Hc. apply Hdisj; by right.
Qed.

Lemma NoDup_dest board w r c : NoDup (dest board w r c).
Proof.
  unfold dest. destruct (getCellOpt board r c) as [| |t];
    [constructor|apply NoDup_singleton|].
  destruct (negb (eqb w (white t))); [apply NoDup_singleton|constructor].
Qed.

Lemma in_ray_idx board row col w dr dc idx sq :
  In sq (ray board row col w dr dc idx) ->
  exists i, In i idx /\ sq = (row + dr * i, col + dc * i).
Proof.
  induction idx as [|i idx IH]; simpl; [tauto|].
  destruct (getCellOpt board (row + dr * i) (col + dc * i)) as [| |t];
    simpl; [tauto| |].
  - intros [<-|H]; [eauto|]. destruct (IH H) as (j & Hj & ->). eauto.
  - destruct (negb (eqb w (white t))); simpl; [|tauto].
    intros [<-|[]]. eauto.
Qed.

Lemma NoDup_ray board row col w d idx :
  In d queenDirs -> NoDup idx ->
  NoDup (ray board row col w d.1 d.2 idx).
Proof.
  intros Hd Hidx. induction Hidx as [|i idx Hi Hidx IH]; simpl; [constructor|].
  destruct (getCellOpt board (row + d.1 * i) (col + d.2 * i)) as [| |t];
    [constructor| |].
  - constructor; [|exact IH]. intros H. apply list_elem_of_In in H.
    apply in_ray_idx in H as (j & Hj & Heq). injection Heq as H1 H2.
    assert (i = j) as ->; [|by apply Hi, list_elem_of_In].
    clear -Hd H1 H2. unfold queenDirs in Hd. simpl in Hd.
    repeat (destruct Hd as [<-|Hd]; [simpl in *; lia|]). contradiction.
  - destruct (negb (eqb w (white t))); [apply NoDup_singleton|constructor].
Qed.

Lemma NoDup_range lo n : NoDup (range lo n).
Proof.
  unfold range. apply NoDup_fmap_2; [intros x y; lia|apply NoDup_seq].
Qed.

Lemma NoDup_generated board row col w p :
  NoDup (generated board row col w p).
Proof.
  assert (Hstep : forall l, NoDup l ->
    NoDup (concat (map (fun d => dest board w (row + d.1) (col + d.2)) l))).
  { intros l Hl. apply NoDup_concat_map; [exact Hl|intros; apply NoDup_dest|].
    intros [a1 a2] [b1 b2] x _ _ Ha Hb.
    apply in_dest in Ha as [-> _]. apply in_dest in Hb as [Hb _].
    injection Hb as H1 H2. simpl in *. f_equal; lia. }
  assert (Hslide : forall l, NoDup l -> (forall d, In d l -> In d queenDirs) ->
    NoDup (concat (map (fun d => ray board row col w d.1 d.2 (range 1 7)) l))).
  { intros l Hl Hq. apply NoDup_concat_map; [exact Hl| |].
    - intros d Hd. apply NoDup_ray; [by apply Hq|apply NoDup_range].
    - intros a b x Ha Hb Hxa Hxb.
      apply in_ray_idx in Hxa as (i & Hi & ->).
      apply in_ray_idx in Hxb as (j & Hj & Heq). injection Heq as H1 H2.
      apply in_range in Hi, Hj.
      destruct (rays_disjoint a b i j) as [E _]; auto; lia. }
  unfold generated. destruct (toLowerCase p); try constructor.
  - apply Hstep. apply (bool_decide_unpack _). by vm_compute.
  - apply Hslide; [|tauto]. apply (bool_decide_unpack _). by vm_compute.
  - apply Hslide; [|unfold rookDirs, queenDirs; simpl; tauto]. apply (bool_decide_unpack _). by vm_compute.
  - apply Hslide; [|unfold bishopDirs, queenDirs; simpl; tauto]. apply (bool_decide_unpack _). by vm_compute.
  - apply Hstep. apply (bool_decide_unpack _). by vm_compute.
  - apply NoDup_app. split; [|split; [|apply NoDup_app; split; [|split]]].
    + unfold pawnForward.
      destruct (isNull (getCellOpt board (row + pawnDir w) col)); [|constructor].
      destruct ((row =? pawnStart w)
                && isNull (getCellOpt board (row + 2 * pawnDir w) col));
        [|apply NoDup_singleton].
      constructor; [|apply NoDup_singleton].
      intros H. apply list_elem_of_In in H as [H|[]]. injection H as H.
      unfold pawnDir in H. destruct w; lia.
    + intros x Hx Hx'. apply list_elem_of_In in Hx, Hx'.
      apply in_app_iff in Hx'. rewrite !in_pawnTakes in Hx'.
      apply in_pawnForward in Hx as [[-> _]|(-> & _)];
        destruct Hx' as [[H _]|[H _]]; injection H; intros; lia.
    + unfold pawnTakes.
      destruct (getCellOpt board (row + pawnDir w) (col + -1)) as [| |t];
        try constructor.
      destruct (negb (eqb w (white t))); [apply NoDup_singleton|constructor].
    + intros x Hx Hx'. apply list_elem_of_In in Hx, Hx'.
      apply in_pawnTakes in Hx as [-> _]. apply in_pawnTakes in Hx' as [H _].
      injection H as H. lia.
    + unfold pawnTakes.
      destruct (getCellOpt board (row + pawnDir w) (col + 1)) as [| |t];
        try constructor.
      destruct (negb (eqb w (white t))); [apply NoDup_singleton|constructor].
Qed.

(** X3: the list [getValidMoves] returns for a square of an 8x8 board has
    no square twice and never holds the square the piece stands on. *)
Theorem getValidMoves_NoDup_not_origin board row col :
  wf8 board -> inRange row col ->
  exists moves,
    getValidMoves board row col = Ok moves
    /\ NoDup moves
    /\ ~ In (row, col) moves.
Proof.
  intros Hwf Hin.
  destruct (wf8_inside board row col Hwf Hin) as (v & Hv & Hv' & Hd).
  destruct v as [| |p]; [done| |].
  - exists []. split; [unfold getValidMoves; by rewrite Hv|].
    split; [constructor|intros []].
  - exists (generated board row col (white p) p).
    split; [by apply getValidMoves_wf8|]. split; [apply NoDup_generated|].
    intros H. apply generated_legal in H; [|exact Hwf]. simpl in H.
    destruct H as [H|(t & H & Hne)]; rewrite Hv' in H; [discriminate|].
    injection H as <-. by apply Hne.
Qed.

Lemma getValidMoves_NoDup_not_origin_witness :
  exists moves,
    getValidMoves sparseBoard 4 0 = Ok moves
    /\ NoDup moves
    /\ ~ In (4, 0) moves.
Proof.
  apply (getValidMoves_NoDup_not_origin sparseBoard 4 0);
    [reflexivity | unfold inRange; lia].
Defined.

(** ** The moves of a side *)

Lemma in_movesFromSquare board forBlack r c m :
  In m (movesFromSquare board forBlack r c) <->
  exists p t, getCellOpt board r c = Pc p
              /\ white p = negb forBlack
              /\ In t (generated board r c (white p) p)
              /\ m = (r, c, t.1, t.2).
Proof.
  unfold movesFromSquare. destruct (getCellOpt board r c) as [| |p].
  - split; [intros []|]. intros (? & ? & H & _). discriminate.
  - split; [intros []|]. intros (? & ? & H & _). discriminate.
  - assert (Hside : (if forBlack then negb (white p) else white p) = true
                    <-> white p = negb forBlack)
      by (destruct forBlack, (white p); simpl; intuition congruence).
    destruct (if forBlack then negb (white p) else white p).
    + rewrite in_map_iff. split.
      * intros (t & <- & Ht). exists p, t. by rewrite <- Hside.
      * intros (p' & t & [= <-] & _ & Ht & ->). eauto.
    + split; [intros []|]. intros (p' & t & [= <-] & Hs & _).
      apply Hside in Hs. discriminate.
Qed.

Lemma in_scanOrder board forBlack m :
  In m (scanOrder board forBlack) <->
  exists r c, 0 <= r <= 7 /\ 0 <= c <= 7
              /\ In m (movesFromSquare board forBlack r c).
Proof.
  unfold scanOrder. rewrite in_flat_map. split.
  - intros (r & Hr & H). apply in_flat_map in H as (c & Hc & H).
    apply in_range in Hr, Hc. exists r, c. repeat split; try lia. exact H.
  - intros (r & c & Hr & Hc & H). exists r. split; [apply in_range; lia|].
    apply in_flat_map. exists c. split; [apply in_range; lia|exact H].
Qed.

Lemma NoDup_scanOrder board forBlack : NoDup (scanOrder board forBlack).
Proof.
  unfold scanOrder. rewrite flat_map_concat_map.
  apply NoDup_concat_map; [apply NoDup_range| |].
  - intros r _. rewrite flat_map_concat_map.
    apply NoDup_concat_map; [apply NoDup_range| |].
    + intros c _. unfold movesFromSquare.
      destruct (getCellOpt board r c) as [| |p]; try constructor.
      destruct (if forBlack then negb (white p) else white p); [|constructor].
      apply NoDup_fmap_2; [|apply NoDup_generated].
      intros [a1 a2] [b1 b2] [= -> ->]. reflexivity.
    + intros a b x _ _ Ha Hb.
      apply in_movesFromSquare in Ha as (? & ? & _ & _ & _ & ->).
      apply in_movesFromSquare in Hb as (? & ? & _ & _ & _ & Heq).
      congruence.
  - intros a b x _ _ Ha Hb.
    apply in_flat_map in Ha as (c & _ & Ha), Hb as (c' & _ & Hb).
    apply in_movesFromSquare in Ha as (? & ? & _ & _ & _ & ->).
    apply in_movesFromSquare in Hb as (? & ? & _ & _ & _ & Heq).
    congruence.
Qed.

Lemma getAllMoves_members board forBlack fr fc tr tc :
  wf8 board ->
  In (fr, fc, tr, tc) (scanOrder board forBlack) <->
  exists p dests,
    getCell board fr fc = Ok (Pc p)
    /\ white p = negb forBlack
    /\ getValidMoves board fr fc = Ok dests
    /\ In (tr, tc) dests.
Proof.
  intros Hwf. rewrite in_scanOrder. split.
  - intros (r & c & Hr & Hc & H).
    apply in_movesFromSquare in H as (p & t & Hp & Hs & Ht & [= -> -> -> ->]).
    destruct (wf8_inside board r c Hwf (conj Hr Hc)) as (v & Hv & Hv' & _).
    rewrite Hp in Hv'. subst v. exists p, (generated board r c (white p) p).
    repeat split; [exact Hv|exact Hs|by apply getValidMoves_wf8|].
    by destruct t.
  - intros (p & dests & Hp & Hs & Hd & Ht).
    rewrite (getValidMoves_wf8 board fr fc p Hwf Hp) in Hd. injection Hd as <-.
    assert (Hin : inRange fr fc).
    { apply (wf8_defined board fr fc Hwf). apply getCell_Opt in Hp.
      rewrite Hp. discriminate. }
    destruct Hin as [Hr Hc]. exists fr, fc. split; [exact Hr|]. split; [exact Hc|].
    apply in_movesFromSquare. exists p, (tr, tc).
    repeat split; [by apply getCell_Opt|exact Hs|exact Ht].
Qed.

(** X4: on an 8x8 board [getAllMoves] returns, without repetition, exactly
    the moves that take a piece of the side asked for to one of the squares
    [getValidMoves] returns for it. *)
Theorem getAllMoves_exact board forBlack :
  wf8 board ->
  exists moves,
    getAllMoves board forBlack = Ok moves
    /\ NoDup moves
    /\ forall fr fc tr tc,
         In (fr, fc, tr, tc) moves <->
         exists p dests,
           getCell board fr fc = Ok (Pc p)
           /\ white p = negb forBlack
           /\ getValidMoves board fr fc = Ok dests
           /\ In (tr, tc) dests.
Proof.
  intros Hwf. exists (scanOrder board forBlack).
  split; [by apply getAllMoves_scan|]. split; [apply NoDup_scanOrder|].
  intros. by apply getAllMoves_members.
Qed.

Lemma getAllMoves_exact_witness :
  exists moves,
    getAllMoves sparseBoard true = Ok moves
    /\ NoDup moves
    /\ forall fr fc tr tc,
         In (fr, fc, tr, tc) moves <->
         exists p dests,
           getCell sparseBoard fr fc = Ok (Pc p)
           /\ white p = negb true
           /\ getValidMoves sparseBoard fr fc = Ok dests
           /\ In (tr, tc) dests.
Proof.
  apply (getAllMoves_exact sparseBoard true). reflexivity.
Defined.

(** * Further properties of the search and of the automated side *)

(** X5: for any window with [alpha < beta], the search returns on every 8x8
    board, and its result bounds the minimax value of the position: from
    above when the result is at most [alpha], from below when it is at least
    [beta], and it is the value itself strictly inside the window. *)
Theorem alpha_beta_window_sound depth board alpha beta maximizing :
  wf8 board ->
  Num.ltb alpha beta = true ->
  exists r v,
    minimax depth board alpha beta maximizing = Ok r
    /\ plainMinimax depth board maximizing = Ok v
    /\ (Num.leb r alpha = true -> Num.leb v r = true)
    /\ (Num.leb beta r = true -> Num.leb r v = true)
    /\ (Num.ltb alpha r = true -> Num.ltb r beta = true -> v = r).
Proof. exact (minimax_window depth board alpha beta maximizing). Qed.

Lemma alpha_beta_window_sound_witness :
  exists r v,
    minimax 2 sparseBoard (Fin 0) (Fin (num 50)) true = Ok r
    /\ plainMinimax 2 sparseBoard true = Ok v
    /\ (Num.leb r (Fin 0) = true -> Num.leb v r = true)
    /\ (Num.leb (Fin (num 50)) r = true -> Num.leb r v = true)
    /\ (Num.ltb (Fin 0) r = true -> Num.ltb r (Fin (num 50)) = true -> v = r).
Proof.
  apply (alpha_beta_window_sound 2 sparseBoard (Fin 0) (Fin (num 50)) true);
    reflexivity.
Defined.

Lemma bestLoop_in board moves :
  forall bm bs bm' bs',
    bestLoop board moves bm bs = Ok (bm', bs') -> bm' = bm \/ In bm' moves.
Proof.
  induction moves as [|[[[fr fc] tr] tc] moves IH]; intros bm bs bm' bs';
    cbn [bestLoop].
  - intros [= -> _]. by left.
  - destruct (makeMove board (fr, fc) (tr, tc)) as [nb|]; [|discriminate].
    cbn [bind]. destruct (minimax 2 nb NegInf PosInf false) as [s|]; [|discriminate].
    cbn [bind].
    destruct (Num.ltb bs s); intros H; apply IH in H as [->|H]; simpl; auto.
Qed.

(** What a run of the callback that played a move went through. *)
Lemma aiMove_Played board best newBoard gameOver :
  aiMove board = Ok (Played best newBoard gameOver) ->
  exists moves whiteMoves,
    getAllMoves board true = Ok moves
    /\ In best moves
    /\ makeMove board (best.1.1.1, best.1.1.2) (best.1.2, best.2) = Ok newBoard
    /\ getAllMoves newBoard false = Ok whiteMoves
    /\ gameOver = match whiteMoves with
                  | [] => Some "Checkmate! AI wins!"%string
                  | _ => None
                  end.
Proof.
  unfold aiMove. destruct (getAllMoves board true) as [moves|]; [|discriminate].
  cbn [bind]. destruct moves as [|first rest]; [discriminate|].
  destruct (bestLoop board (first :: rest) first NegInf) as [[bm bs]|] eqn:Hloop;
    [|discriminate].
  cbn [bind]. destruct bm as [[[fr fc] tr] tc].
  destruct (getCell board fr fc); [|discriminate]. cbn [bind].
  destruct (getCell board tr tc); [|discriminate]. cbn [bind].
  destruct (makeMove board (fr, fc) (tr, tc)) as [nb|] eqn:Hnb; [|discriminate].
  cbn [bind]. destruct (getAllMoves nb false) as [wm|] eqn:Hwm; [|discriminate].
  cbn [bind]. intros [= <- <- <-]. exists (first :: rest), wm.
  split; [reflexivity|]. split; [|auto].
  apply bestLoop_in in Hloop as [->|H]; [by left|exact H].
Qed.

Lemma aiMove_total board :
  wf8 board -> exists out, aiMove board = Ok out.
Proof.
  intros Hwf. destruct (getAllMoves_wf8 board true Hwf) as (moves & Hm & _).
  destruct moves as [|m moves].
  - exists (GameOver "Checkmate! You win!"). unfold aiMove. by rewrite Hm.
  - destruct (aiMove_first_best board (m :: moves) Hwf Hm)
      as (_ & best & nb & go & _ & _ & _ & _ & H & _); [discriminate|eauto].
Qed.

(** X6: on an 8x8 board the callback of [aiMove] does not throw.  When it
    plays, it has moved a black piece to a square [getValidMoves] returns
    for that piece, the new board is 8x8 again, and the game is declared won
    by the AI exactly when white has no move on the new board.  When it does
    not play, black had no move. *)
Theorem aiMove_plays_a_generated_move board :
  wf8 board ->
  exists out,
    aiMove board = Ok out
    /\ match out with
       | GameOver message =>
           message = "Checkmate! You win!"%string
           /\ getAllMoves board true = Ok []
       | Played (fr, fc, tr, tc) newBoard gameOver =>
           (exists p dests,
              getCell board fr fc = Ok (Pc p)
              /\ white p = false
              /\ getValidMoves board fr fc = Ok dests
              /\ In (tr, tc) dests)
           /\ makeMove board (fr, fc) (tr, tc) = Ok newBoard
           /\ wf8 newBoard
           /\ (gameOver = Some "Checkmate! AI wins!"%string
               /\ getAllMoves newBoard false = Ok []
               \/ gameOver = None
                  /\ exists m rest, getAllMoves newBoard false = Ok (m :: rest))
       end.
Proof.
  intros Hwf. destruct (aiMove_total board Hwf) as [out Hout].
  exists out. split; [exact Hout|]. destruct out as [message|best nb go].
  - unfold aiMove in Hout.
    destruct (getAllMoves board true) as [[|first rest]|]; try discriminate.
    + by injection Hout as <-.
    + cbn [bind] in Hout.
      destruct (bestLoop board (first :: rest) first NegInf) as [[[[[? ?] ?] ?] ?]|];
        [|discriminate].
      cbn [bind] in Hout.
      repeat match type of Hout with
             | bind ?e _ = _ => destruct e; [cbn [bind] in Hout|discriminate]
             end.
      discriminate.
  - apply aiMove_Played in Hout as (moves & wm & Hm & Hin & Hmv & Hwm & ->).
    destruct best as [[[fr fc] tr] tc]. simpl in Hmv.
    rewrite (getAllMoves_scan board true Hwf) in Hm. injection Hm as <-.
    apply (getAllMoves_members board true fr fc tr tc Hwf) in Hin.
    split; [exact Hin|]. split; [exact Hmv|].
    destruct Hin as (p & dests & Hp & _ & Hd & Ht).
    rewrite (getValidMoves_wf8 board fr fc p Hwf Hp) in Hd. injection Hd as <-.
    assert (Hlegal : legalMove (fr, fc, tr, tc)).
    { split.
      - apply (wf8_defined board fr fc Hwf). apply getCell_Opt in Hp.
        rewrite Hp. discriminate.
      - apply (generated_inRange board fr fc (white p) p (tr, tc) Hwf Ht). }
    destruct (child_wf8 board Hwf fr fc tr tc Hlegal) as (nb' & Hnb' & Hwf').
    rewrite Hmv in Hnb'. injection Hnb' as <-. split; [exact Hwf'|].
    destruct wm as [|m rest]; [left|right]; eauto.
Qed.

Lemma aiMove_plays_a_generated_move_witness :
  exists out,
    aiMove oneMoveBoard = Ok out
    /\ match out with
       | GameOver message =>
           message = "Checkmate! You win!"%string
           /\ getAllMoves oneMoveBoard true = Ok []
       | Played (fr, fc, tr, tc) newBoard gameOver =>
           (exists p dests,
              getCell oneMoveBoard fr fc = Ok (Pc p)
              /\ white p = false
              /\ getValidMoves oneMoveBoard fr fc = Ok dests
              /\ In (tr, tc) dests)
           /\ makeMove oneMoveBoard (fr, fc) (tr, tc) = Ok newBoard
           /\ wf8 newBoard
           /\ (gameOver = Some "Checkmate! AI wins!"%string
               /\ getAllMoves newBoard false = Ok []
               \/ gameOver = None
                  /\ exists m rest, getAllMoves newBoard false = Ok (m :: rest))
       end.
Proof.
  apply (aiMove_plays_a_generated_move oneMoveBoard). reflexivity.
Defined.

(** * Further properties of [makeMove] *)

Lemma getRow_spread (board : list Row.t) r :
  getRow (map Row.spread board) r = Row.spread <$> getRow board r.
Proof.
  unfold getRow. destruct (0 <=? r); [|reflexivity]. apply list_lookup_fmap.
Qed.

Lemma setCell_row board r c v board' r' :
  setCell board r c v = Ok board' ->
  getRow board' r' = None <-> getRow board r' = None.
Proof.
  unfold setCell. destruct (getRow board r) as [row|] eqn:Hrow; [|discriminate].
  intros [= <-]. rewrite (getRow_insert _ _ _ _ _ Hrow).
  destruct (Z.eqb_spec r r') as [<-|]; [|reflexivity].
  rewrite Hrow. split; discriminate.
Qed.

Lemma setCell_throws board r c v :
  setCell board r c v = TypeError <-> getRow board r = None.
Proof. unfold setCell. destruct (getRow board r); split; congruence. Qed.

(** X7: on any board, [makeMove] throws exactly when [board[from[0]]] or
    [board[to[0]]] is [undefined]; no column, no piece and no empty square
    makes it throw. *)
Theorem makeMove_throws_iff board from to :
  makeMove board from to = TypeError
  <-> getRow board from.1 = None \/ getRow board to.1 = None.
Proof.
  unfold makeMove, getCell. rewrite getRow_spread.
  assert (Hs : forall r, getRow (map Row.spread board) r = None
                         <-> getRow board r = None).
  { intros r. rewrite getRow_spread. destruct (getRow board r); split; done. }
  destruct (getRow board from.1) as [row|] eqn:Hfrom; simpl; [|tauto].
  set (piece := Row.get (Row.spread row) from.2).
  destruct (setCell (map Row.spread board) to.1 to.2 piece) as [b1|] eqn:H1;
    cbn [bind].
  - assert (Hto : getRow board to.1 <> None).
    { intros H. apply Hs in H.
      apply (proj2 (setCell_throws _ to.1 to.2 piece)) in H.
      rewrite H in H1. discriminate. }
    assert (Hf1 : getRow b1 from.1 <> None).
    { rewrite (setCell_row _ _ _ _ _ from.1 H1), Hs, Hfrom. discriminate. }
    destruct (setCell b1 from.1 from.2 Null) as [b2|] eqn:H2;
      [|by apply (proj1 (setCell_throws _ _ _ _)) in H2].
    cbn [bind].
    assert (Ht2 : getRow b2 to.1 <> None).
    { rewrite (setCell_row _ _ _ _ _ to.1 H2), (setCell_row _ _ _ _ _ to.1 H1), Hs.
      exact Hto. }
    split; [|intros [H|H]; [discriminate|contradiction]].
    destruct (isPawn piece && ((to.1 =? 0) || (to.1 =? 7))) eqn:Hpr;
      [|discriminate].
    apply andb_true_iff in Hpr as [Hp _].
    destruct piece as [| |p]; try discriminate. cbn [isWhite bind].
    intros H. by apply (proj1 (setCell_throws _ _ _ _)) in H.
  - apply (proj1 (setCell_throws _ _ _ _)), Hs in H1. split; auto.
Qed.

(** * Further properties of the evaluation *)

Lemma specScore_squares board :
  specScore board
  = sumQc (map (fun sq : Square => squareScore board sq.1 sq.2) squares).
Proof.
  rewrite specScore_code. unfold occupied. rewrite sumQc_plus, sumQc_flat_map.
  apply sumQc_ext. intros sq _. unfold squareScore.
  destruct (getCellOpt board sq.1 sq.2); simpl; ring.
Qed.

Lemma NoDup_squares : NoDup squares.
Proof. apply (bool_decide_unpack _). by vm_compute. Qed.

Lemma in_squares r c : In (r, c) squares <-> inRange r c.
Proof.
  unfold squares. rewrite in_flat_map. split.
  - intros (r' & Hr & H). apply in_map_iff in H as (c' & [= -> ->] & Hc).
    apply in_range in Hr, Hc. unfold inRange. lia.
  - intros [Hr Hc]. exists r. split; [apply in_range; lia|].
    apply in_map_iff. exists c. split; [reflexivity|apply in_range; lia].
Qed.

(** A sum over a list without repetition, when one term changes. *)
Lemma sumQc_update {A} (f g : A -> Qc) (l : list A) (a : A) :
  NoDup l -> In a l ->
  (forall x, In x l -> x <> a -> g x = f x) ->
  sumQc (map g l) = (sumQc (map f l) - f a + g a)%Qc.
Proof.
  intros Hl. induction Hl as [|x l Hx Hl IH]; intros Ha Hfg; [destruct Ha|].
  simpl. destruct Ha as [->|Ha].
  - rewrite (sumQc_ext g f l).
    + ring.
    + intros y Hy. apply Hfg; [by right|].
      intros ->. by apply Hx, list_elem_of_In.
  - rewrite IH; [|exact Ha|intros y Hy; apply Hfg; by right].
    rewrite (Hfg x); [ring|by left|].
    intros ->. by apply Hx, list_elem_of_In.
Qed.

(** ... and when two terms change. *)
Lemma sumQc_update2 {A} `{EqDecision A} (f g : A -> Qc) (l : list A) (a b : A) :
  NoDup l -> In a l -> In b l -> a <> b ->
  (forall x, In x l -> x <> a -> x <> b -> g x = f x) ->
  sumQc (map g l) = (sumQc (map f l) - f a - f b + g a + g b)%Qc.
Proof.
  intros Hl Ha Hb Hab Hfg.
  set (h := fun x => if decide (x = a) then g a else f x).
  rewrite (sumQc_update h g l b Hl Hb).
  - rewrite (sumQc_update f h l a Hl Ha).
    + unfold h. rewrite decide_True by reflexivity.
      rewrite decide_False by congruence. ring.
    + intros x _ Hx. unfold h. by rewrite decide_False.
  - intros x Hx Hxb. unfold h. destruct (decide (x = a)) as [->|Hxa];
      [reflexivity|by apply Hfg].
Qed.

Lemma squareScore_cell board board' r c :
  getCell board' r c = getCell board r c ->
  wf8 board -> wf8 board' -> inRange r c ->
  squareScore board' r c = squareScore board r c.
Proof.
  intros H Hwf Hwf' Hin. unfold squareScore.
  destruct (wf8_inside board r c Hwf Hin) as (v & Hv & -> & _).
  destruct (wf8_inside board' r c Hwf' Hin) as (v' & Hv' & -> & _).
  rewrite Hv, Hv' in H. by injection H as ->.
Qed.

Lemma score_after_move board from to newBoard :
  wf8 board ->
  inRange from.1 from.2 ->
  inRange to.1 to.2 ->
  from <> to ->
  makeMove board from to = Ok newBoard ->
  exists s s',
    evaluateBoard board = Ok s
    /\ evaluateBoard newBoard = Ok s'
    /\ s' = (s - squareScore board from.1 from.2 - squareScore board to.1 to.2
             + squareScore newBoard to.1 to.2)%Qc.
Proof.
  intros Hwf Hfrom Hto Hne Hmv.
  destruct (makeMove_wf8 board from to Hwf Hfrom Hto)
    as (piece & nb & Hpiece & _ & Hmv' & Hwf' & Hcells).
  rewrite Hmv in Hmv'. injection Hmv' as <-.
  exists (specScore board), (specScore newBoard).
  split; [by apply evaluateBoard_wf8|]. split; [by apply evaluateBoard_wf8|].
  rewrite !specScore_squares.
  rewrite (sumQc_update2 (fun sq : Square => squareScore board sq.1 sq.2)
             (fun sq : Square => squareScore newBoard sq.1 sq.2)
             squares from to NoDup_squares).
  - assert (squareScore newBoard from.1 from.2 = 0%Qc) as ->; [|ring].
    unfold squareScore.
    assert (getCell newBoard from.1 from.2 = Ok Null) as H.
    { rewrite Hcells.
      assert (onSquare to from.1 from.2 = false) as ->.
      { destruct (onSquare to from.1 from.2) eqn:E; [|reflexivity].
        apply onSquare_spec in E. destruct from; simpl in *. congruence. }
      rewrite andb_false_r.
      by rewrite (proj2 (onSquare_spec from from.1 from.2)) by (by destruct from). }
    by rewrite (getCell_Opt _ _ _ _ H).
  - destruct from. by apply in_squares.
  - destruct to. by apply in_squares.
  - exact Hne.
  - intros [r c] Hin Hnf Hnt. simpl. apply in_squares in Hin.
    apply squareScore_cell; [|exact Hwf|exact Hwf'|exact Hin].
    rewrite Hcells.
    assert (onSquare from r c = false) as ->.
    { destruct (onSquare from r c) eqn:E; [|reflexivity].
      apply onSquare_spec in E. congruence. }
    assert (onSquare to r c = false) as ->.
    { destruct (onSquare to r c) eqn:E; [|reflexivity].
      apply onSquare_spec in E. congruence. }
    by rewrite andb_false_r.
Qed.

(** X8: the score after a move differs from the score before it by the two
    squares of the move only: what [from] and [to] added is taken away and
    what the piece adds on [to] is put in. *)
Theorem evaluateBoard_after_move board from to newBoard :
  wf8 board ->
  inRange from.1 from.2 ->
  inRange to.1 to.2 ->
  from <> to ->
  makeMove board from to = Ok newBoard ->
  exists s s',
    evaluateBoard board = Ok s
    /\ evaluateBoard newBoard = Ok s'
    /\ s' = (s - squareScore board from.1 from.2 - squareScore board to.1 to.2
             + squareScore newBoard to.1 to.2)%Qc.
Proof. exact (score_after_move board from to newBoard). Qed.

Lemma evaluateBoard_after_move_witness :
  exists s s',
    evaluateBoard initialBoard = Ok s
    /\ evaluateBoard afterE4 = Ok s'
    /\ s' = (s - squareScore initialBoard 6 4 - squareScore initialBoard 4 4
             + squareScore afterE4 4 4)%Qc.
Proof.
  apply (evaluateBoard_after_move initialBoard (6, 4) (4, 4) afterE4);
    [reflexivity | simpl; unfold inRange; lia | simpl; unfold inRange; lia
    | discriminate | reflexivity].
Defined.

Lemma centerBonus_bounds r c :
  inRange r c -> (0 <= centerBonus r c)%Qc /\ (centerBonus r c <= num 30)%Qc.
Proof.
  intros [Hr Hc].
  assert (In r (range 0 8)) as Hr' by (apply in_range; lia).
  assert (In c (range 0 8)) as Hc' by (apply in_range; lia).
  clear Hr Hc. unfold range in *. simpl in Hr', Hc'.
  repeat (destruct Hr' as [<-|Hr']; [|]); try contradiction;
    repeat (destruct Hc' as [<-|Hc']; [|]); try contradiction;
    split; apply Qle_bool_iff; vm_compute; reflexivity.
Qed.

Lemma materialValue_min k : (num 100 <= materialValue k)%Qc.
Proof. destruct k; apply Qle_bool_iff; vm_compute; reflexivity. Qed.

Lemma landed_value p to :
  exists l, landed (Pc p) to = Pc l
            /\ white l = white p
            /\ (materialValue (kindOf p) <= materialValue (kindOf l))%Qc.
Proof.
  unfold landed. destruct (promotes (Pc p) to) eqn:Hpr.
  - unfold promotes in Hpr. apply andb_true_iff in Hpr as [Hp _]. simpl in Hp.
    apply bool_decide_eq_true in Hp.
    destruct p; try discriminate; eexists; (split; [reflexivity|]);
      (split; [reflexivity|]); apply Qle_bool_iff; vm_compute; reflexivity.
  - exists p. split; [reflexivity|]. split; [reflexivity|apply Qcle_refl].
Qed.

Lemma gain_bound (vp vl vt bt bf : Qc) :
  (vp <= vl)%Qc -> (num 100 <= vt)%Qc -> (0 <= bt)%Qc -> (bf <= num 30)%Qc ->
  (num 70 <= vl - vp + vt + (bt + bt) - bf)%Qc.
Proof.
  unfold num, Qcle, Qcminus, Qcplus, Qcopp. unfold Q2Qc. cbn [this].
  rewrite !Qred_correct. unfold inject_Z. intros. lra.
Qed.

(** X9: a capture moves the score by at least 70 towards the side that
    captures: up when black takes a white piece, down when white takes a
    black one, whatever the two pieces and the two squares. *)
Theorem capture_moves_score_by_70 board from to p t newBoard :
  wf8 board ->
  getCell board from.1 from.2 = Ok (Pc p) ->
  getCell board to.1 to.2 = Ok (Pc t) ->
  white t <> white p ->
  makeMove board from to = Ok newBoard ->
  exists s s' gain,
    evaluateBoard board = Ok s
    /\ evaluateBoard newBoard = Ok s'
    /\ (num 70 <= gain)%Qc
    /\ s' = if white p then (s - gain)%Qc else (s + gain)%Qc.
Proof.
  intros Hwf Hp Ht Hside Hmv.
  assert (Hfrom : inRange from.1 from.2).
  { apply (wf8_defined board _ _ Hwf). apply getCell_Opt in Hp.
    rewrite Hp. discriminate. }
  assert (Hto : inRange to.1 to.2).
  { apply (wf8_defined board _ _ Hwf). apply getCell_Opt in Ht.
    rewrite Ht. discriminate. }
  assert (Hne : from <> to).
  { intros ->. rewrite Hp in Ht. injection Ht as ->. by apply Hside. }
  destruct (score_after_move board from to newBoard Hwf Hfrom Hto Hne Hmv)
    as (s & s' & Hs & Hs' & ->).
  destruct (makeMove_wf8 board from to Hwf Hfrom Hto)
    as (piece & nb & Hpiece & _ & Hmv' & _ & Hcells).
  rewrite Hmv in Hmv'. injection Hmv' as <-.
  rewrite Hp in Hpiece. injection Hpiece as <-.
  destruct (landed_value p to) as (l & Hl & Hwl & Hvl).
  assert (Hnew : getCell newBoard to.1 to.2 = Ok (Pc l)).
  { rewrite Hcells, <- Hl.
    rewrite (proj2 (onSquare_spec to to.1 to.2)) by (by destruct to).
    assert (onSquare from to.1 to.2 = false) as ->.
    { destruct (onSquare from to.1 to.2) eqn:E; [|reflexivity].
      apply onSquare_spec in E. destruct to; simpl in *. congruence. }
    rewrite andb_true_r. unfold landed. by destruct (promotes (Pc p) to). }
  destruct (centerBonus_bounds _ _ Hfrom) as [_ Hbf].
  destruct (centerBonus_bounds _ _ Hto) as [Hbt _].
  eexists s, _,
    (materialValue (kindOf l) - materialValue (kindOf p)
     + materialValue (kindOf t)
     + (centerBonus to.1 to.2 + centerBonus to.1 to.2)
     - centerBonus from.1 from.2)%Qc.
  split; [exact Hs|]. split; [exact Hs'|].
  split; [apply gain_bound; auto using materialValue_min|].
  unfold squareScore.
  rewrite (getCell_Opt _ _ _ _ Hp), (getCell_Opt _ _ _ _ Ht),
    (getCell_Opt _ _ _ _ Hnew).
  unfold signed. rewrite Hwl.
  destruct (white p), (white t); try (by exfalso; apply Hside); ring.
Qed.

Lemma capture_moves_score_by_70_witness :
  exists s s' gain,
    evaluateBoard sparseBoard = Ok s
    /\ evaluateBoard afterRxd4 = Ok s'
    /\ (num 70 <= gain)%Qc
    /\ s' = if white wR then (s - gain)%Qc else (s + gain)%Qc.
Proof.
  apply (capture_moves_score_by_70 sparseBoard (4, 0) (4, 3) wR bp afterRxd4);
    [reflexivity | reflexivity | reflexivity | discriminate | reflexivity].
Defined.

(** * Square colours *)

Lemma isLight_even r c : isLight r c = Z.even (r + c).
Proof.
  unfold isLight. destruct (Z.even (r + c)) eqn:E.
  - apply Z.eqb_eq. apply Z.even_spec in E as [k ->].
    rewrite Z.mul_comm. apply Z.rem_mul. lia.
  - apply Z.eqb_neq. intros H. apply Z.rem_divide in H; [|lia].
    destruct H as [k Hk]. rewrite Hk, Z.mul_comm, Z.even_mul in E.
    discriminate.
Qed.

(** X10: a bishop stays on squares of the colour it stands on: every square
    [getValidMoves] returns for it is light exactly when its own is. *)
Theorem bishop_keeps_its_colour board row col p r c moves :
  wf8 board ->
  getCell board row col = Ok (Pc p) ->
  toLowerCase p = bb ->
  getValidMoves board row col = Ok moves ->
  In (r, c) moves ->
  isLight r c = isLight row col.
Proof.
  intros Hwf Hp Hk Hmoves Hin.
  rewrite (getValidMoves_wf8 board row col p Hwf Hp) in Hmoves.
  injection Hmoves as <-. unfold generated in Hin. rewrite Hk in Hin.
  apply in_concat_map in Hin as (d & Hd & Hin).
  apply in_ray_idx in Hin as (i & _ & [= -> ->]).
  rewrite !isLight_even. unfold bishopDirs in Hd. simpl in Hd.
  destruct Hd as [<-|[<-|[<-|[<-|[]]]]]; simpl.
  - replace (row + -1 * i + (col + -1 * i)) with (row + col + 2 * (- i)) by lia.
    apply Z.even_add_mul_2.
  - f_equal. lia.
  - f_equal. lia.
  - replace (row + 1 * i + (col + 1 * i)) with (row + col + 2 * i) by lia.
    apply Z.even_add_mul_2.
Qed.

Lemma bishop_keeps_its_colour_witness :
  isLight 4 2 = isLight 7 5.
Proof.
  apply (bishop_keeps_its_colour afterE4 7 5 wB 4 2
           [(6, 4); (5, 3); (4, 2); (3, 1); (2, 0)]);
    [reflexivity | reflexivity | reflexivity | reflexivity | simpl; tauto].
Defined.

(** X11: a knight always lands on a square of the other colour. *)
Theorem knight_changes_colour board row col p r c moves :
  wf8 board ->
  getCell board row col = Ok (Pc p) ->
  toLowerCase p = bn ->
  getValidMoves board row col = Ok moves ->
  In (r, c) moves ->
  isLight r c = negb (isLight row col).
Proof.
  intros Hwf Hp Hk Hmoves Hin.
  rewrite (getValidMoves_wf8 board row col p Hwf Hp) in Hmoves.
  injection Hmoves as <-. unfold generated in Hin. rewrite Hk in Hin.
  apply in_concat_map in Hin as (d & Hd & Hin).
  apply in_dest in Hin as [[= -> ->] _].
  rewrite !isLight_even.
  replace (row + d.1 + (col + d.2)) with (row + col + (d.1 + d.2)) by lia.
  rewrite Z.even_add. unfold knightOffsets in Hd. simpl in Hd.
  repeat (destruct Hd as [<-|Hd]; [simpl; by destruct (Z.even (row + col))|]).
  contradiction.
Qed.

Lemma knight_changes_colour_witness :
  isLight 5 2 = negb (isLight 7 1).
Proof.
  apply (knight_changes_colour initialBoard 7 1 wN 5 2 [(5, 0); (5, 2)]);
    [reflexivity | reflexivity | reflexivity | reflexivity | simpl; tauto].
Defined.

(** * The history line *)

Lemma numberText_rank r :
  0 <= r <= 7 -> numberText (8 - r) = [56 - r].
Proof.
  intros Hr. assert (In r (range 0 8)) as H by (apply in_range; lia).
  unfold range in H. simpl in H.
  repeat (destruct H as [<-|H]; [reflexivity|]). contradiction.
Qed.

Lemma fromCharCode_file c :
  0 <= c <= 7 -> fromCharCode (97 + c) = [97 + c].
Proof. intros Hc. unfold fromCharCode. f_equal. apply Z.mod_small. lia. Qed.

(** For a move on the board: the figure, the file letter and the rank digit
    of each square around the arrow, and the capture suffix. *)
Lemma notation_on_board p from to captured :
  inRange from.1 from.2 -> inRange to.1 to.2 ->
  notation (Pc p) from to captured
  = PIECE_SYMBOLS p
    ++ [97 + from.2; 56 - from.1; 0x2192; 97 + to.2; 56 - to.1]
    ++ (if truthy captured then text " x" ++ symbolText captured else []).
Proof.
  intros [Hfr Hfc] [Htr Htc]. unfold notation.
  rewrite !numberText_rank, !fromCharCode_file by assumption. reflexivity.
Qed.

Lemma PIECE_SYMBOLS_inj p p' : PIECE_SYMBOLS p = PIECE_SYMBOLS p' -> p = p'.
Proof. destruct p, p'; (reflexivity || discriminate). Qed.

(** X12: the history line tells the move: two moves on the board whose
    lines are equal have the same piece, the same two squares and the same
    captured piece (or both none). *)
Theorem notation_injective p p' from from' to to' captured captured' :
  inRange from.1 from.2 -> inRange to.1 to.2 ->
  inRange from'.1 from'.2 -> inRange to'.1 to'.2 ->
  captured <> Undefined -> captured' <> Undefined ->
  notation (Pc p) from to captured = notation (Pc p') from' to' captured' ->
  p = p' /\ from = from' /\ to = to' /\ captured = captured'.
Proof.
  intros Hf Ht Hf' Ht' Hc Hc' H.
  rewrite !notation_on_board in H by assumption.
  destruct from as [fr fc], to as [tr tc], from' as [fr' fc'], to' as [tr' tc'].
  simpl in H. injection H as Hp Hfc Hfr Htc Htr Hcap.
  assert (p = p') as -> by (destruct p, p'; first [reflexivity | lia]).
  split; [reflexivity|]. split; [f_equal; lia|]. split; [f_equal; lia|].
  destruct captured as [| |q], captured' as [| |q']; try done.
  simpl in Hcap. injection Hcap as Hq. f_equal.
  destruct q, q'; first [reflexivity | lia].
Qed.

Lemma notation_injective_witness :
  wP = wP /\ (6, 4) = (6, 4) /\ (4, 4) = (4, 4) /\ Null = Null.
Proof.
  apply (notation_injective wP wP (6, 4) (6, 4) (4, 4) (4, 4) Null Null);
    try (simpl; unfold inRange; lia); try discriminate. reflexivity.
Defined.

(** * The component *)

Import UI.

Lemma existsb_square (l : list Square) row col :
  existsb (fun m : Square => (m.1 =? row) && (m.2 =? col)) l = true
  <-> In (row, col) l.
Proof.
  rewrite existsb_exists. split.
  - intros ([r c] & Hin & H). simpl in H.
    apply andb_true_iff in H as [H1 H2]. apply Z.eqb_eq in H1, H2. by subst.
  - intros H. exists (row, col). split; [exact H|]. simpl.
    by rewrite !Z.eqb_refl.
Qed.

Lemma getValidMoves_inRange board row col :
  wf8 board -> inRange row col ->
  exists moves, getValidMoves board row col = Ok moves
                /\ Forall (fun sq : Square => inRange sq.1 sq.2) moves.
Proof.
  intros Hwf Hin. destruct (wf8_inside board row col Hwf Hin) as (v & Hv & _ & Hd).
  destruct v as [| |p]; [done| |].
  - exists []. split; [unfold getValidMoves; by rewrite Hv|constructor].
  - exists (generated board row col (white p) p).
    split; [by apply getValidMoves_wf8|]. apply Forall_forall.
    intros sq Hsq. apply list_elem_of_In in Hsq.
    by eapply generated_inRange.
Qed.

Lemma select_safe st row col :
  safeState st -> inRange row col ->
  exists st', select st row col = Done st' None /\ safeState st'
              /\ board st' = board st.
Proof.
  intros (Hwf & Hvm & Hsel) Hin. unfold select.
  destruct (getValidMoves_inRange (board st) row col Hwf Hin) as (moves & -> & Hm).
  eexists. split; [reflexivity|]. split; [|reflexivity].
  split; [exact Hwf|]. split; [exact Hm|]. by intros sq [= <-].
Qed.

Lemma handleSquareClick_safe st row col :
  safeState st -> inRange row col ->
  exists st' timer,
    handleSquareClick st row col = Done st' timer
    /\ safeState st'
    /\ forall newBoard, timer = Some newBoard -> wf8 newBoard.
Proof.
  intros Hst Hin. pose proof Hst as (Hwf & Hvm & Hsel). unfold handleSquareClick.
  destruct (truthyString (gameOver st) || thinking st
            || negb match turn st with WhiteTurn => true | BlackTurn => false end).
  { exists st, None. split; [reflexivity|]. split; [exact Hst|discriminate]. }
  destruct (wf8_inside (board st) row col Hwf Hin) as (piece & -> & _ & _).
  assert (Hselect : whitePiece piece = true ->
    exists st' timer, select st row col = Done st' timer /\ safeState st'
      /\ forall newBoard, timer = Some newBoard -> wf8 newBoard).
  { intros _. destruct (select_safe st row col Hst Hin) as (st' & -> & Hs & _).
    exists st', None. split; [reflexivity|]. split; [exact Hs|discriminate]. }
  destruct (selected st) as [sel|] eqn:Esel.
  - destruct (existsb _ (validMoves st)) eqn:Evalid.
    + specialize (Hsel sel eq_refl).
      destruct (makeMove_wf8 (board st) sel (row, col) Hwf Hsel Hin)
        as (fromPiece & nb & Hfrom & _ & Hmv & Hnb & _).
      rewrite Hfrom. cbn [bind]. rewrite Hmv. cbn [bind].
      eexists _, _. split; [reflexivity|]. split.
      * split; [exact Hnb|]. split; [constructor|]. intros sq. discriminate.
      * by intros ? [= <-].
    + destruct (whitePiece piece) eqn:Ew; [by apply Hselect|].
      eexists _, _. split; [reflexivity|]. split; [|discriminate].
      split; [exact Hwf|]. split; [constructor|]. intros sq. discriminate.
  - destruct (whitePiece piece) eqn:Ew; [by apply Hselect|].
    exists st, None. split; [reflexivity|]. split; [exact Hst|discriminate].
Qed.

Lemma resetGame_safe st : safeState (resetGame st).
Proof.
  split; [reflexivity|]. split; [constructor|]. intros sq. discriminate.
Qed.

(** The callback with its setters, from the outcome [aiMove] computes. *)
Lemma aiMoveCallback_outcome st currentBoard out :
  aiMove currentBoard = Ok out ->
  match out with
  | GameOver message =>
      aiMoveCallback st currentBoard
      = Done (setThinking false (setGameOver (Some message) st)) None
  | Played (fr, fc, tr, tc) newBoard gameOver =>
      exists piece captured,
        getCell currentBoard fr fc = Ok piece
        /\ getCell currentBoard tr tc = Ok captured
        /\ aiMoveCallback st currentBoard
           = Done
               (let st' :=
                  setThinking false
                    (setTurn WhiteTurn
                       (setMoveHistory
                          (fun prev =>
                             prev ++ [notation piece (fr, fc) (tr, tc) captured])
                          (setBoard newBoard st))) in
                match gameOver with
                | Some message => setGameOver (Some message) st'
                | None => st'
                end)
               None
  end.
Proof.
  unfold aiMove, aiMoveCallback.
  destruct (getAllMoves currentBoard true) as [[|first rest]|]; cbn [bind];
    [by intros [= <-]| |discriminate].
  destruct (bestLoop currentBoard (first :: rest) first NegInf)
    as [[[[[fr fc] tr] tc] bs]|]; cbn [bind]; [|discriminate].
  destruct (getCell currentBoard fr fc) as [piece|] eqn:Hp; cbn [bind];
    [|discriminate].
  destruct (getCell currentBoard tr tc) as [captured|] eqn:Hc; cbn [bind];
    [|discriminate].
  destruct (makeMove currentBoard (fr, fc) (tr, tc)) as [nb|]; cbn [bind];
    [|discriminate].
  destruct (getAllMoves nb false) as [wm|]; cbn [bind]; [|discriminate].
  intros [= <-]. exists piece, captured. split; [exact Hp|].
  split; [exact Hc|]. by destruct wm.
Qed.

Lemma aiMoveCallback_safe st currentBoard :
  safeState st -> wf8 currentBoard ->
  exists st', aiMoveCallback st currentBoard = Done st' None /\ safeState st'.
Proof.
  intros (Hwf & Hvm & Hsel) Hb.
  destruct (aiMove_total currentBoard Hb) as [out Hout].
  pose proof (aiMoveCallback_outcome st currentBoard out Hout) as H.
  destruct out as [message|[[[fr fc] tr] tc] nb go].
  - eexists. split; [exact H|].
    split; [exact Hwf|]. split; [exact Hvm|exact Hsel].
  - destruct H as (piece & captured & _ & _ & H).
    eexists. split; [exact H|].
    apply aiMove_Played in Hout as (moves & wm & Hm & Hin & Hmv & _).
    simpl in Hmv.
    destruct (getAllMoves_wf8 currentBoard true Hb) as (moves' & Hm' & Hall).
    rewrite Hm in Hm'. injection Hm' as <-.
    assert (Hlegal : legalMove (fr, fc, tr, tc)).
    { eapply Forall_forall; [exact Hall|]. by apply list_elem_of_In. }
    destruct (child_wf8 currentBoard Hb fr fc tr tc Hlegal) as (nb' & Hnb' & Hwf').
    rewrite Hmv in Hnb'. injection Hnb' as <-.
    destruct go; (split; [exact Hwf'|]); (split; [exact Hvm|exact Hsel]).
Qed.

Lemma step_safe m e :
  safeMachine m -> onBoard e ->
  exists m', step m e = (m', false) /\ safeMachine m'.
Proof.
  intros [Hst Htm] He. destruct e as [row col| |k]; simpl.
  - destruct (handleSquareClick_safe (state m) row col Hst He)
      as (st' & timer & -> & Hst' & Hnb).
    destruct timer as [nb|]; eexists; (split; [reflexivity|]);
      (split; [exact Hst'|]); simpl; [|exact Htm].
    apply Forall_app. split; [exact Htm|]. repeat constructor. by apply Hnb.
  - eexists. split; [reflexivity|]. split; [apply resetGame_safe|exact Htm].
  - destruct (timers m !! k) as [[b|b]|] eqn:Hk.
    + eexists. split; [reflexivity|]. split; [exact Hst|]. simpl.
      apply Forall_app. split; [by apply Forall_delete|].
      repeat constructor. eapply (Forall_lookup_1 _ _ _ _ Htm Hk).
    + assert (Hb : wf8 b) by apply (Forall_lookup_1 _ _ _ _ Htm Hk).
      destruct (aiMoveCallback_safe (state m) b Hst Hb) as (st' & -> & Hst').
      eexists. split; [reflexivity|]. split; [exact Hst'|].
      by apply Forall_delete.
    + exists m. by split.
Qed.

Lemma run_safe events :
  forall m, safeMachine m -> Forall onBoard events ->
  exists m', run m events = (m', false) /\ safeMachine m'.
Proof.
  induction events as [|e events IH]; intros m Hm Hev.
  - exists m. by split.
  - inversion Hev as [|? ? He Hrest]; subst. simpl.
    destruct (step_safe m e Hm He) as (m1 & -> & Hm1).
    destruct (IH m1 Hm1 Hrest) as (m2 & -> & Hm2).
    exists m2. by split.
Qed.

Lemma initialMachine_safe : safeMachine initialMachine.
Proof.
  split; [|constructor]. split; [reflexivity|]. split; [constructor|].
  intros sq. discriminate.
Qed.

(** X13: whatever the player clicks on the board and on "New Game", and in
    whatever order the pending timers fire, no handler throws, and the board
    on display is always an 8x8 board. *)
Theorem component_never_throws events :
  Forall onBoard events ->
  exists m,
    run initialMachine events = (m, false)
    /\ wf8 (board (state m)).
Proof.
  intros Hev.
  destruct (run_safe events initialMachine initialMachine_safe Hev)
    as (m & Hrun & Hm).
  exists m. split; [exact Hrun|apply Hm].
Qed.

Lemma component_never_throws_witness :
  exists m,
    run initialMachine [Click 6 4; Click 4 4; NewGame; Fire 0; Click 6 4; Fire 0]
    = (m, false)
    /\ wf8 (board (state m)).
Proof.
  apply (component_never_throws
           [Click 6 4; Click 4 4; NewGame; Fire 0; Click 6 4; Fire 0]).
  repeat constructor; unfold inRange; lia.
Defined.

(** ** Games *)

Lemma select_coherent m row col piece st' timer :
  wf8 (board (state m)) -> coherent m -> timers m = [] ->
  getCell (board (state m)) row col = Ok piece -> whitePiece piece = true ->
  select (state m) row col = Done st' timer ->
  timer = None /\ coherent (mkMachine st' []).
Proof.
  intros Hwf (Hpos & _ & _) Hnt Hpiece Hw. destruct piece as [| |p]; try done.
  simpl in Hw. unfold select.
  rewrite (getValidMoves_wf8 _ _ _ p Hwf Hpiece), Hw.
  intros [= <- <-]. split; [done|]. split; [exact Hpos|]. split; [|by left].
  intros sq [= <-]. exists p. simpl. split; [exact Hpiece|]. split; [exact Hw|].
  by rewrite (getValidMoves_wf8 _ _ _ p Hwf Hpiece), Hw.
Qed.

Lemma click_coherent m row col st' timer :
  safeMachine m -> coherent m -> inRange row col ->
  handleSquareClick (state m) row col = Done st' timer ->
  coherent (mkMachine st' (timers m ++ match timer with
                                       | Some b => [CallAiMove b]
                                       | None => []
                                       end)).
Proof.
  intros [(Hwf & Hvm & Hin) Htm] Hco Hrc. pose proof Hco as (Hpos & Hsel & Hpend).
  unfold handleSquareClick.
  destruct (truthyString (gameOver (state m)) || thinking (state m)
            || negb match turn (state m) with
                    | WhiteTurn => true
                    | BlackTurn => false
                    end) eqn:Hg.
  { intros [= <- <-]. rewrite app_nil_r. exact Hco. }
  assert (Hturn : turn (state m) = WhiteTurn).
  { destruct (turn (state m)); [done|]. by rewrite orb_true_r in Hg. }
  assert (Hnt : timers m = []).
  { destruct Hpend as [H|(t & _ & _ & H & _)]; [exact H|congruence]. }
  rewrite Hnt. cbn [app].
  destruct (wf8_inside (board (state m)) row col Hwf Hrc) as (piece & Hpiece & _ & _).
  rewrite Hpiece.
  assert (Hselect : whitePiece piece = true ->
    select (state m) row col = Done st' timer ->
    coherent (mkMachine st' match timer with
                            | Some b => [CallAiMove b]
                            | None => []
                            end)).
  { intros Hw Hs.
    by destruct (select_coherent m row col piece st' timer Hwf Hco Hnt Hpiece Hw Hs)
      as [-> H]. }
  destruct (selected (state m)) as [sel|] eqn:Esel.
  - destruct (existsb _ (validMoves (state m))) eqn:Evalid.
    + apply existsb_square in Evalid.
      destruct (Hsel sel eq_refl) as (p & Hp & Hw & Hmoves).
      destruct (makeMove_wf8 (board (state m)) sel (row, col) Hwf (Hin sel eq_refl) Hrc)
        as (fromPiece & nb & Hfrom & _ & Hmv & Hnb & _).
      rewrite Hfrom. cbn [bind]. rewrite Hmv. cbn [bind].
      intros [= <- <-]. split; [|split].
      * cbn. rewrite length_app, Nat.add_1_r.
        apply (position_move WhiteTurn _ (board (state m)) sel (row, col) p
                 (validMoves (state m))); try done.
        by rewrite <- Hturn.
      * intros sq. discriminate.
      * right. by eexists.
    + destruct (whitePiece piece) eqn:Ew; [by apply Hselect|].
      intros [= <- <-]. split; [exact Hpos|]. split; [|by left].
      intros sq. discriminate.
  - destruct (whitePiece piece) eqn:Ew; [by apply Hselect|].
    intros [= <- <-]. split; [exact Hpos|]. split; [|by left].
    cbn. by rewrite Esel.
Qed.

Lemma callback_coherent m b st' timer :
  wf8 b -> board (state m) = b -> turn (state m) = BlackTurn ->
  selected (state m) = None ->
  position BlackTurn (length (moveHistory (state m))) b ->
  aiMoveCallback (state m) b = Done st' timer ->
  coherent (mkMachine st' []).
Proof.
  intros Hwf Hb Hturn Hsel Hpos.
  destruct (aiMove_total b Hwf) as [out Hout].
  pose proof (aiMoveCallback_outcome (state m) b out Hout) as H.
  destruct out as [message|[[[fr fc] tr] tc] nb go].
  - rewrite H. intros [= <- _]. split; [|split; [|by left]].
    + cbn. by rewrite Hturn, Hb.
    + cbn. by rewrite Hsel.
  - destruct H as (piece & captured & _ & _ & ->).
    apply aiMove_Played in Hout as (moves & wm & Hm & Hin & Hmv & _).
    simpl in Hmv. rewrite (getAllMoves_scan b true Hwf) in Hm.
    injection Hm as <-.
    apply (getAllMoves_members b true fr fc tr tc Hwf) in Hin
      as (p & dests & Hp & Hside & Hd & Hto).
    intros [= <- _].
    assert (Hnew : position WhiteTurn (S (length (moveHistory (state m)))) nb).
    { apply (position_move BlackTurn _ b (fr, fc) (tr, tc) p dests); try done.
      simpl. by rewrite Hside. }
    split; [|split; [|by left]].
    + destruct go; cbn; by rewrite length_app, Nat.add_1_r.
    + destruct go; cbn; by rewrite Hsel.
Qed.

Lemma step_coherent m e :
  safeMachine m -> coherent m -> onBoard e ->
  (e = NewGame -> timers m = []) ->
  exists m', step m e = (m', false) /\ safeMachine m' /\ coherent m'.
Proof.
  intros Hsafe Hco He Hng.
  destruct (step_safe m e Hsafe He) as (m' & Hstep & Hsafe').
  exists m'. split; [exact Hstep|]. split; [exact Hsafe'|].
  pose proof Hco as (Hpos & Hsel & Hpend).
  destruct e as [row col| |k]; simpl in Hstep.
  - destruct (handleSquareClick (state m) row col) as [st' timer|st'] eqn:Hclick;
      [|by destruct m'].
    apply (click_coherent m row col st' timer Hsafe Hco He) in Hclick.
    destruct timer; injection Hstep as <-; [exact Hclick|].
    by rewrite app_nil_r in Hclick.
  - injection Hstep as <-. rewrite (Hng eq_refl). split; [|split; [|by left]].
    + apply position_start.
    + intros sq. discriminate.
  - destruct Hpend as [Hnt|(t & Ht & Hb & Hturn & Hnone)].
    { rewrite Hnt in Hstep. simpl in Hstep. by injection Hstep as <-. }
    rewrite Ht in Hstep. destruct k as [|k]; simpl in Hstep;
      [|by injection Hstep as <-].
    destruct t as [b|b]; simpl in Hb.
    + injection Hstep as <-. split; [exact Hpos|]. split; [|right; by eexists].
      cbn. rewrite Hnone. discriminate.
    + assert (Hwf : wf8 b) by (rewrite Hb; apply Hsafe).
      destruct (aiMoveCallback (state m) b) as [st' timer|st'] eqn:Hcb;
        [|discriminate].
      injection Hstep as <-.
      apply (callback_coherent m b st' timer Hwf); try done.
      by rewrite <- Hturn, Hb.
Qed.

Lemma run_coherent events :
  forall m, safeMachine m -> coherent m -> patient m events ->
  exists m', run m events = (m', false) /\ safeMachine m' /\ coherent m'.
Proof.
  induction events as [|e events IH]; intros m Hsafe Hco Hev.
  - exists m. by split.
  - destruct Hev as (He & Hng & Hrest). simpl.
    destruct (step_coherent m e Hsafe Hco He Hng) as (m1 & Hstep & Hsafe1 & Hco1).
    rewrite Hstep in Hrest |- *. simpl in Hrest.
    destruct (IH m1 Hsafe1 Hco1 Hrest) as (m2 & -> & Hm2).
    exists m2. by split.
Qed.

Lemma initialMachine_coherent : coherent initialMachine.
Proof.
  split; [apply position_start|]. split; [|by left]. intros sq. discriminate.
Qed.

(** X14: as long as the player clicks on the board and waits for the reply
    of the AI before "New Game", no handler throws and the board on display
    is a position of the game: it arises from the initial position by as
    many moves as the history has lines, White and Black in turn, each one a
    move that [getValidMoves] returns for a piece of the side to move, and
    the turn shown is that of the side to move. *)
Theorem displayed_board_is_a_position events :
  patient initialMachine events ->
  exists m,
    run initialMachine events = (m, false)
    /\ position (turn (state m)) (length (moveHistory (state m)))
                (board (state m)).
Proof.
  intros Hev.
  destruct (run_coherent events initialMachine initialMachine_safe
              initialMachine_coherent Hev) as (m & Hrun & _ & Hpos & _).
  exists m. by split.
Qed.

Lemma displayed_board_is_a_position_witness :
  exists m,
    run initialMachine [Click 6 4; Click 4 4; Fire 0; Fire 0; NewGame; Click 7 1]
    = (m, false)
    /\ position (turn (state m)) (length (moveHistory (state m)))
                (board (state m)).
Proof.
  apply (displayed_board_is_a_position
           [Click 6 4; Click 4 4; Fire 0; Fire 0; NewGame; Click 7 1]).
  vm_compute. repeat split; try discriminate; intros; reflexivity.
Defined.

(** X15: "New Game" does not cancel a pending reply.  When the timer of a
    reply to [b] fires after "New Game", the board on display becomes the
    AI's answer to [b], a position of the game that was abandoned, with a
    history of one line and White to move. *)
Theorem newGame_keeps_pending_reply m k b best newBoard over :
  timers m !! k = Some (AiCallback b) ->
  aiMove b = Ok (Played best newBoard over) ->
  exists m',
    run m [NewGame; Fire k] = (m', false)
    /\ board (state m') = newBoard
    /\ turn (state m') = WhiteTurn
    /\ length (moveHistory (state m')) = 1%nat
    /\ timers m' = delete k (timers m).
Proof.
  intros Hk Hout. simpl. rewrite Hk.
  pose proof (aiMoveCallback_outcome (resetGame (state m)) b _ Hout) as H.
  destruct best as [[[fr fc] tr] tc].
  destruct H as (piece & captured & _ & _ & ->).
  eexists. split; [reflexivity|]. by destruct over.
Qed.

Lemma newGame_keeps_pending_reply_witness :
  exists best newBoard over,
    aiMove afterE4 = Ok (Played best newBoard over)
    /\ exists m',
         run (run initialMachine [Click 6 4; Click 4 4; Fire 0]).1
             [NewGame; Fire 0]
         = (m', false)
         /\ board (state m') = newBoard
         /\ turn (state m') = WhiteTurn
         /\ length (moveHistory (state m')) = 1%nat
         /\ timers m'
            = delete 0%nat
                (timers (run initialMachine [Click 6 4; Click 4 4; Fire 0]).1).
Proof.
  do 3 eexists. split; [vm_compute; reflexivity|].
  eapply (newGame_keeps_pending_reply
            (run initialMachine [Click 6 4; Click 4 4; Fire 0]).1 0 afterE4);
    vm_compute; reflexivity.
Defined.
